(** * form-state: path resolution, structural diffing, scoped events, action store

    A shallow embedding of the TypeScript sources

      - formHelp/core.ts      (jsonClone, parsePathComponent, getDataByPath,
                               getScopeAndName, joinScopes, computeArrayDiff,
                               mergeArrays, computeDiff)
      - utils                 (sortString, makeEventBus)
      - form/context.ts       (makeScopeCollector, makeFHContext)
      - action-store/core.ts  (ActionStoreImpl, standardOpsReducer)

    JavaScript objects are mutable and shared by reference, and several
    properties of the code are about exactly that (which object a closure
    captured, whether a state reference was replaced, whether two resolved
    nodes are distinct).  The embedding therefore keeps an explicit object
    heap: a value is a primitive or a reference, an object is a cell of the
    heap, and every function that mutates or allocates is a computation in a
    state-and-exception monad over the heap.

    Modelling conventions.
      - Strings are sequences of code units; Rocq's [string] is used, so the
        alphabet is the 8-bit one.  [String.length] is the JS [length].
      - Numbers are integers ([Z]); fractions, NaN and infinities do not occur
        in the documents considered.
      - Of the prototype chain this much is modelled: on the tables that the
        code keeps in plain objects and marks with [true] ([examined] in
        [mergeArrays], [qScopes], [sent]), assigning the key ['__proto__']
        stores nothing, and reading a name inherited from [Object.prototype]
        gives a truthy member ([inherited], [rec_mark], [rec_marked]).
        Elsewhere only own data properties exist: the cells of a document
        and the listener tables of the buses are modelled for names that are
        not inherited, and a theorem that depends on it says so with a
        hypothesis on the names.
      - The modules are ES modules compiled with [strict: true]: assigning a
        property on a primitive throws.
      - An error thrown by the engine itself (TypeError, RangeError,
        SyntaxError) is the single outcome [RuntimeError].
      - Event handlers are observers: an invocation is recorded in a trace,
        in order, together with every emission.
      - A focus event is what [isPropagationStopped()] answers about it; a
        DOM element is what [getScopeAndName] reads of it and of its
        ancestors.
      - Left out: the submit handlers and the submit wrappers of the context
        ([create], [update], [delete]), which call [fetch]; the change
        handlers of the controls ([inputChanged], [textareaChanged],
        [selectChanged]); the React hooks. *)

Set Warnings "-register-all".
From Stdlib Require Import ZArith String Ascii List Lia Permutation Sorted DecimalString.
From stdpp Require Import base list strings.

Open Scope string_scope.
Open Scope list_scope.

(* ================================================================= *)
(** ** Strings *)

(** [s.split(sep)] for a one-character separator: never empty. *)
Fixpoint js_split (sep : ascii) (s : string) : list string :=
  match s with
  | EmptyString => [EmptyString]
  | String c r =>
      if Ascii.eqb c sep then EmptyString :: js_split sep r
      else match js_split sep r with
           | x :: xs => String c x :: xs
           | [] => [String c EmptyString]
           end
  end.

(** [l.join(sep)] *)
Fixpoint js_join (sep : string) (l : list string) : string :=
  match l with
  | [] => ""
  | [x] => x
  | x :: xs => x +:+ sep +:+ js_join sep xs
  end.

(** Truthiness of a string: non-empty. *)
Definition nonempty (s : string) : bool :=
  match s with EmptyString => false | _ => true end.

Definition string_of_N (n : N) : string := NilZero.string_of_uint (N.to_uint n).

(** [String(i)] / template interpolation of an integer. *)
Definition string_of_Z (z : Z) : string :=
  if (z <? 0)%Z then "-" +:+ string_of_N (Z.to_N (- z)) else string_of_N (Z.to_N z).

Definition digit_val (c : ascii) : option N :=
  let n := N_of_ascii c in
  if ((48 <=? n) && (n <=? 57))%N then Some (n - 48)%N
  else if ((97 <=? n) && (n <=? 122))%N then Some (n - 87)%N
  else if ((65 <=? n) && (n <=? 90))%N then Some (n - 55)%N
  else None.

(** All characters are decimal digits: the number they denote. *)
Fixpoint all_digits (s : string) (acc : N) : option N :=
  match s with
  | EmptyString => Some acc
  | String c r =>
      match digit_val c with
      | Some d => if (d <? 10)%N then all_digits r (10 * acc + d)%N else None
      | None => None
      end
  end.

(** A property key that is an array index: the canonical decimal form of an
    integer below 2^32 - 1. *)
Definition array_index (k : string) : option N :=
  match k with
  | EmptyString => None
  | _ =>
      match all_digits k 0 with
      | Some n =>
          if String.eqb (string_of_N n) k && (n <? 4294967295)%N
          then Some n else None
      | None => None
      end
  end.

Definition is_ws (c : ascii) : bool :=
  let n := N_of_ascii c in
  ((9 <=? n) && (n <=? 13) || (n =? 32) || (n =? 160))%N.

Fixpoint skip_ws (s : string) : string :=
  match s with
  | String c r => if is_ws c then skip_ws r else s
  | EmptyString => s
  end.

(** Longest prefix of digits of the radix; [None] when there is none. *)
Fixpoint take_digits (radix : N) (s : string) (acc : option N) : option N :=
  match s with
  | EmptyString => acc
  | String c r =>
      match digit_val c with
      | Some d =>
          if (d <? radix)%N
          then take_digits radix r (Some (radix * default 0%N acc + d)%N)
          else acc
      | None => acc
      end
  end.

(** [parseInt(s)] without radix; [None] is NaN. *)
Definition parseInt (s : string) : option Z :=
  let s := skip_ws s in
  let '(neg, s) :=
    match s with
    | String "-" r => (true, r)
    | String "+" r => (false, r)
    | _ => (false, s)
    end in
  let '(radix, s) :=
    match s with
    | String "0" (String "x" r) => (16%N, r)
    | String "0" (String "X" r) => (16%N, r)
    | _ => (10%N, s)
    end in
  match take_digits radix s None with
  | Some n => Some (if neg : bool then (- Z.of_N n)%Z else Z.of_N n)
  | None => None
  end.

(* ================================================================= *)
(** ** [Array.prototype.sort] with a comparator

    The engine's algorithm is not fixed by the language; for a comparator
    that is a total order without ties between distinct elements every
    correct algorithm returns the same array.  Insertion is used here. *)

Section Sort.
Context {A : Type} (cmp : A -> A -> Z).

Fixpoint sort_insert (x : A) (l : list A) : list A :=
  match l with
  | [] => [x]
  | y :: l' => if (cmp x y <=? 0)%Z then x :: l else y :: sort_insert x l'
  end.

Fixpoint js_sort (l : list A) : list A :=
  match l with
  | [] => []
  | x :: l' => sort_insert x (js_sort l')
  end.
End Sort.

(* ================================================================= *)
(** ** Property tables ([Record<string, T>], plain objects)

    Insertion order is kept; assigning an existing key keeps its place. *)

Abbreviation Rec A := (list (string * A)).

Section RecOps.
Context {A : Type}.

Fixpoint rec_get (k : string) (r : Rec A) : option A :=
  match r with
  | [] => None
  | (k', v) :: r' => if String.eqb k k' then Some v else rec_get k r'
  end.

Fixpoint rec_set (k : string) (v : A) (r : Rec A) : Rec A :=
  match r with
  | [] => [(k, v)]
  | (k', v') :: r' =>
      if String.eqb k k' then (k, v) :: r' else (k', v') :: rec_set k v r'
  end.

Fixpoint rec_del (k : string) (r : Rec A) : Rec A :=
  match r with
  | [] => []
  | (k', v') :: r' =>
      if String.eqb k k' then r' else (k', v') :: rec_del k r'
  end.

Definition is_index_key (k : string) : bool :=
  match array_index k with Some _ => true | None => false end.

Definition index_order (a b : string) : Z :=
  (Z.of_N (default 0%N (array_index a)) - Z.of_N (default 0%N (array_index b)))%Z.

(** [Object.keys]: array-index keys first in ascending numeric order, then
    the other keys in insertion order. *)
Definition rec_keys (r : Rec A) : list string :=
  let ks := map fst r in
  js_sort index_order (List.filter is_index_key ks)
    ++ List.filter (fun k => negb (is_index_key k)) ks.

(** [Object.entries] *)
Definition rec_entries (r : Rec A) : Rec A :=
  omap (fun k => match rec_get k r with Some v => Some (k, v) | None => None end)
       (rec_keys r).
End RecOps.

(** The names that every plain object inherits from [Object.prototype]. *)
Definition inherited (k : string) : bool :=
  existsb (String.eqb k)
    ["constructor"; "__defineGetter__"; "__defineSetter__"; "hasOwnProperty";
     "__lookupGetter__"; "__lookupSetter__"; "isPrototypeOf";
     "propertyIsEnumerable"; "toString"; "valueOf"; "__proto__";
     "toLocaleString"].

(** [t[k] = true] on a table: ['__proto__'] names the accessor of the
    prototype, and assigning a boolean through it stores nothing. *)
Definition rec_mark (k : string) (t : Rec bool) : Rec bool :=
  if String.eqb k "__proto__" then t else rec_set k true t.

(** The truthiness of [t[k]] on a table of marks: an inherited member is a
    function or an object. *)
Definition rec_marked (k : string) (t : Rec bool) : bool :=
  inherited k || default false (rec_get k t).

(* ================================================================= *)
(** ** Values, objects and the heap *)

Abbreviation loc := nat.

Inductive val :=
| VUndef
| VNull
| VBool (b : bool)
| VNum (n : Z)
| VStr (s : string)
| VRef (l : loc).

(** An object is a property table; an array additionally has its element
    list ([None] is a hole) and reports its [length]. *)
Record obj := Obj { elems : option (list (option val)); props : Rec val }.

Abbreviation heap := (list obj).

Definition empty_object : obj := Obj None [].
Definition empty_array : obj := Obj (Some []) [].

(** [a === b] *)
Definition strict_eq (a b : val) : bool :=
  match a, b with
  | VUndef, VUndef | VNull, VNull => true
  | VBool x, VBool y => Bool.eqb x y
  | VNum x, VNum y => Z.eqb x y
  | VStr x, VStr y => String.eqb x y
  | VRef x, VRef y => Nat.eqb x y
  | _, _ => false
  end.

(** [!!v] *)
Definition truthy (v : val) : bool :=
  match v with
  | VUndef | VNull => false
  | VBool b => b
  | VNum n => negb (Z.eqb n 0)
  | VStr s => nonempty s
  | VRef _ => true
  end.

(** [v === undefined || v === null], the test of [??] *)
Definition nullish (v : val) : bool :=
  match v with VUndef | VNull => true | _ => false end.

(** [typeof v === 'object'] *)
Definition typeof_object (v : val) : bool :=
  match v with VNull | VRef _ => true | _ => false end.

(** [v instanceof Array] *)
Definition is_array (h : heap) (v : val) : bool :=
  match v with
  | VRef l => match h !! l with
              | Some o => match elems o with Some _ => true | None => false end
              | None => false
              end
  | _ => false
  end.

(** A property key, as the engine classifies it: an array index, or any
    other name. *)
Inductive pkey :=
| KIndex (i : N)
| KName (s : string).

(** The key named by a string: [o[name]]. *)
Definition key_of_string (k : string) : pkey :=
  match array_index k with
  | Some i => KIndex i
  | None => KName k
  end.

(** The key named by an integer: [o[i]].  The text of an integer in the
    range of array indices is that index. *)
Definition key_of_Z (z : Z) : pkey :=
  if ((0 <=? z) && (z <? 4294967295))%Z then KIndex (Z.to_N z)
  else KName (string_of_Z z).

Definition key_text (k : pkey) : string :=
  match k with
  | KIndex i => string_of_N i
  | KName s => s
  end.

Definition is_length (k : pkey) : bool :=
  match k with
  | KName s => String.eqb s "length"
  | KIndex _ => false
  end.

(** Reading an own property of an object. *)
Definition obj_get (o : obj) (k : pkey) : val :=
  match elems o with
  | Some es =>
      if is_length k then VNum (Z.of_nat (length es))
      else match k with
           | KIndex i =>
               if (i <? N.of_nat (length es))%N
               then match es !! N.to_nat i with Some (Some v) => v | _ => VUndef end
               else VUndef
           | KName s => default VUndef (rec_get s (props o))
           end
  | None => default VUndef (rec_get (key_text k) (props o))
  end.

Definition set_elem (i : nat) (x : val) (es : list (option val)) : list (option val) :=
  if (i <? length es)%nat then <[i := Some x]> es
  else es ++ replicate (i - length es) None ++ [Some x].

(** Writing an own property; [None] when the engine throws.  An array's
    [length] accepts an integer in range; the coercion of other values
    written to [length] is not modelled and counts as a throw. *)
Definition obj_set (o : obj) (k : pkey) (x : val) : option obj :=
  match elems o with
  | Some es =>
      if is_length k then
        match x with
        | VNum n =>
            if ((0 <=? n) && (n <? 4294967296))%Z
            then Some (Obj (Some (resize (Z.to_nat n) None es)) (props o)) else None
        | _ => None
        end
      else match k with
           | KIndex i => Some (Obj (Some (set_elem (N.to_nat i) x es)) (props o))
           | KName s => Some (Obj (Some es) (rec_set s x (props o)))
           end
  | None => Some (Obj None (rec_set (key_text k) x (props o)))
  end.

(** [delete o[k]] *)
Definition obj_delete (o : obj) (k : pkey) : option obj :=
  match elems o with
  | Some es =>
      if is_length k then None
      else match k with
           | KIndex i =>
               if (i <? N.of_nat (length es))%N
               then Some (Obj (Some (<[N.to_nat i := None]> es)) (props o))
               else Some o
           | KName s => Some (Obj (Some es) (rec_del s (props o)))
           end
  | None => Some (Obj None (rec_del (key_text k) (props o)))
  end.

Fixpoint index_keys_from (i : N) (es : list (option val)) : list string :=
  match es with
  | [] => []
  | Some _ :: es' => string_of_N i :: index_keys_from (i + 1) es'
  | None :: es' => index_keys_from (i + 1) es'
  end.

(** Own enumerable keys of an object, in [Object.keys] order. *)
Definition obj_keys (o : obj) : list string :=
  match elems o with
  | Some es => index_keys_from 0 es ++ rec_keys (props o)
  | None => rec_keys (props o)
  end.

Fixpoint string_chars (s : string) : list (option val) :=
  match s with
  | EmptyString => []
  | String c r => Some (VStr (String c EmptyString)) :: string_chars r
  end.

(* ================================================================= *)
(** ** Computations: state and exceptions

    A thrown error leaves the state as it was at the throw: nothing is
    rolled back. *)

Inductive error :=
| UnnamedArray (component path : string)   (* [throw new Error(...)] of getDataByPath *)
| RuntimeError.                            (* thrown by the engine *)

(** The message of the [Error] object. *)
Definition error_message (e : error) : string :=
  match e with
  | UnnamedArray component path =>
      "unnamed array not allowed. failed parsing '" +:+ component +:+ "' in '" +:+ path +:+ "'"
  | RuntimeError => "runtime error"
  end.

Inductive res (A : Type) :=
| Ok (a : A)
| Throw (e : error).
Arguments Ok {A} a.
Arguments Throw {A} e.

Definition M (S A : Type) : Type := S -> res A * S.

Definition ret {S A} (a : A) : M S A := fun s => (Ok a, s).

Definition throw {S A} (e : error) : M S A := fun s => (Throw e, s).

Definition bind {S A B} (m : M S A) (k : A -> M S B) : M S B :=
  fun s => match m s with
           | (Ok a, s') => k a s'
           | (Throw e, s') => (Throw e, s')
           end.

Notation "'let*' x := m 'in' k" := (bind m (fun x => k))
  (at level 10, x name, m at level 100, k at level 200, only parsing).

Definition get_state {S} : M S S := fun s => (Ok s, s).
Definition modify {S} (f : S -> S) : M S unit := fun s => (Ok tt, f s).

(** Run a computation on a component of a larger state. *)
Definition zoom {S T A} (proj : T -> S) (upd : S -> T -> T) (m : M S A) : M T A :=
  fun t => let '(r, s') := m (proj t) in (r, upd s' t).

Section Loops.
Context {S A B : Type}.

Section ForM.
Variable f : A -> M S B.
Fixpoint forM (l : list A) : M S (list B) :=
  match l with
  | [] => ret []
  | x :: l' => let* y := f x in let* ys := forM l' in ret (y :: ys)
  end.
End ForM.

Section ForEach.
Variable f : A -> M S unit.
Fixpoint forEach (l : list A) : M S unit :=
  match l with
  | [] => ret tt
  | x :: l' => let* _ := f x in forEach l'
  end.
End ForEach.
End Loops.

(** Computations that only read: exceptions without state. *)
Definition rbind {A B} (m : res A) (k : A -> res B) : res B :=
  match m with
  | Ok a => k a
  | Throw e => Throw e
  end.

Notation "'let+' x := m 'in' k" := (rbind m (fun x => k))
  (at level 10, x name, m at level 100, k at level 200, only parsing).

Section Folds.
Context {A B : Type}.
Variable f : B -> A -> res B.
Fixpoint rfold (l : list A) (acc : B) : res B :=
  match l with
  | [] => Ok acc
  | x :: l' => let+ acc' := f acc x in rfold l' acc'
  end.
End Folds.

(* ----------------------------------------------------------------- *)
(** *** Heap primitives *)

Definition alloc (o : obj) : M heap val :=
  fun h => (Ok (VRef (List.length h)), h ++ [o]).

(** Reading the property [k] of a value, as a function of the heap. *)
Definition read_key (h : heap) (v : val) (k : pkey) : res val :=
  match v with
  | VUndef | VNull => Throw RuntimeError
  | VBool _ | VNum _ => Ok VUndef
  | VStr s => Ok (obj_get (Obj (Some (string_chars s)) []) k)
  | VRef l => match h !! l with
              | Some o => Ok (obj_get o k)
              | None => Throw RuntimeError
              end
  end.

Definition get_key (v : val) (k : pkey) : M heap val :=
  fun h => (read_key h v k, h).

Definition set_key (v : val) (k : pkey) (x : val) : M heap unit :=
  fun h =>
    match v with
    | VRef l => match h !! l with
                | Some o => match obj_set o k x with
                            | Some o' => (Ok tt, <[l := o']> h)
                            | None => (Throw RuntimeError, h)
                            end
                | None => (Throw RuntimeError, h)
                end
    | _ => (Throw RuntimeError, h)
    end.

Definition delete_key (v : val) (k : pkey) : M heap unit :=
  fun h =>
    match v with
    | VUndef | VNull => (Throw RuntimeError, h)
    | VBool _ | VNum _ => (Ok tt, h)
    | VStr s =>
        match obj_get (Obj (Some (string_chars s)) []) k with
        | VUndef => (Ok tt, h)
        | _ => (Throw RuntimeError, h)
        end
    | VRef l => match h !! l with
                | Some o => match obj_delete o k with
                            | Some o' => (Ok tt, <[l := o']> h)
                            | None => (Throw RuntimeError, h)
                            end
                | None => (Throw RuntimeError, h)
                end
    end.

(** [v[k]] for a string [k] *)
Definition read_prop (h : heap) (v : val) (k : string) : res val :=
  read_key h v (key_of_string k).

Definition get_prop (v : val) (k : string) : M heap val :=
  get_key v (key_of_string k).

(** [v[k] = x] *)
Definition set_prop (v : val) (k : string) (x : val) : M heap unit :=
  set_key v (key_of_string k) x.

(** [delete v[k]] *)
Definition delete_prop (v : val) (k : string) : M heap unit :=
  delete_key v (key_of_string k).

(** [v[i]] and [v[i] = x] for an integer [i] *)
Definition read_at (h : heap) (v : val) (i : Z) : res val :=
  read_key h v (key_of_Z i).

Definition get_at (v : val) (i : Z) : M heap val :=
  get_key v (key_of_Z i).

Definition set_at (v : val) (i : Z) (x : val) : M heap unit :=
  set_key v (key_of_Z i) x.

(** [v.push(x)]: only an array has the method, and an array cannot grow
    beyond 2^32 - 1 elements. *)
Definition push (v : val) (x : val) : M heap unit :=
  fun h =>
    match v with
    | VRef l => match h !! l with
                | Some (Obj (Some es) ps) =>
                    if (N.of_nat (length es) <? 4294967295)%N
                    then (Ok tt, <[l := Obj (Some (es ++ [Some x])) ps]> h)
                    else (Throw RuntimeError, h)
                | _ => (Throw RuntimeError, h)
                end
    | _ => (Throw RuntimeError, h)
    end.

(** [Object.keys(v)], as a function of the heap *)
Definition read_keys (h : heap) (v : val) : res (list string) :=
  match v with
  | VUndef | VNull => Throw RuntimeError
  | VBool _ | VNum _ => Ok []
  | VStr s => Ok (index_keys_from 0 (string_chars s))
  | VRef l => match h !! l with
              | Some o => Ok (obj_keys o)
              | None => Throw RuntimeError
              end
  end.

Definition own_keys (v : val) : M heap (list string) :=
  fun h => (read_keys h v, h).

(** The entries copied by an object spread [{...v}]. *)
Definition spread_entries (v : val) : M heap (Rec val) :=
  match v with
  | VUndef | VNull => ret []
  | _ =>
      let* ks := own_keys v in
      forM (fun k => let* x := get_prop v k in ret (k, x)) ks
  end.

(** [{...v}] *)
Definition spread (v : val) : M heap val :=
  let* es := spread_entries v in
  alloc (Obj None (fold_left (fun r kv => rec_set (fst kv) (snd kv) r) es [])).

(* ================================================================= *)
(** ** formHelp/core.ts *)

(* ----------------------------------------------------------------- *)
(** *** [jsonClone = JSON.parse(JSON.stringify(obj))] *)

Inductive json :=
| JNull
| JBool (b : bool)
| JNum (n : Z)
| JStr (s : string)
| JArr (items : list json)
| JObj (members : Rec json).

(** [JSON.stringify].  [None]: the structure is circular (the engine throws);
    [Some None]: the result is [undefined].  A walk deeper than the number
    of cells of the heap has met a cell twice, so the fuel given by
    [jsonClone] runs out exactly on circular structures.  Members whose
    value is [undefined] are skipped, holes and [undefined] elements of an
    array become [null], and named properties of an array are dropped. *)
Fixpoint stringify (fuel : nat) (h : heap) (v : val) : option (option json) :=
  match fuel with
  | O => None
  | S f =>
      match v with
      | VUndef => Some None
      | VNull => Some (Some JNull)
      | VBool b => Some (Some (JBool b))
      | VNum n => Some (Some (JNum n))
      | VStr s => Some (Some (JStr s))
      | VRef l =>
          match h !! l with
          | None => None
          | Some o =>
              match elems o with
              | Some es =>
                  option_map (fun ts => Some (JArr ts))
                    (mapM (fun e => match e with
                                    | Some x => option_map (default JNull) (stringify f h x)
                                    | None => Some JNull
                                    end) es)
              | None =>
                  option_map (fun ms => Some (JObj (omap id ms)))
                    (mapM (fun kv => option_map (option_map (pair (fst kv)))
                                                (stringify f h (snd kv)))
                          (rec_entries (props o)))
              end
          end
      end
  end.

(** [JSON.parse] of the text of a tree: every array and object is a new
    cell; members are defined in text order. *)
Fixpoint alloc_json (t : json) : M heap val :=
  match t with
  | JNull => ret VNull
  | JBool b => ret (VBool b)
  | JNum n => ret (VNum n)
  | JStr s => ret (VStr s)
  | JArr ts =>
      let* vs := forM alloc_json ts in
      alloc (Obj (Some (map Some vs)) [])
  | JObj ms =>
      let* es := forM (fun kv => let* v := alloc_json (snd kv) in ret (fst kv, v)) ms in
      alloc (Obj None (fold_left (fun r kv => rec_set (fst kv) (snd kv) r) es []))
  end.

Definition jsonClone (v : val) : M heap val :=
  fun h =>
    match stringify (S (List.length h)) h v with
    | Some (Some t) => alloc_json t h
    | _ => (Throw RuntimeError, h)
    end.

(* ----------------------------------------------------------------- *)
(** *** [parsePathComponent] *)

Record PathComponent := {
  pc_name : string;
  pc_isArray : bool;          (* [isArray?: boolean], absent is [false] *)
  pc_index : option Z;
  pc_key : option string
}.

Definition parsePathComponent (component : string) : PathComponent :=
  let parts := js_split "[" component in
  let name := hd "" parts in
  let restIndex := parts !! 1%nat in
  let ret := {| pc_name := name; pc_isArray := false; pc_index := None; pc_key := None |} in
  match restIndex with
  | Some restIndex =>
      if nonempty restIndex then
        let rawIndex := hd "" (js_split "]" restIndex) in
        let index := parseInt rawIndex in
        if nonempty rawIndex then
          match index with
          | None =>
              {| pc_name := name; pc_isArray := false; pc_index := None; pc_key := Some rawIndex |}
          | Some i =>
              {| pc_name := name; pc_isArray := true; pc_index := Some i; pc_key := None |}
          end
        else {| pc_name := name; pc_isArray := true; pc_index := None; pc_key := None |}
      else ret
  | None => ret
  end.

(* ----------------------------------------------------------------- *)
(** *** [getDataByPath] *)

(** The body of the loop for one component that is neither [''] nor ['.'],
    in its two halves.  First [target]: the node named by the component,
    created when it is missing.  [ptr[name]] is read as an own property:
    the walk is modelled for names and keys that the node does not inherit
    ([inherits], below). *)
Definition component_target (path component : string) (pc : PathComponent) (ptr : val)
    : M heap val :=
  let name := pc_name pc in
  if nonempty name then
    let* cur := get_prop ptr name in
    if negb (truthy cur) then
      if pc_isArray pc then
        let* cur' := get_prop ptr name in
        if negb (truthy cur') then
          let* a := alloc empty_array in
          let* _ := set_prop ptr name a in
          get_prop ptr name
        else ret ptr
      else
        let* o := alloc empty_object in
        let* _ := set_prop ptr name o in
        get_prop ptr name
    else get_prop ptr name
  else if pc_isArray pc then throw (UnnamedArray component path)
  else ret ptr.

(** Then the next [ptr]: an element of [target], a keyed member of it, or
    [target] itself. *)
Definition component_descend (pc : PathComponent) (target : val) : M heap val :=
  if pc_isArray pc then
    match pc_index pc with
    | Some i =>
        (* target[index] = target[index] ?? {}; ptr = target[index] *)
        let* cur := get_at target i in
        let* v := (if nullish cur then alloc empty_object else ret cur) in
        let* _ := set_at target i v in
        get_at target i
    | None =>
        (* target.push({}); ptr = target[target.length - 1] *)
        let* o := alloc empty_object in
        let* _ := push target o in
        let* len := get_prop target "length" in
        match len with
        | VNum n => get_at target (n - 1)
        | _ => throw RuntimeError
        end
    end
  else
    match pc_key pc with
    | Some k =>
        let* cur := get_prop target k in
        let* _ := (if negb (truthy cur)
                   then let* o := alloc empty_object in set_prop target k o
                   else ret tt) in
        get_prop target k
    | None => ret target
    end.

Definition resolve_component (path component : string) (ptr : val) : M heap val :=
  let pc := parsePathComponent component in
  let* target := component_target path component pc ptr in
  component_descend pc target.

(** [for (const component of path.split('/'))] with its [break] on an empty
    component and its [continue] on ['.']. *)
Fixpoint resolve_loop (path : string) (components : list string) (ptr : val) : M heap val :=
  match components with
  | [] => ret ptr
  | component :: rest =>
      if String.eqb component "" then ret ptr
      else if String.eqb component "." then resolve_loop path rest ptr
      else let* ptr' := resolve_component path component ptr in
           resolve_loop path rest ptr'
  end.

(** A state that holds the heap. *)
Class HasHeap (S : Type) := {
  the_heap : S -> heap;
  with_heap : heap -> S -> S
}.

#[export] Instance heap_has_heap : HasHeap heap :=
  {| the_heap := fun h => h; with_heap := fun h _ => h |}.

Definition liftH {S} `{HasHeap S} {A} (m : M heap A) : M S A :=
  zoom the_heap with_heap m.

(** [getDataByPath(data, path, insertFn?)]; the callback runs in the state
    of its caller. *)
Definition getDataByPath {S} `{HasHeap S} (data : val) (path : string)
    (insertFn : option (val -> M S unit)) : M S val :=
  let* ptr := liftH (resolve_loop path (js_split "/" path) data) in
  let* _ := match insertFn with
            | Some f => f ptr
            | None => ret tt
            end in
  ret ptr.

(* ----------------------------------------------------------------- *)
(** *** [joinScopes] *)

Definition joinScopes (partial : list (option string)) : string :=
  js_join "/" (omap (fun s => match s with
                           | Some x => if nonempty x && negb (String.eqb x ".")
                                       then Some x else None
                           | None => None
                           end) partial).

(* ----------------------------------------------------------------- *)
(** *** [computeArrayDiff], [mergeArrays], [computeDiff] *)

Definition DiffEntry : Type := val * val.

Record DiffResults := { hasDiff : bool; diffs : Rec DiffEntry }.

Definition no_diff : DiffResults := {| hasDiff := false; diffs := [] |}.

(** The differs only read the documents.  [computeArrayDiff] and
    [computeDiff] call each other; the array differ takes the object differ
    it calls as [cd]. *)
Section ArrayDiff.
Variable cd : val -> val -> res DiffResults.
Variable h : heap.

(** The body of [for (let i = 0; i < max; i++)]; the state is
    [(mydiff.diffs, errs)]. *)
Definition array_diff_step (oval nval : val) (acc : Rec DiffEntry * nat) (i : nat)
    : res (Rec DiffEntry * nat) :=
  let k := string_of_N (N.of_nat i) in
  let+ oi := read_at h oval (Z.of_nat i) in
  let+ ni := read_at h nval (Z.of_nat i) in
  if truthy oi && typeof_object oi && truthy ni && typeof_object ni then
    let+ _diff := cd oi ni in
    if hasDiff _diff
    then Ok (rec_set ("[" +:+ k +:+ "]") (oi, ni) (fst acc), S (snd acc))
    else Ok acc
  else if negb (strict_eq oi ni)
    then Ok (rec_set ("[" +:+ k +:+ "]") (oi, ni) (fst acc), S (snd acc))
    else Ok acc.

Definition computeArrayDiff_with (oval nval : val) : res DiffResults :=
  let+ olen := read_prop h oval "length" in
  let+ nlen := read_prop h nval "length" in
  match olen, nlen with
  | VNum ol, VNum nl =>
      let max := if (ol >? nl)%Z then ol else nl in
      let+ r := rfold (array_diff_step oval nval) (seq 0 (Z.to_nat max)) ([], 0%nat) in
      Ok {| hasDiff := negb (Nat.eqb (snd r) 0); diffs := fst r |}
  | _, _ => Throw RuntimeError
  end.
End ArrayDiff.

Definition mergeArrays (arr1 arr2 : list string) : list string :=
  let examined := fold_left (fun ex ele => rec_mark ele ex) arr1 [] in
  let examined := fold_left (fun ex ele => rec_mark ele ex) arr2 examined in
  rec_keys examined.

(** [computeDiff(oval, nval, curpath = '', diff?)].  The accumulator
    [curdiff] is mutated in place by the source and is threaded here.  The
    recursion follows both documents; on running out of fuel the call stack
    of the engine is exhausted, see [computeDiff]. *)
Fixpoint computeDiff_rec (fuel : nat) (h : heap) (oval nval : val) (curpath : string)
    (diff : option DiffResults) : res DiffResults :=
  match fuel with
  | O => Throw RuntimeError
  | S f =>
      let prefix := if nonempty curpath then curpath +:+ "/" else "" in
      let curdiff := default no_diff diff in
      if strict_eq oval VNull && strict_eq nval VNull then Ok curdiff
      else if strict_eq oval VNull || strict_eq nval VNull then
        Ok {| hasDiff := hasDiff curdiff;
              diffs := rec_set curpath (oval, nval) (diffs curdiff) |}
      else
        let+ okeys := read_keys h oval in
        let+ nkeys := read_keys h nval in
        rfold (fun curdiff okey =>
                 let+ ov := read_prop h oval okey in
                 let+ nv := read_prop h nval okey in
                 if is_array h ov && is_array h nv then
                   let+ arrdiff :=
                     computeArrayDiff_with
                       (fun o n => computeDiff_rec f h o n "" None) h ov nv in
                   if hasDiff arrdiff then
                     Ok {| hasDiff := true;
                           diffs := fold_left
                                      (fun ds ie => rec_set (prefix +:+ okey +:+ fst ie) (snd ie) ds)
                                      (rec_entries (diffs arrdiff)) (diffs curdiff) |}
                   else Ok curdiff
                 else if typeof_object ov && typeof_object nv then
                   computeDiff_rec f h ov nv (prefix +:+ okey) (Some curdiff)
                 else if negb (strict_eq ov nv) then
                   Ok {| hasDiff := true;
                         diffs := rec_set (prefix +:+ okey) (ov, nv) (diffs curdiff) |}
                 else Ok curdiff)
              (mergeArrays okeys nkeys) curdiff
  end.

(** Every recursive call is on a pair of cells, one of each document, so a
    call stack deeper than the number of such pairs repeats one and never
    returns: the fuel below runs out only where the engine overflows. *)
Definition diff_fuel (h : heap) : nat := S (List.length h * List.length h).

Definition computeDiff (h : heap) (oval nval : val) (curpath : string)
    (diff : option DiffResults) : res DiffResults :=
  computeDiff_rec (diff_fuel h) h oval nval curpath diff.

Definition computeArrayDiff (h : heap) (oval nval : val) : res DiffResults :=
  computeArrayDiff_with (fun o n => computeDiff h o n "" None) h oval nval.

(* ================================================================= *)
(** ** utils: [sortString], [makeEventBus] *)

Definition sortString (a b : option string) : Z :=
  match a, b with
  | None, None => 0
  | None, Some _ => -1
  | Some _, None => 1
  | Some x, Some y =>
      if String.eqb x y then 0
      else if String.ltb x y then -1
      else if String.ltb y x then 1
      else 0
  end.

(** A listener is known by its identity. *)
Definition handler := nat.

(** What an observer of a bus sees: an emission, and each invocation
    [fn(name, ...args)] of a listener. *)
Inductive bus_event (P : Type) :=
| Emitted (name : string) (args : P)
| Called (fn : handler) (name : string) (args : P).
Arguments Emitted {P} name args.
Arguments Called {P} fn name args.

(** [handlerMap], a plain object.  Under a name that it inherits
    ([inherited]) it holds a member that is not an array: [addListener]
    throws at [push] and [emit] at [forEach].  The bus is modelled for the
    other names. *)
Definition EventBus := Rec (list handler).

Definition makeEventBus : EventBus := [].

Definition addListener (name : string) (listener : handler) (bus : EventBus) : EventBus :=
  rec_set name (default [] (rec_get name bus) ++ [listener]) bus.

(** The function returned by [addListener]. *)
Definition removeListener (name : string) (listener : handler) (bus : EventBus) : EventBus :=
  rec_set name (List.filter (fun fn => negb (Nat.eqb fn listener))
                            (default [] (rec_get name bus))) bus.

(** The inner [emit(name, ...args)] of the bus. *)
Definition emit_to {P} (bus : EventBus) (name : string) (first : string) (args : P)
    : list (bus_event P) :=
  match rec_get name bus with
  | None => []
  | Some fns => map (fun fn => Called fn first args) fns
  end.

(** [bus.emit(name, ...args)] *)
Definition bus_emit {P} (bus : EventBus) (name : string) (args : P) : list (bus_event P) :=
  Emitted name args :: emit_to bus name name args ++ emit_to bus "*" name args.

(* ================================================================= *)
(** ** form/context.ts *)

(* ----------------------------------------------------------------- *)
(** *** [makeScopeCollector] *)

Definition is_line_terminator (c : ascii) : bool :=
  let n := N_of_ascii c in ((n =? 10) || (n =? 13))%N.

(** [/^.*\]$/]: any characters but line terminators, then a closing bracket
    at the end. *)
Fixpoint dots_then_bracket (s : string) : bool :=
  match s with
  | EmptyString => false
  | String c EmptyString => Ascii.eqb c "]"
  | String c r => negb (is_line_terminator c) && dots_then_bracket r
  end.

(** The text before the leftmost match of [/\[.*\]$/], if there is one. *)
Fixpoint before_bracket_suffix (s : string) : option string :=
  match s with
  | EmptyString => None
  | String c r =>
      if Ascii.eqb c "[" && dots_then_bracket r then Some EmptyString
      else option_map (String c) (before_bracket_suffix r)
  end.

Definition nonroot (s : string) : bool := nonempty s && negb (String.eqb s ".").

(** The [while (parts.length > 0)] loop of [addScope]; each round pops one
    part, so [length parts] rounds are all there are. *)
Fixpoint addScope_loop (rounds : nat) (name : option string) (parts : list string)
    (path : string) (qScopes : Rec bool) : string * Rec bool :=
  match rounds with
  | O => (path, qScopes)
  | S rounds' =>
      match parts with
      | [] => (path, qScopes)
      | _ =>
          let s := js_join "/" parts in
          let qScopes := rec_mark s qScopes in
          let parts := removelast parts in
          if negb (nonempty path) then
            let path := s in
            let qScopes :=
              if nonempty (default "" name)
              then rec_mark (js_join "/" parts +:+ "/*") qScopes
              else qScopes in
            addScope_loop rounds' name parts path qScopes
          else
            match before_bracket_suffix s with
            | Some pre => addScope_loop rounds' name parts path (rec_mark (pre +:+ "/*") qScopes)
            | None => addScope_loop rounds' name parts path qScopes
            end
      end
  end.

(** [addScope(scope, name?)]: the returned path and the new [qScopes]. *)
Definition addScope (scope : string) (name : option string) (qScopes : Rec bool)
    : string * Rec bool :=
  let parts := List.filter nonroot (js_split "/" (joinScopes [Some scope; name])) in
  addScope_loop (List.length parts) name parts "" qScopes.

Definition scope_order (a b : string) : Z :=
  if (String.length a <? String.length b)%nat then 1
  else if (String.length b <? String.length a)%nat then -1
  else sortString (Some a) (Some b).

Definition getScopes (qScopes : Rec bool) : list string :=
  js_sort scope_order (rec_keys qScopes).

(* ----------------------------------------------------------------- *)
(** *** The state of a closure-built object

    [makeFHContext] and [ActionStoreImpl] keep their mutable fields in
    closures or in [this]; a [world] is the heap, those fields, and the
    trace of what the buses did. *)

Record world (X E : Type) := World {
  w_heap : heap;
  w_self : X;
  w_trace : list E
}.
Arguments World {X E} w_heap w_self w_trace.
Arguments w_heap {X E} w.
Arguments w_self {X E} w.
Arguments w_trace {X E} w.

#[export] Instance world_has_heap {X E} : HasHeap (world X E) :=
  {| the_heap := w_heap;
     with_heap := fun h w => World h (w_self w) (w_trace w) |}.

Definition self {X E} : M (world X E) X := fun w => (Ok (w_self w), w).

Definition set_self {X E} (f : X -> X) : M (world X E) unit :=
  fun w => (Ok tt, World (w_heap w) (f (w_self w)) (w_trace w)).

Definition trace {X E} (es : list E) : M (world X E) unit :=
  fun w => (Ok tt, World (w_heap w) (w_self w) (w_trace w ++ es)).

(** A read-only function of the heap, inside a computation. *)
Definition readH {S} `{HasHeap S} {A} (f : heap -> res A) : M S A :=
  fun s => (f (the_heap s), s).

(* ----------------------------------------------------------------- *)
(** *** [makeFHContext] *)

Inductive bus_id := Events | ScopedUpdateBus | ScopedBlurBus.

(** The arguments the context passes to [emit]. *)
Inductive payload :=
| FieldUpdate (path scope name : string) (valDiff : DiffEntry)  (* [{ path, scope, name, valDiff }] *)
| ScopeUpdate (scope : string) (diff : DiffResults)             (* [{ scope, diff }] *)
| GlobalUpdate (diff : DiffResults) (clone : val)               (* [diff, clone] *)
| SetInitial (diff : DiffResults) (scope : string)              (* [{ diff, scope }] *)
| Reset (data : val).

Definition ctx_event : Type := bus_id * bus_event payload.

(** [data] is the constant captured at construction; [ref] is the object
    [{ data, initialData, changelog }] whose fields are reassigned. *)
Record FHContext := {
  fh_data : val;
  ref_data : val;
  ref_initialData : val;
  ref_changelog : list DiffResults;
  fh_events : EventBus;
  scopedUpdateBus : EventBus;
  scopedBlurBus : EventBus
}.

Abbreviation CM := (M (world FHContext ctx_event)).

Definition bus_of (b : bus_id) (c : FHContext) : EventBus :=
  match b with
  | Events => fh_events c
  | ScopedUpdateBus => scopedUpdateBus c
  | ScopedBlurBus => scopedBlurBus c
  end.

Definition emit (b : bus_id) (name : string) (args : payload) : CM unit :=
  let* c := self in
  trace (map (pair b) (bus_emit (bus_of b c) name args)).

(** [makeFHContext(p)] with [p.data] and [p.initialData] ([VUndef] when
    absent). *)
Definition makeFHContext (p_data p_initialData : val) : M heap FHContext :=
  let* d := (if nullish p_data then alloc empty_object else ret p_data) in
  let* data := jsonClone d in
  let* initialData := jsonClone (if nullish p_initialData then data else p_initialData) in
  ret {| fh_data := data;
         ref_data := data;
         ref_initialData := initialData;
         ref_changelog := [];
         fh_events := makeEventBus;
         scopedUpdateBus := makeEventBus;
         scopedBlurBus := makeEventBus |}.

(** The loop over [Object.entries(diff.diffs)] in [triggerUpdate]; the state
    of the loop is the [qScopes] of the collector. *)
Fixpoint emit_fields (entries : Rec DiffEntry) (qScopes : Rec bool) : CM (Rec bool) :=
  match entries with
  | [] => ret qScopes
  | (path, valDiff) :: rest =>
      let parts := js_split "/" path in
      let name := List.last parts "" in          (* parts.pop() *)
      let scope := js_join "/" (removelast parts) in
      let* _ := emit ScopedUpdateBus path (FieldUpdate path scope name valDiff) in
      emit_fields rest
        (if negb (String.eqb scope "") && negb (String.eqb scope ".")
         then snd (addScope scope None qScopes) else qScopes)
  end.

Definition triggerUpdate (diff : DiffResults) : CM unit :=
  if negb (hasDiff diff) then ret tt
  else
    let* c := self in
    let* clone := liftH (jsonClone (ref_data c)) in
    let* _ := set_self (fun c =>
      {| fh_data := fh_data c; ref_data := ref_data c;
         ref_initialData := ref_initialData c;
         ref_changelog := ref_changelog c ++ [diff];
         fh_events := fh_events c; scopedUpdateBus := scopedUpdateBus c;
         scopedBlurBus := scopedBlurBus c |}) in
    let* qScopes := emit_fields (rec_entries (diffs diff)) [] in
    let* _ := forEach (fun scope => emit ScopedUpdateBus scope (ScopeUpdate scope diff))
                      (getScopes qScopes) in
    emit ScopedUpdateBus "*" (GlobalUpdate diff clone).

(** [bindToUpdatedScope(handler, scope = '.', name?)]; binding to the root
    registers nothing. *)
Definition bindToUpdatedScope (fn : handler) (scope : option string) (name : option string)
    : CM unit :=
  let scope := default "." scope in
  if nonempty scope && negb (String.eqb scope ".") then
    set_self (fun c =>
      {| fh_data := fh_data c; ref_data := ref_data c;
         ref_initialData := ref_initialData c; ref_changelog := ref_changelog c;
         fh_events := fh_events c;
         scopedUpdateBus :=
           addListener (if nonempty (default "" name)
                        then scope +:+ "/" +:+ default "" name else scope)
                       fn (scopedUpdateBus c);
         scopedBlurBus := scopedBlurBus c |})
  else ret tt.

(** [events.addListener(name, fn)] on the context's public bus. *)
Definition events_addListener (name : string) (fn : handler) : CM unit :=
  set_self (fun c =>
    {| fh_data := fh_data c; ref_data := ref_data c;
       ref_initialData := ref_initialData c; ref_changelog := ref_changelog c;
       fh_events := addListener name fn (fh_events c);
       scopedUpdateBus := scopedUpdateBus c;
       scopedBlurBus := scopedBlurBus c |}).

(** [update], exported as [setControlValue(name, val, scope = '.')] *)
Definition setControlValue (name : string) (v : val) (scope : option string) : CM unit :=
  let scope := default "." scope in
  let* c := self in
  let* odata := liftH (jsonClone (ref_data c)) in
  let* _ := getDataByPath (ref_data c) scope
              (Some (fun ptr => liftH (set_prop ptr name v))) in
  let* diff := readH (fun h => computeDiff h odata (ref_data c) scope None) in
  triggerUpdate diff.

Record UpdateArgs := {
  u_scope : string;
  u_name : string;
  u_value : val;              (* [VUndef] when absent *)
  u_isArray : bool;
  u_isArrRemove : bool
}.

(** [arr.filter(keep)]: only an array has the method; holes are skipped. *)
Definition array_filter (keep : val -> bool) (arr : val) : M heap val :=
  fun h =>
    match arr with
    | VRef l => match h !! l with
                | Some (Obj (Some es) _) =>
                    alloc (Obj (Some (map Some (List.filter keep (omap id es)))) []) h
                | _ => (Throw RuntimeError, h)
                end
    | _ => (Throw RuntimeError, h)
    end.

(** The callback of [updateControlValue] for a defined [value]. *)
Definition update_insert (a : UpdateArgs) (ptr : val) : M heap unit :=
  if u_isArray a then
    let* cur := get_prop ptr (u_name a) in
    let* _ := (if negb (truthy cur)
               then let* arr := alloc empty_array in set_prop ptr (u_name a) arr
               else ret tt) in
    if u_isArrRemove a then
      let* arr := get_prop ptr (u_name a) in
      let* kept := array_filter (fun v => negb (strict_eq v (u_value a))) arr in
      set_prop ptr (u_name a) kept
    else
      let* arr := get_prop ptr (u_name a) in
      push arr (u_value a)
  else set_prop ptr (u_name a) (u_value a).

(** [updateControlValue({ scope, name, value, isArray, isArrRemove })]: it
    works on the captured [data], not on [ref.data]. *)
Definition updateControlValue (a : UpdateArgs) : CM unit :=
  let* c := self in
  let data := fh_data c in
  let* odata := liftH (jsonClone data) in
  if strict_eq (u_value a) VUndef then
    let* _ := getDataByPath data (u_scope a)
                (Some (fun ptr => liftH (delete_prop ptr (u_name a)))) in
    let* diff := readH (fun h => computeDiff h odata data (u_scope a) None) in
    triggerUpdate diff
  else
    let* _ := getDataByPath data (u_scope a)
                (Some (fun ptr => liftH (update_insert a ptr))) in
    let* diff := readH (fun h => computeDiff h odata data "" None) in
    triggerUpdate diff.

(** [getData: () => ({ ...ref.data })] *)
Definition getData : CM val :=
  let* c := self in liftH (spread (ref_data c)).

(** [getInitial: () => ({ ...ref.initialData })] *)
Definition getInitial : CM val :=
  let* c := self in liftH (spread (ref_initialData c)).

Definition getScopedData (scope : string) : CM val :=
  let* c := self in getDataByPath (ref_data c) scope None.

(** [Object.assign(target, source)], for a source without an own property
    ['__proto__']: assigning that key would set the prototype of the
    target, which is not modelled. *)
Definition object_assign (target source : val) : M heap unit :=
  match target with
  | VUndef | VNull => throw RuntimeError
  | _ =>
      let* es := spread_entries source in
      forEach (fun kv => set_prop target (fst kv) (snd kv)) es
  end.

(** [setData(newData, scope = '.')] *)
Definition setData (newData : val) (scope : option string) : CM unit :=
  let scope := default "." scope in
  let* c := self in
  let* _ := getDataByPath (ref_data c) scope
    (Some (fun ptr =>
       let* optr := liftH (jsonClone ptr) in
       let* _ := liftH (object_assign ptr newData) in
       let* diff := readH (fun h => computeDiff h optr ptr scope None) in
       triggerUpdate diff)) in
  ret tt.

(** [setInitial(newData, scope = '.')] *)
Definition setInitial (newData : val) (scope : option string) : CM unit :=
  let scope := default "." scope in
  let* c := self in
  let* _ := getDataByPath (ref_initialData c) scope
    (Some (fun ptr =>
       let* optr := liftH (jsonClone ptr) in
       let* diff := readH (fun h => computeDiff h optr ptr scope None) in
       emit Events "set-initial" (SetInitial diff scope))) in
  ret tt.

(** [reset()] *)
Definition reset : CM unit :=
  let* c := self in
  let* d := liftH (jsonClone (ref_initialData c)) in
  let* _ := set_self (fun c =>
    {| fh_data := fh_data c; ref_data := d;
       ref_initialData := ref_initialData c; ref_changelog := ref_changelog c;
       fh_events := fh_events c; scopedUpdateBus := scopedUpdateBus c;
       scopedBlurBus := scopedBlurBus c |}) in
  let* copy := liftH (jsonClone d) in
  emit Events "reset" (Reset copy).

(** [resetControl(name, scope = '.')]: the field is restored on [ref.data];
    the diff is taken against the captured [data]. *)
Definition resetControl (name : string) (scope : option string) : CM unit :=
  let scope := default "." scope in
  let* c := self in
  let* _ := getDataByPath (ref_data c) scope
    (Some (fun ptr =>
       let* odata := liftH (jsonClone (ref_data c)) in
       let* init := getDataByPath (ref_initialData c) scope None in
       let* v := liftH (get_prop init name) in
       let* _ := liftH (set_prop ptr name v) in
       let* diff := readH (fun h => computeDiff h odata (fh_data c) "" None) in
       triggerUpdate diff)) in
  ret tt.

(* ================================================================= *)
(** ** action-store/core.ts *)

(** [Action<StandardOpsActionMeta>]: the [type] and the optional fields of
    a standard-ops action.  [customOp] is closed over its action. *)
Record Action := {
  a_type : string;
  a_path : option string;
  a_customOp : option (val -> M heap val);
  a_remove : option (list string);
  a_append : option (Rec val);
  a_set : option (Rec val);
  a_increment : option (Rec Z)
}.

Definition plain_action (type : string) : Action :=
  {| a_type := type; a_path := None; a_customOp := None; a_remove := None;
     a_append := None; a_set := None; a_increment := None |}.

(** A reducer returns the next state, or [undefined] for no change. *)
Definition StateReducer : Type := Action -> val -> M heap val.

(** Local variables of a function, next to the heap. *)
#[export] Instance locals_has_heap {L} : HasHeap (heap * L) :=
  {| the_heap := fst; with_heap := fun h s => (h, snd s) |}.

Definition with_locals {L A} (init : L) (m : M (heap * L) A) : M heap (A * L) :=
  fun h => match m (h, init) with
           | (Ok a, (h', l)) => (Ok (a, l), h')
           | (Throw e, (h', _)) => (Throw e, h')
           end.

Definition set_locals {L} (f : L -> L) : M (heap * L) unit :=
  fun s => (Ok tt, (fst s, f (snd s))).

(** A new array of strings. *)
Definition alloc_strings (l : list string) : M heap val :=
  alloc (Obj (Some (map (fun s => Some (VStr s)) l)) []).

Definition table_of (es : Rec val) : Rec val :=
  fold_left (fun r kv => rec_set (fst kv) (snd kv) r) es [].

Definition lookup_val (k : string) (r : Rec val) : val := default VUndef (rec_get k r).

(** The locals [(newKeys, __innerEvents)] written by the callbacks. *)
Definition ops_locals : Type := Rec bool * list string.

Definition note_key (path key : string) : M (heap * ops_locals) unit :=
  set_locals (fun l => (rec_set key true (fst l),
                        snd l ++ ["std-ops:change:" +:+ path +:+ ":" +:+ key])).

(** The locals [(curVals, newKeys, changed)] of the four operation loops. *)
Definition ops_state : Type := Rec val * Rec bool * nat.

Definition op_remove (s : ops_state) (key : string) : ops_state :=
  let '(curVals, newKeys, changed) := s in
  if negb (strict_eq (lookup_val key curVals) VUndef)
  then (rec_set key VUndef curVals, rec_set key true newKeys, S changed)
  else s.

Definition op_append (append : Rec val) (s : ops_state) (key : string) : ops_state :=
  let '(curVals, newKeys, changed) := s in
  if strict_eq (lookup_val key curVals) VUndef
  then (rec_set key (lookup_val key append) curVals, rec_set key true newKeys, S changed)
  else s.

Definition op_set (set : Rec val) (s : ops_state) (key : string) : ops_state :=
  let '(curVals, newKeys, changed) := s in
  (rec_set key (lookup_val key set) curVals, rec_set key true newKeys, S changed).

Definition op_increment (increment : Rec Z) (s : ops_state) (key : string) : ops_state :=
  let '(curVals, newKeys, changed) := s in
  match lookup_val key curVals with
  | VNum n => (rec_set key (VNum (n + default 0%Z (rec_get key increment))) curVals,
               newKeys, S changed)
  | _ => s
  end.

Definition standardOpsReducer : StateReducer := fun action state =>
  if negb (String.eqb (a_type action) "std-ops") then ret VUndef
  else
    let path := default "." (a_path action) in
    let* sub := getDataByPath state path None in
    let* entries := spread_entries sub in
    let curVals := table_of entries in
    match a_customOp action with
    | Some customOp =>
        let* nstate := spread state in
        let* r := with_locals (([], []) : ops_locals)
          (getDataByPath nstate path (Some (fun ptr =>
             let* sg := liftH (customOp ptr) in
             let* subgraph := (if nullish sg then liftH (alloc empty_object) else ret sg) in
             if negb (truthy subgraph) then ret tt
             else
               let* keys := liftH (own_keys subgraph) in
               forEach (fun key =>
                          let* v := liftH (get_prop subgraph key) in
                          let* _ := (if strict_eq v VUndef
                                     then liftH (delete_prop ptr key)
                                     else liftH (set_prop ptr key v)) in
                          note_key path key) keys))) in
        let '(newKeys, innerEvents) := snd r in
        if Nat.eqb (List.length innerEvents) 0 then ret VUndef
        else
          let* ie := alloc_strings (innerEvents ++ ["std-ops:change:" +:+ path; "std-ops:change"]) in
          let* _ := set_prop nstate "__innerEvents" ie in
          let* ck := alloc_strings (rec_keys newKeys) in
          let* _ := set_prop nstate "__changedKeys" ck in
          ret nstate
    | None =>
        let s0 : ops_state := (curVals, [], 0%nat) in
        let s1 := match a_remove action with
                  | Some remove => fold_left op_remove remove s0
                  | None => s0
                  end in
        let s2 := match a_append action with
                  | Some append => fold_left (op_append append) (rec_keys append) s1
                  | None => s1
                  end in
        let s3 := match a_set action with
                  | Some set => fold_left (op_set set) (rec_keys set) s2
                  | None => s2
                  end in
        let s4 := match a_increment action with
                  | Some increment => fold_left (op_increment increment) (rec_keys increment) s3
                  | None => s3
                  end in
        let '(curVals, newKeys, changed) := s4 in
        if Nat.eqb changed 0 then ret VUndef
        else
          let* nstate := spread state in
          let* r := with_locals ((newKeys, []) : ops_locals)
            (getDataByPath nstate path (Some (fun ptr =>
               forEach (fun key =>
                          let* _ := (if strict_eq (lookup_val key curVals) VUndef
                                     then liftH (delete_prop ptr key)
                                     else liftH (set_prop ptr key (lookup_val key curVals))) in
                          note_key path key) (rec_keys newKeys)))) in
          let innerEvents := snd (snd r) ++ ["std-ops:change:" +:+ path; "std-ops:change"] in
          let* es := spread_entries nstate in
          let* ie := alloc_strings innerEvents in
          let* ck := alloc_strings (rec_keys newKeys) in
          alloc (Obj None (table_of (es ++ [("__innerEvents", ie); ("__changedKeys", ck)])))
    end.

(* ----------------------------------------------------------------- *)
(** *** [ActionStoreImpl] *)

Record ActionStoreImpl := {
  st_events : EventBus;
  st_state : val;
  st_reducers : list StateReducer
}.

(** The payload of the store's events: [{ action, state, meta }] with
    [meta = { innerEvents, changedKeys }], and [{ state }]. *)
Inductive store_payload :=
| ActionEvent (action : Action) (state : val) (innerEvents changedKeys : val)
| StateResetEvent (state : val).

Abbreviation SM := (M (world ActionStoreImpl (bus_event store_payload))).

Definition store_emit (name : string) (args : store_payload) : SM unit :=
  let* st := self in trace (bus_emit (st_events st) name args).

Definition set_state (v : val) : SM unit :=
  set_self (fun st => {| st_events := st_events st; st_state := v;
                         st_reducers := st_reducers st |}).

(** [new ActionStoreImpl(state, { reducers })] *)
Definition newActionStore (state : val) (reducers : list StateReducer)
    : M heap ActionStoreImpl :=
  let* s := jsonClone state in
  ret {| st_events := makeEventBus; st_state := s; st_reducers := reducers |}.

Fixpoint applyReducers (reducers : list StateReducer) (action : Action) (nstate : val)
    : M heap val :=
  match reducers with
  | [] => ret nstate
  | reducer :: rest =>
      let* ts := reducer action nstate in
      applyReducers rest action (if truthy ts then ts else nstate)
  end.

(** [resetState(state)] *)
Definition resetState (state : val) : SM val :=
  let* st := self in
  let* s := liftH (applyReducers (st_reducers st) (plain_action "state-reset") (st_state st)) in
  let* _ := set_state s in
  let* _ := store_emit "state-reset" (StateResetEvent s) in
  ret s.

(** [updateState(p)]: the reducers run on [{ ...this.state, ...p }]. *)
Definition updateState (p : val) : SM val :=
  let* st := self in
  let* merged := liftH (let* es := spread_entries (st_state st) in
                        let* ps := spread_entries p in
                        alloc (Obj None (table_of (es ++ ps)))) in
  let* s := liftH (applyReducers (st_reducers st) (plain_action "state-reset") merged) in
  let* _ := set_state s in
  let* _ := store_emit "state-reset" (StateResetEvent s) in
  ret s.

(** [getState()] *)
Definition getState : SM val :=
  let* st := self in liftH (spread (st_state st)).

Definition listenFor (event : string) (fn : handler) : SM unit :=
  set_self (fun st => {| st_events := addListener event fn (st_events st);
                         st_state := st_state st; st_reducers := st_reducers st |}).

(** The [while (levels.length > 0)] loop of [cascadeEmit]. *)
Fixpoint cascade_loop (rounds : nat) (levels : list string) (args : store_payload) : SM unit :=
  match rounds with
  | O => ret tt
  | S rounds' =>
      match levels with
      | [] => ret tt
      | _ =>
          let evt := js_join ":" levels in
          let* _ := store_emit evt args in
          cascade_loop rounds' (removelast levels) args
      end
  end.

Definition cascadeEmit (event : string) (args : store_payload) : SM unit :=
  let levels := js_split ":" event in
  cascade_loop (List.length levels) levels args.

(** The elements visited by [arr.forEach]. *)
Definition array_items (arr : val) : M heap (list val) :=
  fun h =>
    match arr with
    | VRef l => match h !! l with
                | Some (Obj (Some es) _) => (Ok (omap id es), h)
                | _ => (Throw RuntimeError, h)
                end
    | _ => (Throw RuntimeError, h)
    end.

(** The text of a primitive in a template or as a property key.
    [__innerEvents] is declared [string[]]; the text of an object is not
    modelled. *)
Definition text_of (v : val) : res string :=
  match v with
  | VUndef => Ok "undefined"
  | VNull => Ok "null"
  | VBool true => Ok "true"
  | VBool false => Ok "false"
  | VNum n => Ok (string_of_Z n)
  | VStr s => Ok s
  | VRef _ => Throw RuntimeError
  end.

(** [innerEvents.forEach(...)] with its [sent] table. *)
Fixpoint emit_inner (ievts : list val) (sent : Rec bool) (args : store_payload) : SM unit :=
  match ievts with
  | [] => ret tt
  | ievt :: rest =>
      let* t := readH (fun _ => text_of ievt) in
      if rec_marked t sent then emit_inner rest sent args
      else
        let* _ := store_emit ("action:" +:+ t) args in
        emit_inner rest (rec_mark t sent) args
  end.

(** [dispatch(action)] *)
Definition dispatch (action : Action) : SM unit :=
  let* st := self in
  let* ostate := liftH (jsonClone (st_state st)) in
  let* nstate := liftH (applyReducers (st_reducers st) action ostate) in
  if negb (strict_eq nstate ostate) then
    let* ie := liftH (get_prop nstate "__innerEvents") in
    let* innerEvents := (if nullish ie then liftH (alloc empty_array) else ret ie) in
    let* ck := liftH (get_prop nstate "__changedKeys") in
    let* changedKeys := (if nullish ck then liftH (alloc empty_array) else ret ck) in
    let* _ := liftH (delete_prop nstate "__innerEvents") in
    let* _ := liftH (delete_prop nstate "__changedKeys") in
    let args := ActionEvent action nstate innerEvents changedKeys in
    let* ievts := liftH (array_items innerEvents) in
    let* _ := emit_inner ievts [] args in
    let* _ := cascadeEmit ("action:" +:+ a_type action) args in
    let* copy := liftH (spread nstate) in
    set_state copy
  else ret tt.

(** [dispatchStdOps(action)]: [dispatch({ ...action, type: 'std-ops' })] *)
Definition dispatchStdOps (action : Action) : SM unit :=
  dispatch {| a_type := "std-ops"; a_path := a_path action;
              a_customOp := a_customOp action; a_remove := a_remove action;
              a_append := a_append action; a_set := a_set action;
              a_increment := a_increment action |}.

(* ================================================================= *)
(** ** Observations and scenarios *)

(** What [JSON.stringify] shows of a value. *)
Definition snapshot (h : heap) (v : val) : option (option json) :=
  stringify (S (List.length h)) h v.

(** The listeners invoked, in order, with the event name they were given. *)
Definition invocations {B P} (t : list (B * bus_event P)) : list (handler * string) :=
  omap (fun e => match snd e with
                 | Called fn name _ => Some (fn, name)
                 | Emitted _ _ => None
                 end) t.

(** The names emitted, in order. *)
Definition emissions {P} (t : list (bus_event P)) : list string :=
  omap (fun e => match e with
                 | Emitted name _ => Some name
                 | Called _ _ _ => None
                 end) t.

(** A context built by [makeFHContext({ data, initialData })] from
    documents given as JSON text, on an otherwise empty heap. *)
Definition boot_context (data : json) (initialData : option json)
    : res (world FHContext ctx_event) :=
  let m :=
    let* d := alloc_json data in
    let* i := match initialData with
              | Some t => alloc_json t
              | None => ret VUndef
              end in
    makeFHContext d i in
  match m [] with
  | (Ok c, h) => Ok (World h c [])
  | (Throw e, _) => Throw e
  end.

(** Run a script on a context. *)
Definition on_context {A} (w : res (world FHContext ctx_event)) (script : CM A)
    : res (world FHContext ctx_event) :=
  match w with
  | Ok w => match script w with
            | (Ok _, w') => Ok w'
            | (Throw e, _) => Throw e
            end
  | Throw e => Throw e
  end.

(** A store built by [new ActionStoreImpl(state, { reducers })]. *)
Definition boot_store (state : json) (reducers : list StateReducer)
    : res (world ActionStoreImpl (bus_event store_payload)) :=
  match (let* s := alloc_json state in newActionStore s reducers) [] with
  | (Ok st, h) => Ok (World h st [])
  | (Throw e, _) => Throw e
  end.

Definition on_store {A} (w : res (world ActionStoreImpl (bus_event store_payload)))
    (script : SM A) : res (world ActionStoreImpl (bus_event store_payload)) :=
  match w with
  | Ok w => match script w with
            | (Ok _, w') => Ok w'
            | (Throw e, _) => Throw e
            end
  | Throw e => Throw e
  end.

(** Observing a world through a function of it. *)
Definition observe {X E A} (w : res (world X E)) (f : world X E -> A) : option A :=
  match w with
  | Ok w => Some (f w)
  | Throw _ => None
  end.

(** The context of the update-order scenario: [data = {a:1, b:{c:2}}];
    listener 1 is bound to scope ['b'] and name ['c'], listener 2 to scope
    ['b'], listener 3 to the wildcard topic of the update bus, listeners 4
    and 5 to the wildcard and the ['updated'] topic of [events]. *)
Definition order_scenario : res (world FHContext ctx_event) :=
  on_context (boot_context (JObj [("a", JNum 1); ("b", JObj [("c", JNum 2)])]) None)
    (let* _ := bindToUpdatedScope 1 (Some "b") (Some "c") in
     let* _ := bindToUpdatedScope 2 (Some "b") None in
     let* _ := bindToUpdatedScope 3 (Some "*") None in
     let* _ := events_addListener "*" 4 in
     events_addListener "updated" 5).

(** The standard-ops actions of the store scenarios. *)
Definition append_action : Action :=
  {| a_type := "std-ops"; a_path := None; a_customOp := None; a_remove := None;
     a_append := Some [("a", VStr "new-a"); ("e", VStr "five")];
     a_set := None; a_increment := None |}.

Definition remove_missing_action : Action :=
  {| a_type := "std-ops"; a_path := None; a_customOp := None;
     a_remove := Some ["missingKey"];
     a_append := None; a_set := None; a_increment := None |}.

(* ----------------------------------------------------------------- *)
(** *** Orders and path shapes used in the statements *)

(** [a] may stand before [b] in the result of [getScopes]: [a] is longer, or
    they have the same length and [a] is not after [b] in code-unit order. *)
Definition scope_before (a b : string) : Prop :=
  String.length b < String.length a
  \/ (String.length a = String.length b /\ (a = b \/ String.ltb a b = true)).

(** A component with an empty name that is array-marked: [[]] or [[n]]. *)
Definition unnamed_array (component : string) : bool :=
  negb (nonempty (pc_name (parsePathComponent component)))
  && pc_isArray (parsePathComponent component).

(** The components the loop of [getDataByPath] reaches: those before the
    first empty one. *)
Fixpoint reached (components : list string) : list string :=
  match components with
  | [] => []
  | c :: rest => if String.eqb c "" then [] else c :: reached rest
  end.

(** Every reducer of the pipeline, run in turn on the copy [ostate], returns
    a falsy value (the no-change signal) or [ostate] itself. *)
Fixpoint pipeline_unchanged (reducers : list StateReducer) (action : Action)
    (ostate : val) (h : heap) : bool :=
  match reducers with
  | [] => true
  | reducer :: rest =>
      match reducer action ostate h with
      | (Ok ts, h') =>
          (negb (truthy ts) || strict_eq ts ostate)
          && pipeline_unchanged rest action ostate h'
      | (Throw _, _) => false
      end
  end.

(** A store holding [{a:'one'}] with the standard-ops reducer and a
    wildcard listener. *)
Definition one_key_store : world ActionStoreImpl (bus_event store_payload) :=
  World [Obj None [("a", VStr "one")]]
        {| st_events := [("*", [7])]; st_state := VRef 0;
           st_reducers := [standardOpsReducer] |}
        [].

(** An array cell ([true]) or a plain object ([false]). *)
Definition is_array_cell (o : obj) : bool :=
  match elems o with Some _ => true | None => false end.

(** The names that an array inherits from [Array.prototype], besides those
    of [Object.prototype]. *)
Definition array_member (k : string) : bool :=
  existsb (String.eqb k)
    ["at"; "concat"; "copyWithin"; "entries"; "every"; "fill"; "filter";
     "find"; "findIndex"; "findLast"; "findLastIndex"; "flat"; "flatMap";
     "forEach"; "includes"; "indexOf"; "join"; "keys"; "lastIndexOf"; "map";
     "pop"; "push"; "reduce"; "reduceRight"; "reverse"; "shift"; "slice";
     "some"; "sort"; "splice"; "toReversed"; "toSorted"; "toSpliced";
     "unshift"; "values"; "with"].

(** The object [v] of the heap inherits a member named [k]: reading [v[k]]
    then gives that member, which the cells of the heap do not hold. *)
Definition inherits (h : heap) (v : val) (k : string) : bool :=
  match v with
  | VRef l =>
      match h !! l with
      | Some o => inherited k || (is_array_cell o && array_member k)
      | None => false
      end
  | _ => false
  end.

(* ----------------------------------------------------------------- *)
(** *** Shape of the heap: values held, closedness, reachability *)

(** The values held by a cell. *)
Definition obj_vals (o : obj) : list val :=
  map snd (props o) ++ match elems o with
                       | Some es => omap id es
                       | None => []
                       end.

(** A value that, if it is a reference, is to one of the first [n] cells. *)
Definition closed_val (n : nat) (v : val) : bool :=
  match v with
  | VRef l => (l <? n)%nat
  | _ => true
  end.

(** Every reference held in the heap is to a cell of the heap. *)
Definition closed_heap (h : heap) : bool :=
  forallb (fun o => forallb (closed_val (List.length h)) (obj_vals o)) h.

(** The cell [l] is reachable from the value [v]. *)
Inductive reach (h : heap) : val -> loc -> Prop :=
| reach_here l : reach h (VRef l) l
| reach_step l o v l' :
    h !! l = Some o -> In v (obj_vals o) -> reach h v l' -> reach h (VRef l) l'.

(** A value that does not point to a cell of the set [K], and one that
    points into the block of cells [[a, b)] if it points at all. *)
Definition outside (K : loc -> Prop) (v : val) : Prop :=
  match v with
  | VRef l => ~ K l
  | _ => True
  end.

Definition inside (a b : nat) (v : val) : Prop :=
  match v with
  | VRef l => a <= l < b
  | _ => True
  end.

(** The cells of [K] are allocated and no cell outside [K] points into it. *)
Definition separated (K : loc -> Prop) (h : heap) : Prop :=
  (forall l, K l -> l < List.length h)
  /\ forall l o, h !! l = Some o -> ~ K l -> Forall (outside K) (obj_vals o).

(** The two heaps have the same cells in [K]. *)
Definition agree (K : loc -> Prop) (h h' : heap) : Prop :=
  forall l, K l -> h' !! l = h !! l.

(** Computations whose only errors are the engine's. *)
Definition engine_only {A} (m : M heap A) : Prop :=
  forall h c p, fst (m h) <> Throw (UnnamedArray c p).

(** A computation that writes to the cell [t] only, and leaves it the kind
    of cell it was. *)
Definition only_at {A} (t : loc) (m : M heap A) : Prop :=
  forall h,
    List.length h <= List.length (snd (m h))
    /\ (forall l, l < List.length h -> l <> t -> snd (m h) !! l = h !! l)
    /\ (forall o, h !! t = Some o ->
                  exists o', snd (m h) !! t = Some o' /\ is_array_cell o' = is_array_cell o).

(** A heap computation that keeps the cells of [K] separated and
    untouched, and whose result satisfies [R]; one that leaves the cells of
    [K] untouched; one that only allocates. *)
Definition safe {A} (K : loc -> Prop) (R : A -> Prop) (m : M heap A) : Prop :=
  forall h, separated K h ->
            separated K (snd (m h))
            /\ agree K h (snd (m h))
            /\ forall x, fst (m h) = Ok x -> R x.

Definition framed {A} (K : loc -> Prop) (m : M heap A) : Prop :=
  forall h, separated K h ->
            (forall l, K l -> l < List.length (snd (m h))) /\ agree K h (snd (m h)).

Definition extends {A} (m : M heap A) : Prop :=
  forall h, exists ext, snd (m h) = h ++ ext.

(** [P] holds of an element of an array, a hole holding nothing. *)
Definition holds (P : val -> Prop) (e : option val) : Prop :=
  match e with Some v => P v | None => True end.

(** The cells [ext] appended after [lo] cells hold no reference out of
    their own block. *)
Definition block_closed (lo : nat) (ext : heap) : Prop :=
  Forall (fun o => Forall (inside lo (lo + List.length ext)) (obj_vals o)) ext.

(** A computation that allocates a closed block and returns values in it. *)
Definition allocates {B} (pv : B -> val) (m : M heap B) : Prop :=
  forall h, exists x ext,
    m h = (Ok x, h ++ ext)
    /\ inside (List.length h) (List.length h + List.length ext) (pv x)
    /\ block_closed (List.length h) ext.

(** The same notions for the operations of a context whose live document is
    [d] and whose captured document is [dat]. *)
Definition refs (d dat : val) (w : world FHContext ctx_event) : Prop :=
  ref_data (w_self w) = d /\ fh_data (w_self w) = dat.

Definition wsafe {A} (K : loc -> Prop) (d dat : val) (R : A -> Prop) (m : CM A) : Prop :=
  forall w, separated K (w_heap w) -> refs d dat w ->
            separated K (w_heap (snd (m w)))
            /\ agree K (w_heap w) (w_heap (snd (m w)))
            /\ refs d dat (snd (m w))
            /\ forall x, fst (m w) = Ok x -> R x.

Definition wframed {A} (K : loc -> Prop) (d dat : val) (m : CM A) : Prop :=
  forall w, separated K (w_heap w) -> refs d dat w ->
            (forall l, K l -> l < List.length (w_heap (snd (m w))))
            /\ agree K (w_heap w) (w_heap (snd (m w)))
            /\ refs d dat (snd (m w)).

Definition wextends {A} (d dat : val) (m : CM A) : Prop :=
  forall w, refs d dat w ->
            (exists ext, w_heap (snd (m w)) = w_heap w ++ ext)
            /\ refs d dat (snd (m w)).

(** The value a script returns on a world, if it returns. *)
Definition result_of {X E A} (w : res (world X E)) (script : M (world X E) A) : option A :=
  match w with
  | Ok w => match fst (script w) with
            | Ok x => Some x
            | Throw _ => None
            end
  | Throw _ => None
  end.

(** The context that [makeFHContext({ data: {a:1}, initialData: {a:0} })]
    returns, with its two copies as the only cells. *)
Definition two_document_context : world FHContext ctx_event :=
  World [Obj None [("a", VNum 1)]; Obj None [("a", VNum 0)]]
        {| fh_data := VRef 0; ref_data := VRef 0; ref_initialData := VRef 1;
           ref_changelog := []; fh_events := makeEventBus;
           scopedUpdateBus := makeEventBus; scopedBlurBus := makeEventBus |}
        [].

(** What [JSON.stringify(getData())] shows at this point of a script. *)
Definition getData_snapshot : CM (option (option json)) :=
  let* d := getData in readH (fun h => Ok (snapshot h d)).

(* ================================================================= *)
(** ** Further functions of the sources *)

(** A string without the character [c]. *)
Fixpoint lacks (c : ascii) (s : string) : bool :=
  match s with
  | EmptyString => true
  | String x r => negb (Ascii.eqb x c) && lacks c r
  end.

(* ----------------------------------------------------------------- *)
(** *** form/context.ts: [getChangelog], [clearChangelog],
        [bindToBlurredScope], [blur] *)

(** [getChangelog: () => [...ref.changelog]] *)
Definition getChangelog : CM (list DiffResults) :=
  let* c := self in ret (ref_changelog c).

(** [clearChangelog()]: the old log is returned and [ref.changelog] is a
    new empty array. *)
Definition clearChangelog : CM (list DiffResults) :=
  let* c := self in
  let* _ := set_self (fun c =>
    {| fh_data := fh_data c; ref_data := ref_data c;
       ref_initialData := ref_initialData c; ref_changelog := [];
       fh_events := fh_events c; scopedUpdateBus := scopedUpdateBus c;
       scopedBlurBus := scopedBlurBus c |}) in
  ret (ref_changelog c).

(** [bindToBlurredScope(path, handler)]; an empty path registers nothing. *)
Definition bindToBlurredScope (path : string) (fn : handler) : CM unit :=
  if negb (nonempty path) then ret tt
  else
    set_self (fun c =>
      {| fh_data := fh_data c; ref_data := ref_data c;
         ref_initialData := ref_initialData c; ref_changelog := ref_changelog c;
         fh_events := fh_events c; scopedUpdateBus := scopedUpdateBus c;
         scopedBlurBus := addListener path fn (scopedBlurBus c) |}).

(** The second argument of [blur]: a name, an event, or nothing.  Of a
    focus event [blur] only asks [isPropagationStopped()]; an event is
    modelled by that answer, which [stopPropagation()] turns to [true] for
    good. *)
Inductive NameOrEvt :=
| BlurName (name : string)
| BlurEvt (stopped : bool)
| BlurNeither.

(** What a blur listener is given after the topic: the event or [null]
    (only its presence is recorded) and a path. *)
Inductive blur_args := BlurArgs (evt : bool) (path : string).

Section Blur.
(** The listeners are observers except for one effect that [blur] reads
    back: [stops fn topic] tells whether listener [fn], invoked with the
    topic as first argument and an event, calls [stopPropagation()]. *)
Variable stops : handler -> string -> bool.

Definition stops_any (calls : list (bus_event blur_args)) : bool :=
  existsb (fun e => match e with
                    | Called fn topic _ => stops fn topic
                    | Emitted _ _ => false
                    end) calls.

(** [scopedBlurBus.emit(s, evt, arg)]: what the bus did, and the event
    afterwards. *)
Definition blur_emit (bus : EventBus) (evt : option bool) (s arg : string)
    : list (bus_event blur_args) * option bool :=
  let calls := bus_emit bus s (BlurArgs (bool_decide (is_Some evt)) arg) in
  (calls, option_map (fun stopped => stopped || stops_any calls) evt).

(** [for (const s of qscopes)] with its [break]. *)
Fixpoint blur_loop (bus : EventBus) (evt : option bool) (qscopes : list string)
    (path : string) : list (bus_event blur_args) * option bool :=
  match qscopes with
  | [] => ([], evt)
  | s :: rest =>
      if default false evt then ([], evt)
      else
        let '(t, evt) := blur_emit bus evt s path in
        let '(t', evt) := blur_loop bus evt rest path in
        (t ++ t', evt)
  end.

(** [blur(scope, nameOrEvt, optEvt?)] of a context: what [scopedBlurBus]
    did.  Nothing of the context is written. *)
Definition blur (c : FHContext) (scope : string) (nameOrEvt : NameOrEvt)
    (optEvt : option bool) : list (bus_event blur_args) :=
  let '(name, evt) :=
    match nameOrEvt with
    | BlurName name => (name, optEvt)
    | BlurEvt stopped => ("", Some stopped)
    | BlurNeither => ("", None)
    end in
  let '(path, qScopes) := addScope scope (Some name) [] in
  let '(t, evt) := blur_loop (scopedBlurBus c) evt (getScopes qScopes) path in
  if default false evt then t
  else t ++ fst (blur_emit (scopedBlurBus c) evt "*" scope).
End Blur.

(** The components of the enclosing scope of a changed path, as
    [triggerUpdate] hands it to the collector: the path without its last
    component, then without empty and ['.'] components. *)
Definition parent_parts (path : string) : list string :=
  List.filter nonroot (js_split "/" (js_join "/" (removelast (js_split "/" path)))).

(** Two values that look the same down to depth [n]: the same primitive, or
    two objects, both arrays or both not, whose properties look the same
    under every key. *)
Inductive deep_equal (h : heap) : nat -> val -> val -> Prop :=
| deep_equal_prim n v :
    (forall l, v <> VRef l) -> deep_equal h n v v
| deep_equal_ref n l1 l2 o1 o2 :
    h !! l1 = Some o1 -> h !! l2 = Some o2 ->
    is_array_cell o1 = is_array_cell o2 ->
    (forall k, deep_equal h n (obj_get o1 k) (obj_get o2 k)) ->
    deep_equal h (S n) (VRef l1) (VRef l2).

(* ----------------------------------------------------------------- *)
(** *** Paths without array components

    For a component that is not array-marked, [getDataByPath] does the same
    thing up to twice, for the name and for the bracketed key:
    [if (!p[k]) p[k] = {}; p = p[k]]. *)

Definition ensure_child (p : val) (k : string) : M heap val :=
  let* cur := get_prop p k in
  let* _ := (if negb (truthy cur)
             then let* o := alloc empty_object in set_prop p k o
             else ret tt) in
  get_prop p k.

Fixpoint walk (ks : list string) (p : val) : M heap val :=
  match ks with
  | [] => ret p
  | k :: rest => let* x := ensure_child p k in walk rest x
  end.

(** The keys a component descends through. *)
Definition component_keys (component : string) : list string :=
  let pc := parsePathComponent component in
  (if nonempty (pc_name pc) then [pc_name pc] else [])
    ++ match pc_key pc with Some k => [k] | None => [] end.

(** The keys of a path, with the [break] and [continue] of the loop. *)
Fixpoint path_keys (components : list string) : list string :=
  match components with
  | [] => []
  | component :: rest =>
      if String.eqb component "" then []
      else if String.eqb component "." then path_keys rest
      else component_keys component ++ path_keys rest
  end.

(** No component of the path is array-marked ([name[]] or [name[3]]). *)
Definition no_array_component (path : string) : bool :=
  forallb (fun c => negb (pc_isArray (parsePathComponent c))) (js_split "/" path).

(** A standard-ops action that only increments. *)
Definition increment_action (inc : Rec Z) : Action :=
  {| a_type := "std-ops"; a_path := None; a_customOp := None; a_remove := None;
     a_append := None; a_set := None; a_increment := Some inc |}.

(** The path [k] lies under the path [p]: it is [p] itself or continues it
    after a slash; every path lies under the empty path. *)
Definition under (p k : string) : Prop :=
  p = "" \/ k = p \/ exists s, k = p +:+ "/" +:+ s.

(* ----------------------------------------------------------------- *)
(** *** formHelp/core.ts: [getScopeAndName]

    Of an element the function reads the [name], the [tagName], two entries
    of the [dataset] and the [parentElement].  The element is given with
    its ancestors, innermost first; the empty list is [null]. *)

Record Element := {
  e_name : string;
  e_tagName : string;
  e_dataset : Rec string
}.

Definition DS_KEY_SCOPE : string := "fhscope".
Definition DS_KEY_PARTITION : string := "fhpartition".

(** [sptr.tagName === 'FORM' || sptr.dataset[DS_KEY_PARTITION]] *)
Definition is_boundary (sptr : Element) : bool :=
  String.eqb (e_tagName sptr) "FORM"
  || nonempty (default "" (rec_get DS_KEY_PARTITION (e_dataset sptr))).

(** [while (sptr)] with its [break]; the state is [allScopes]. *)
Fixpoint collect_scopes (chain : list Element) (allScopes : list string) : list string :=
  match chain with
  | [] => allScopes
  | sptr :: parents =>
      if is_boundary sptr then allScopes
      else
        let s := default "" (rec_get DS_KEY_SCOPE (e_dataset sptr)) in
        collect_scopes parents (if nonempty s then allScopes ++ [s] else allScopes)
  end.

Record ScopeAndName := { sn_scope : string; sn_name : string }.

Definition getScopeAndName (ele : list Element) : ScopeAndName :=
  match ele with
  | [] => {| sn_scope := ""; sn_name := "" |}
  | e :: _ =>
      let parts := js_split "/" (e_name e) in
      let '(name, prefix) :=
        if (1 <? List.length parts)%nat
        then (List.last parts "", js_join "/" (removelast parts))
        else (e_name e, "") in
      let allScopes := collect_scopes ele [] in
      let scope := js_join "/" (List.filter nonempty (rev allScopes)) in
      let scope :=
        if nonempty prefix
        then (if nonempty scope then scope +:+ "/" +:+ prefix else prefix)
        else scope in
      {| sn_scope := scope; sn_name := name |}
  end.

(* ----------------------------------------------------------------- *)
(** *** action-store/core.ts: the inner events of a dispatch *)

(** The texts that [innerEvents.forEach] emits: each text at its first
    mention, less the texts that the empty [sent] table already answers
    for, the names of the inherited members; [seen] are the texts met so
    far. *)
Fixpoint first_mentions (seen texts : list string) : list string :=
  match texts with
  | [] => []
  | t :: rest =>
      if inherited t || existsb (String.eqb t) seen then first_mentions seen rest
      else t :: first_mentions (t :: seen) rest
  end.

(* ================================================================= *)
(** * Properties *)

(* ----------------------------------------------------------------- *)
(** ** Update cascade of [setControlValue] *)

(** C1.  With [data = {a:1, b:{c:2}}], [setControlValue('c', 3, 'b')] diffs
    the whole documents under the prefix ['b'], so the one changed path is
    ['b/b/c'].  The listener bound to scope ['b'] and name ['c'] (listener
    1) is never invoked; the listener of scope ['b'] (listener 2) is invoked
    once, after the emissions for ['b/b/c'] and ['b/b']; the wildcard
    listener of the update bus (listener 3) is invoked on every emission and
    twice on the last one; nothing is emitted on [events] (listeners 4, 5). *)
Theorem setControlValue_scoped_order :
  observe (on_context order_scenario (setControlValue "c" (VNum 3) (Some "b")))
          (fun w => (map diffs (ref_changelog (w_self w)), invocations (w_trace w)))
  = Some ([[("b/b/c", (VNum 2, VNum 3))]],
          [(3, "b/b/c"); (3, "b/b"); (2, "b"); (3, "b"); (3, "*"); (3, "*")]).
Proof. vm_compute. reflexivity. Qed.

(** The same change made through [updateControlValue], which diffs the
    whole documents without a prefix: the changed path is ['b/c'], and the
    listeners of the field and of the scope are invoked in that order. *)
Lemma updateControlValue_field_order :
  observe (on_context order_scenario
             (updateControlValue {| u_scope := "b"; u_name := "c"; u_value := VNum 3;
                                    u_isArray := false; u_isArrRemove := false |}))
          (fun w => (map diffs (ref_changelog (w_self w)), invocations (w_trace w)))
  = Some ([[("b/c", (VNum 2, VNum 3))]],
          [(1, "b/c"); (3, "b/c"); (2, "b"); (3, "b"); (3, "*"); (3, "*")]).
Proof. vm_compute. reflexivity. Qed.

(* ----------------------------------------------------------------- *)
(** ** [hasDiff] against the recorded entries *)

(** When exactly one side is [null] the entry is recorded and [hasDiff] keeps
    the value it had. *)
Lemma computeDiff_one_null h oval nval curpath :
  strict_eq oval VNull && strict_eq nval VNull = false ->
  strict_eq oval VNull || strict_eq nval VNull = true ->
  computeDiff h oval nval curpath None
  = Ok {| hasDiff := false; diffs := [(curpath, (oval, nval))] |}.
Proof.
  intros Hboth Hone. unfold computeDiff, diff_fuel. simpl.
  rewrite Hboth, Hone. reflexivity.
Qed.

(** C2.  Comparing [null] with the document [{a:1}] records one entry at the
    scope prefix and reports [hasDiff = false]; the same happens one level
    down, for [{a:null}] against [{a:{b:1}}]. *)
Theorem computeDiff_null_entry_without_hasDiff :
  (let '(r, h) := alloc_json (JObj [("a", JNum 1)]) [] in
   match r with
   | Ok n => computeDiff h VNull n "" None
             = Ok {| hasDiff := false; diffs := [("", (VNull, n))] |}
   | Throw _ => False
   end)
  /\
  (let '(r, h) := (let* o := alloc_json (JObj [("a", JNull)]) in
                   let* n := alloc_json (JObj [("a", JObj [("b", JNum 1)])]) in
                   ret (o, n)) [] in
   match r with
   | Ok (o, n) => computeDiff h o n "" None
                  = Ok {| hasDiff := false; diffs := [("a", (VNull, VRef 1))] |}
   | Throw _ => False
   end).
Proof. split; vm_compute; reflexivity. Qed.

(* ----------------------------------------------------------------- *)
(** ** [setInitial] *)

(** The result of [setInitial] does not depend on [newData]. *)
Lemma setInitial_argument_unused n1 n2 scope w : setInitial n1 scope w = setInitial n2 scope w.
Proof. reflexivity. Qed.

(** C3.  On a context whose initial snapshot is [{a:1}], [setInitial({a:2})]
    leaves the snapshot [{a:1}]: the argument is never assigned.  The one
    emission is ['set-initial'] on [events], with an empty diff. *)
Theorem setInitial_ignores_newData :
  observe (on_context (boot_context (JObj [("a", JNum 1)]) None)
             (let* newData := liftH (alloc_json (JObj [("a", JNum 2)])) in
              setInitial newData None))
          (fun w => (snapshot (w_heap w) (ref_initialData (w_self w)),
                     map (fun e => match e with
                                   | (b, Emitted name (SetInitial d s)) => Some (b, name, d, s)
                                   | _ => None
                                   end) (w_trace w)))
  = Some (Some (Some (JObj [("a", JNum 1)])),
          [Some (Events, "set-initial", no_diff, ".")]).
Proof. vm_compute. reflexivity. Qed.

(* ----------------------------------------------------------------- *)
(** ** [resetState] *)

(** The result of [resetState] does not depend on its argument. *)
Lemma resetState_argument_unused s1 s2 w : resetState s1 w = resetState s2 w.
Proof. reflexivity. Qed.

(** C4.  On a store holding [{a:1}] with no reducers, [resetState({a:2})]
    keeps the state [{a:1}] (the very same reference) and emits
    ['state-reset']. *)
Theorem resetState_keeps_previous_state :
  let w0 := boot_store (JObj [("a", JNum 1)]) [] in
  let w1 := on_store w0 (let* s := liftH (alloc_json (JObj [("a", JNum 2)])) in
                         resetState s) in
  observe w1 (fun w => (snapshot (w_heap w) (st_state (w_self w)), emissions (w_trace w)))
  = Some (Some (Some (JObj [("a", JNum 1)])), ["state-reset"])
  /\ observe w1 (fun w => st_state (w_self w)) = observe w0 (fun w => st_state (w_self w)).
Proof. split; vm_compute; reflexivity. Qed.

(* ----------------------------------------------------------------- *)
(** ** Standard ops: [append] *)

(** C9.  Dispatching [{append: {a:'new-a', e:'five'}}] on the state
    [{a:'one'}] with the standard-ops reducer: the new state is
    [{a:'one', e:'five'}]; the inner events are ['std-ops:change:.:e'],
    ['std-ops:change:.'], ['std-ops:change'], in that order, and they are
    emitted in that order before the cascade of the action type. *)
Theorem append_keeps_present_key_and_orders_inner_events :
  observe (on_store (boot_store (JObj [("a", JStr "one")]) [standardOpsReducer])
             (dispatchStdOps append_action))
          (fun w => (snapshot (w_heap w) (st_state (w_self w)),
                     match w_trace w with
                     | Emitted _ (ActionEvent _ _ innerEvents _) :: _ =>
                         snapshot (w_heap w) innerEvents
                     | _ => None
                     end,
                     emissions (w_trace w)))
  = Some (Some (Some (JObj [("a", JStr "one"); ("e", JStr "five")])),
          Some (Some (JArr [JStr "std-ops:change:.:e"; JStr "std-ops:change:.";
                            JStr "std-ops:change"])),
          ["action:std-ops:change:.:e"; "action:std-ops:change:.";
           "action:std-ops:change"; "action:std-ops"; "action"]).
Proof. vm_compute. reflexivity. Qed.

(* ----------------------------------------------------------------- *)
(** ** Push paths *)

(** C10.  On the root [{items:[]}], resolving ['items[]'] twice returns two
    distinct references, each to an empty object, and [items] holds exactly
    these two elements: its length is 2. *)
Theorem push_path_resolved_twice :
  let '(r, h) := (let* root := alloc_json (JObj [("items", JArr [])]) in
                  let* a := getDataByPath root "items[]" None in
                  let* b := getDataByPath root "items[]" None in
                  let* items := get_prop root "items" in
                  let* len := get_prop items "length" in
                  let* first := get_prop items "0" in
                  let* second := get_prop items "1" in
                  ret (a, b, len, first, second, root)) [] in
  match r with
  | Ok (VRef a, VRef b, len, first, second, root) =>
      a <> b
      /\ len = VNum 2 /\ first = VRef a /\ second = VRef b
      /\ h !! a = Some empty_object
      /\ h !! b = Some empty_object
      /\ snapshot h root = Some (Some (JObj [("items", JArr [JObj []; JObj []])]))
  | _ => False
  end.
Proof.
  vm_compute. repeat split; try reflexivity. discriminate.
Qed.

(* ----------------------------------------------------------------- *)
(** ** Order of [getScopes] *)

Section SortFacts.
Context {A : Type} (cmp : A -> A -> Z) (R : A -> A -> Prop).
Hypothesis R_of_le : forall x y, (cmp x y <= 0)%Z -> R x y.
Hypothesis R_of_gt : forall x y, (0 < cmp x y)%Z -> R y x.
Hypothesis R_trans : forall x y z, R x y -> R y z -> R x z.

Lemma sort_insert_perm x l : Permutation (sort_insert cmp x l) (x :: l).
Proof.
  induction l as [|y l IH]; simpl; [reflexivity|].
  destruct (cmp x y <=? 0)%Z; [reflexivity|].
  rewrite IH. apply perm_swap.
Qed.

Lemma js_sort_perm l : Permutation (js_sort cmp l) l.
Proof.
  induction l as [|x l IH]; simpl; [constructor|].
  rewrite sort_insert_perm. now constructor.
Qed.

Lemma sort_insert_sorted x l :
  StronglySorted R l -> StronglySorted R (sort_insert cmp x l).
Proof.
  induction 1 as [|y l Hs IH Hy]; simpl.
  - repeat constructor.
  - destruct (Z.leb_spec (cmp x y) 0) as [Hle|Hgt].
    + constructor; [now constructor|].
      constructor; [now apply R_of_le|].
      eapply List.Forall_impl; [|exact Hy]. intros z Hz.
      eapply R_trans; [apply R_of_le|]; eassumption.
    + constructor; [exact IH|].
      eapply Permutation_Forall; [symmetry; apply sort_insert_perm|].
      constructor; [now apply R_of_gt | exact Hy].
Qed.

Lemma js_sort_sorted l : StronglySorted R (js_sort cmp l).
Proof.
  induction l as [|x l IH]; simpl; [constructor|].
  now apply sort_insert_sorted.
Qed.

(** The sorted arrangement is unique: whatever algorithm the engine runs,
    it returns [js_sort]. *)
Hypothesis R_antisym : forall x y, R x y -> R y x -> x = y.

Lemma sorted_perm_unique l1 :
  forall l2, StronglySorted R l1 -> StronglySorted R l2 ->
             Permutation l1 l2 -> l1 = l2.
Proof.
  induction l1 as [|x l1 IH]; intros l2 H1 H2 Hp.
  - now apply Permutation_nil in Hp.
  - destruct l2 as [|y l2]; [now apply Permutation_sym, Permutation_nil in Hp|].
    inversion H1 as [|? ? Hs1 Hx]; inversion H2 as [|? ? Hs2 Hy]; subst.
    assert (x = y) as ->.
    { assert (Hin1 : In x (y :: l2)) by (eapply Permutation_in; [exact Hp|now left]).
      assert (Hin2 : In y (x :: l1))
        by (eapply Permutation_in; [symmetry; exact Hp|now left]).
      destruct Hin1 as [->|Hin1]; [reflexivity|].
      destruct Hin2 as [->|Hin2]; [reflexivity|].
      rewrite List.Forall_forall in Hx, Hy.
      apply R_antisym; [now apply Hx | now apply Hy]. }
    f_equal. apply IH; [assumption..|].
    eapply Permutation_cons_inv; exact Hp.
Qed.
End SortFacts.

Lemma string_compare_lt_trans a :
  forall b c, String.compare a b = Lt -> String.compare b c = Lt -> String.compare a c = Lt.
Proof.
  induction a as [|x a IH]; intros [|y b] [|z c]; simpl; try easy.
  destruct (Ascii.compare x y) eqn:Hxy; try easy.
  - apply Ascii.compare_eq_iff in Hxy. subst y.
    destruct (Ascii.compare x z) eqn:Hxz; try easy. intros; eapply IH; eauto.
  - intros _. destruct (Ascii.compare y z) eqn:Hyz; try easy.
    + apply Ascii.compare_eq_iff in Hyz. subst z. rewrite Hxy. easy.
    + intros _. unfold Ascii.compare in *. rewrite N.compare_lt_iff in *.
      assert (H : (N_of_ascii x < N_of_ascii z)%N) by lia.
      apply N.compare_lt_iff in H. rewrite H. easy.
Qed.

Lemma string_ltb_trans a b c :
  String.ltb a b = true -> String.ltb b c = true -> String.ltb a c = true.
Proof.
  unfold String.ltb. intros Hab Hbc.
  destruct (String.compare a b) eqn:E1; try discriminate.
  destruct (String.compare b c) eqn:E2; try discriminate.
  now rewrite (string_compare_lt_trans _ _ _ E1 E2).
Qed.

Lemma string_ltb_irrefl a : String.ltb a a = false.
Proof.
  unfold String.ltb. destruct (String.compare a a) eqn:E; try reflexivity.
  pose proof (String.compare_antisym a a) as H. rewrite E in H. discriminate.
Qed.

Lemma string_not_ltb_eq a b :
  String.ltb a b = false -> String.ltb b a = false -> a = b.
Proof.
  unfold String.ltb. intros Hab Hba.
  pose proof (String.compare_antisym b a) as H.
  destruct (String.compare a b) eqn:E1; [now apply String.compare_eq_iff| discriminate |].
  rewrite H in Hba. simpl in Hba. discriminate.
Qed.

Lemma scope_order_le a b : (scope_order a b <= 0)%Z -> scope_before a b.
Proof.
  unfold scope_order, scope_before, sortString.
  destruct (Nat.ltb_spec (String.length a) (String.length b)); [lia|].
  destruct (Nat.ltb_spec (String.length b) (String.length a)); [now left|].
  intros Hc. right. split; [lia|].
  destruct (String.eqb_spec a b); [now left|].
  destruct (String.ltb a b) eqn:Hab; [now right|].
  destruct (String.ltb b a) eqn:Hba; [lia|].
  left. now apply string_not_ltb_eq.
Qed.

Lemma scope_order_gt a b : (0 < scope_order a b)%Z -> scope_before b a.
Proof.
  unfold scope_order, scope_before, sortString.
  destruct (Nat.ltb_spec (String.length a) (String.length b)); [now left|].
  destruct (Nat.ltb_spec (String.length b) (String.length a)); [lia|].
  intros Hc. right. split; [lia|].
  destruct (String.eqb_spec a b); [lia|].
  destruct (String.ltb a b) eqn:Hab; [lia|].
  destruct (String.ltb b a) eqn:Hba; [now right|lia].
Qed.

Lemma scope_before_trans a b c : scope_before a b -> scope_before b c -> scope_before a c.
Proof.
  unfold scope_before.
  intros [Hab|[Hab Hab']] [Hbc|[Hbc Hbc']]; try (left; lia).
  right. split; [lia|].
  destruct Hab' as [->|Hab']; [assumption|].
  destruct Hbc' as [<-|Hbc']; [now right|].
  right. eapply string_ltb_trans; eassumption.
Qed.

Lemma scope_before_antisym a b : scope_before a b -> scope_before b a -> a = b.
Proof.
  unfold scope_before.
  intros [Hab|[Hab Hab']] [Hba|[Hba Hba']]; try lia.
  destruct Hab' as [->|Hab']; [reflexivity|].
  destruct Hba' as [->|Hba']; [reflexivity|].
  pose proof (string_ltb_trans _ _ _ Hab' Hba') as H.
  rewrite string_ltb_irrefl in H. discriminate.
Qed.

(** C6.  [addScope('contact/email', 'primary')] on a fresh collector returns
    the full path and [getScopes()] is then the four scopes in the stated
    order.  In general [getScopes()] is an arrangement of the recorded
    scopes in which every scope stands before all the later ones in the
    order "longer first, then ascending code-unit order", and it is the only
    such arrangement. *)
Theorem getScopes_longest_first :
  (addScope "contact/email" (Some "primary") [] =
     ("contact/email/primary",
      [("contact/email/primary", true); ("contact/email/*", true);
       ("contact/email", true); ("contact", true)])
   /\ getScopes (snd (addScope "contact/email" (Some "primary") []))
      = ["contact/email/primary"; "contact/email/*"; "contact/email"; "contact"])
  /\ forall qScopes : Rec bool,
       Permutation (getScopes qScopes) (rec_keys qScopes)
       /\ StronglySorted scope_before (getScopes qScopes)
       /\ forall l, Permutation l (rec_keys qScopes) -> StronglySorted scope_before l ->
                    l = getScopes qScopes.
Proof.
  split; [split; vm_compute; reflexivity|].
  intros q. unfold getScopes. split; [apply js_sort_perm|]. split.
  - apply js_sort_sorted;
      [exact scope_order_le | exact scope_order_gt | exact scope_before_trans].
  - intros l Hp Hs.
    apply (sorted_perm_unique scope_before scope_before_antisym); [exact Hs| |].
    + apply js_sort_sorted;
        [exact scope_order_le | exact scope_order_gt | exact scope_before_trans].
    + rewrite Hp. symmetry. apply js_sort_perm.
Qed.

(** The collector after [addScope('contact/email', 'primary')]: the stated
    list is the one arrangement of its keys that is sorted. *)
Lemma getScopes_longest_first_witness :
  ["contact/email/primary"; "contact/email/*"; "contact/email"; "contact"]
  = getScopes (snd (addScope "contact/email" (Some "primary") [])).
Proof.
  apply (proj2 (proj2 (proj2 getScopes_longest_first
                         (snd (addScope "contact/email" (Some "primary") []))))).
  - vm_compute. reflexivity.
  - repeat constructor; left; simpl; lia.
Defined.

(* ----------------------------------------------------------------- *)
(** ** A dispatch that changes nothing *)

Lemma strict_eq_eq a b : strict_eq a b = true -> a = b.
Proof.
  destruct a, b; simpl; try discriminate; try reflexivity; intros H.
  - now apply Bool.eqb_prop in H; subst.
  - now apply Z.eqb_eq in H; subst.
  - now apply String.eqb_eq in H; subst.
  - now apply Nat.eqb_eq in H; subst.
Qed.

Lemma pipeline_unchanged_result reducers action ostate :
  forall h, pipeline_unchanged reducers action ostate h = true ->
            exists h', applyReducers reducers action ostate h = (Ok ostate, h').
Proof.
  induction reducers as [|r rest IH]; intros h Hp; simpl in *.
  - now exists h.
  - unfold bind. destruct (r action ostate h) as [[ts|e] h1]; [|discriminate].
    apply andb_prop in Hp as [Hts Hrest].
    destruct (truthy ts) eqn:Ht; simpl in Hts.
    + apply strict_eq_eq in Hts. subst ts. now apply IH.
    + now apply IH.
Qed.

(** When the pipeline hands back the copy it was given, [dispatch] returns
    with the store and the trace as they were. *)
Lemma dispatch_same_reference w action ostate h1 nstate h2 :
  jsonClone (st_state (w_self w)) (w_heap w) = (Ok ostate, h1) ->
  applyReducers (st_reducers (w_self w)) action ostate h1 = (Ok nstate, h2) ->
  strict_eq nstate ostate = true ->
  dispatch action w = (Ok tt, World h2 (w_self w) (w_trace w)).
Proof.
  intros Hc Ha He. unfold dispatch, bind, self, liftH, zoom. simpl.
  rewrite Hc. simpl. rewrite Ha. simpl. rewrite He. reflexivity.
Qed.

Lemma dispatch_throwing_pipeline w action ostate h1 e h2 :
  jsonClone (st_state (w_self w)) (w_heap w) = (Ok ostate, h1) ->
  applyReducers (st_reducers (w_self w)) action ostate h1 = (Throw e, h2) ->
  dispatch action w = (Throw e, World h2 (w_self w) (w_trace w)).
Proof.
  intros Hc Ha. unfold dispatch, bind, self, liftH, zoom. simpl.
  rewrite Hc. simpl. rewrite Ha. reflexivity.
Qed.

Lemma strict_eq_refl a : strict_eq a a = true.
Proof.
  destruct a; simpl; try reflexivity.
  - apply Bool.eqb_reflx.
  - apply Z.eqb_refl.
  - apply String.eqb_refl.
  - apply Nat.eqb_refl.
Qed.

(** C8.  Let [ostate] be the copy of the state that [dispatch] starts with.
    If every reducer returns a falsy value or [ostate] itself, [dispatch]
    returns normally, the trace of the bus is as before (nothing emitted,
    no listener invoked) and the store, with its [state] reference, is the
    one it was.  Conversely, a dispatch after which the trace or the
    [state] reference differs is one whose pipeline returned a state that is
    not, by reference, that copy. *)
Theorem dispatch_no_change_no_event :
  forall (w : world ActionStoreImpl (bus_event store_payload)) (action : Action)
         (ostate : val) (h1 : heap),
    jsonClone (st_state (w_self w)) (w_heap w) = (Ok ostate, h1) ->
    (pipeline_unchanged (st_reducers (w_self w)) action ostate h1 = true ->
     exists h2, dispatch action w = (Ok tt, World h2 (w_self w) (w_trace w)))
    /\ (forall r w',
          dispatch action w = (r, w') ->
          w_trace w' <> w_trace w \/ st_state (w_self w') <> st_state (w_self w) ->
          exists nstate h2,
            applyReducers (st_reducers (w_self w)) action ostate h1 = (Ok nstate, h2)
            /\ strict_eq nstate ostate = false).
Proof.
  intros w action ostate h1 Hc. split.
  - intros Hp.
    destruct (pipeline_unchanged_result _ _ _ _ Hp) as [h2 Ha].
    exists h2. eapply dispatch_same_reference; eauto using strict_eq_refl.
  - intros r w' Hd Hdiff.
    destruct (applyReducers (st_reducers (w_self w)) action ostate h1)
      as [[nstate|e] h2] eqn:Ha.
    + destruct (strict_eq nstate ostate) eqn:He; [|eauto].
      rewrite (dispatch_same_reference _ _ _ _ _ _ Hc Ha He) in Hd.
      inversion Hd; subst. simpl in Hdiff. destruct Hdiff; congruence.
    + rewrite (dispatch_throwing_pipeline _ _ _ _ _ _ Hc Ha) in Hd.
      inversion Hd; subst. simpl in Hdiff. destruct Hdiff; congruence.
Qed.

(** The store [{a:'one'}] and the action [remove: ['missingKey']]. *)
Lemma dispatch_no_change_no_event_witness :
  exists h2,
    dispatch remove_missing_action one_key_store
    = (Ok tt, World h2 (w_self one_key_store) (w_trace one_key_store)).
Proof.
  refine (proj1 (dispatch_no_change_no_event one_key_store remove_missing_action
                   (VRef 1) [Obj None [("a", VStr "one")]; Obj None [("a", VStr "one")]]
                   _) _).
  - vm_compute. reflexivity.
  - vm_compute. reflexivity.
Defined.

(* ----------------------------------------------------------------- *)
(** ** Path resolution: the grammar error, created nodes, defined results *)

Lemma getDataByPath_heap root path h :
  getDataByPath root path None h = resolve_loop path (js_split "/" path) root h.
Proof.
  unfold getDataByPath, bind, liftH, zoom, ret. simpl.
  destruct (resolve_loop _ _ _ h) as [[v|e] h']; reflexivity.
Qed.

Lemma eo_ret {A} (a : A) : engine_only (ret a).
Proof. intros h c p. discriminate. Qed.

Lemma eo_throw {A} : engine_only (@throw heap A RuntimeError).
Proof. intros h c p. discriminate. Qed.

Lemma eo_bind {A B} (m : M heap A) (k : A -> M heap B) :
  engine_only m -> (forall a, engine_only (k a)) -> engine_only (bind m k).
Proof.
  intros Hm Hk h c p. unfold bind. specialize (Hm h c p).
  destruct (m h) as [[a|e] h1]; simpl in *; [apply Hk|].
  intros Heq. apply Hm. inversion Heq. reflexivity.
Qed.

Lemma eo_get_key v k : engine_only (get_key v k).
Proof.
  intros h c p. unfold get_key, read_key. simpl.
  destruct v; try discriminate. destruct (h !! l); discriminate.
Qed.

Lemma eo_set_key v k x : engine_only (set_key v k x).
Proof.
  intros h c p. unfold set_key.
  destruct v; try discriminate.
  destruct (h !! l); [|discriminate]. destruct (obj_set o k x); discriminate.
Qed.

Lemma eo_alloc o : engine_only (alloc o).
Proof. intros h c p. discriminate. Qed.

Lemma eo_push v x : engine_only (push v x).
Proof.
  intros h c p. unfold push.
  destruct v; try discriminate.
  destruct (h !! l) as [[[es|] ps]|]; try discriminate.
  destruct (_ <? _)%N; discriminate.
Qed.

Ltac engine_only_tac :=
  repeat match goal with
         | |- engine_only (bind _ _) => apply eo_bind; [|intros ?]
         | |- engine_only (if ?b then _ else _) => destruct b
         | |- engine_only (match ?x with _ => _ end) => destruct x
         | |- engine_only _ =>
             first [ apply eo_ret | apply eo_throw | apply eo_alloc | apply eo_push
                   | apply eo_get_key | apply eo_set_key ]
         end.

Lemma component_descend_engine_only pc target :
  engine_only (component_descend pc target).
Proof. unfold component_descend. engine_only_tac. Qed.

Lemma component_target_engine_only path c pc ptr :
  nonempty (pc_name pc) = true \/ pc_isArray pc = false ->
  engine_only (component_target path c pc ptr).
Proof.
  intros H. unfold component_target.
  destruct (nonempty (pc_name pc)) eqn:Hn.
  - engine_only_tac.
  - destruct H as [H|H]; [discriminate|]. rewrite H. apply eo_ret.
Qed.

Lemma resolve_component_unnamed path c ptr h :
  unnamed_array c = true ->
  resolve_component path c ptr h = (Throw (UnnamedArray c path), h).
Proof.
  unfold unnamed_array, resolve_component, component_target, bind.
  intros H. apply andb_prop in H as [Hn Ha].
  apply Bool.negb_true_iff in Hn. rewrite Hn, Ha. reflexivity.
Qed.

Lemma resolve_component_named path c ptr :
  unnamed_array c = false -> engine_only (resolve_component path c ptr).
Proof.
  unfold unnamed_array, resolve_component. intros H.
  apply eo_bind; [|intros ?; apply component_descend_engine_only].
  apply component_target_engine_only.
  destruct (nonempty (pc_name (parsePathComponent c))); [now left|].
  right. simpl in H. exact H.
Qed.

Lemma resolve_loop_reached path components :
  forall ptr h,
    resolve_loop path (reached components) ptr h = resolve_loop path components ptr h.
Proof.
  induction components as [|c rest IH]; intros ptr h; simpl; [reflexivity|].
  destruct (String.eqb c "") eqn:He; [reflexivity|].
  simpl. rewrite He.
  destruct (String.eqb c "."); [apply IH|].
  unfold bind. destruct (resolve_component path c ptr h) as [[v|e] h1]; [apply IH|reflexivity].
Qed.

(** The grammar error of a loop names a reached component that is an
    unnamed array, after a prefix that resolved. *)
Lemma resolve_loop_throws path components :
  forall ptr h c p h',
    resolve_loop path components ptr h = (Throw (UnnamedArray c p), h') ->
    p = path /\ exists pre post v h1,
      reached components = pre ++ c :: post
      /\ unnamed_array c = true
      /\ resolve_loop path pre ptr h = (Ok v, h1).
Proof.
  induction components as [|c0 rest IH]; intros ptr h c p h' H; simpl in H.
  - discriminate.
  - simpl. destruct (String.eqb c0 "") eqn:He; [discriminate|].
    destruct (String.eqb c0 ".") eqn:Hd.
    + destruct (IH _ _ _ _ _ H) as (-> & pre & post & v & h1 & Hr & Hu & Hl).
      split; [reflexivity|]. exists (c0 :: pre), post, v, h1.
      split; [now rewrite Hr|]. split; [exact Hu|].
      simpl. now rewrite He, Hd.
    + unfold bind in H.
      destruct (resolve_component path c0 ptr h) as [[v0|e] h0] eqn:Hc.
      * destruct (IH _ _ _ _ _ H) as (-> & pre & post & v & h1 & Hr & Hu & Hl).
        split; [reflexivity|]. exists (c0 :: pre), post, v, h1.
        split; [now rewrite Hr|]. split; [exact Hu|].
        simpl. rewrite He, Hd. unfold bind. now rewrite Hc.
      * inversion H; subst.
        destruct (unnamed_array c0) eqn:Hu.
        -- rewrite (resolve_component_unnamed _ _ _ _ Hu) in Hc.
           inversion Hc; subst. split; [reflexivity|].
           exists [], (reached rest), ptr, h'. repeat split; assumption.
        -- exfalso. apply (resolve_component_named path c0 ptr Hu h c p).
           now rewrite Hc.
Qed.

Lemma unnamed_array_not_skipped c :
  unnamed_array c = true -> String.eqb c "" = false /\ String.eqb c "." = false.
Proof.
  intros H. split.
  - destruct (String.eqb_spec c ""); [subst; discriminate | reflexivity].
  - destruct (String.eqb_spec c "."); [subst; discriminate | reflexivity].
Qed.

Lemma resolve_loop_prefix path pre :
  forall c post ptr h v h1,
    resolve_loop path pre ptr h = (Ok v, h1) ->
    Forall (fun x => String.eqb x "" = false) pre ->
    unnamed_array c = true ->
    resolve_loop path (pre ++ c :: post) ptr h = (Throw (UnnamedArray c path), h1).
Proof.
  induction pre as [|c0 pre IH]; intros c post ptr h v h1 Hl Hne Hu; simpl in *.
  - inversion Hl; subst.
    destruct (unnamed_array_not_skipped _ Hu) as [-> ->].
    unfold bind. now rewrite (resolve_component_unnamed _ _ _ _ Hu).
  - inversion Hne as [|? ? Hc0 Hne']; subst. rewrite Hc0 in *.
    destruct (String.eqb c0 "."); [eapply IH; eauto|].
    unfold bind in *.
    destruct (resolve_component path c0 ptr h) as [[v0|e] h0]; [|discriminate].
    eapply IH; eauto.
Qed.

Lemma reached_nonempty components :
  Forall (fun x => String.eqb x "" = false) (reached components).
Proof.
  induction components as [|c rest IH]; simpl; [constructor|].
  destruct (String.eqb c "") eqn:He; [constructor|]. now constructor.
Qed.

(* ----------------------------------------------------------------- *)
(** *** Reading back what was written *)

Lemma rec_get_set_eq {A} k (v : A) r : rec_get k (rec_set k v r) = Some v.
Proof.
  induction r as [|[k' v'] r IH]; simpl.
  - now rewrite String.eqb_refl.
  - destruct (String.eqb k k') eqn:He; simpl; rewrite ?He, ?String.eqb_refl; auto.
Qed.

Lemma set_elem_lookup i x es : set_elem i x es !! i = Some (Some x).
Proof.
  unfold set_elem. destruct (Nat.ltb_spec i (length es)).
  - now apply list_lookup_insert_eq.
  - rewrite lookup_app_r by lia. rewrite lookup_app_r by (rewrite length_replicate; lia).
    rewrite length_replicate. now replace (i - length es - (i - length es)) with 0 by lia.
Qed.

Lemma set_elem_length i x es : i < length (set_elem i x es).
Proof.
  unfold set_elem. destruct (Nat.ltb_spec i (length es)).
  - now rewrite length_insert.
  - rewrite !length_app, length_replicate. simpl. lia.
Qed.

Lemma obj_get_set o k x o' : obj_set o k x = Some o' -> obj_get o' k = x.
Proof.
  unfold obj_set, obj_get. destruct (elems o) as [es|] eqn:He.
  - destruct (is_length k) eqn:Hl.
    + destruct x; try discriminate.
      destruct ((0 <=? n)%Z && (n <? 4294967296)%Z) eqn:Hr; [|discriminate].
      intros [= <-]. simpl. rewrite length_resize. f_equal. lia.
    + destruct k as [i|s]; intros [= <-]; simpl.
      * pose proof (set_elem_length (N.to_nat i) x es) as Hlen.
        destruct (N.ltb_spec i (N.of_nat (length (set_elem (N.to_nat i) x es)))); [|lia].
        now rewrite set_elem_lookup.
      * now rewrite rec_get_set_eq.
  - intros [= <-]. simpl. now rewrite rec_get_set_eq.
Qed.

Lemma read_after_set v k x h h' :
  set_key v k x h = (Ok tt, h') -> read_key h' v k = Ok x.
Proof.
  unfold set_key, read_key. destruct v; try discriminate.
  destruct (h !! l) as [o|] eqn:Hl; [|discriminate].
  destruct (obj_set o k x) as [o'|] eqn:Hs; [|discriminate].
  intros [= <-]. rewrite list_lookup_insert_eq by (eapply lookup_lt_Some; eauto).
  f_equal. eapply obj_get_set; eauto.
Qed.

Lemma push_then_last v x h h' :
  push v x h = (Ok tt, h') ->
  exists n, read_key h' v (KName "length") = Ok (VNum n)
            /\ read_key h' v (key_of_Z (n - 1)) = Ok x.
Proof.
  unfold push, read_key. destruct v; try discriminate.
  destruct (h !! l) as [[[es|] ps]|] eqn:Hl; try discriminate.
  destruct (N.ltb_spec (N.of_nat (length es)) 4294967295); [|discriminate].
  intros [= <-]. rewrite list_lookup_insert_eq by (eapply lookup_lt_Some; eauto).
  exists (Z.of_nat (length (es ++ [Some x]))). split; [reflexivity|].
  assert (Hk : key_of_Z (Z.of_nat (length (es ++ [Some x])) - 1)
               = KIndex (N.of_nat (length es))).
  { unfold key_of_Z. rewrite length_app. simpl.
    destruct (Z.leb_spec 0 (Z.of_nat (length es + 1) - 1)); [|lia].
    destruct (Z.ltb_spec (Z.of_nat (length es + 1) - 1) 4294967295); [|lia].
    simpl. f_equal. lia. }
  rewrite Hk. unfold obj_get. simpl. rewrite length_app. simpl.
  destruct (N.ltb_spec (N.of_nat (length es)) (N.of_nat (length es + 1))); [|lia].
  rewrite Nat2N.id.
  replace (length es) with (length es + 0) at 1 by lia.
  now rewrite lookup_app_r, Nat.add_sub' by lia.
Qed.

Lemma truthy_defined v : truthy v = true -> nullish v = false.
Proof. destruct v; simpl; congruence. Qed.

(* ----------------------------------------------------------------- *)
(** *** A resolution that returns, returns a defined node *)

Lemma component_target_defined path c pc ptr h v h' :
  nullish ptr = false ->
  component_target path c pc ptr h = (Ok v, h') ->
  nullish v = false.
Proof.
  intros Hp. unfold component_target, bind, get_prop, get_key, alloc, ret, throw.
  destruct (nonempty (pc_name pc)).
  - destruct (read_key h ptr (key_of_string (pc_name pc))) as [cur|e] eqn:Hr; [|discriminate].
    destruct (truthy cur) eqn:Ht; simpl.
    + rewrite Hr. intros [= <- <-]. now apply truthy_defined.
    + destruct (pc_isArray pc).
      * rewrite Hr, Ht. simpl.
        destruct (set_prop ptr (pc_name pc) (VRef (length h)) (h ++ [empty_array]))
          as [[[]|e] h2] eqn:Hs; [|discriminate].
        rewrite (read_after_set _ _ _ _ _ Hs). now intros [= <- <-].
      * destruct (set_prop ptr (pc_name pc) (VRef (length h)) (h ++ [empty_object]))
          as [[[]|e] h2] eqn:Hs; [|discriminate].
        rewrite (read_after_set _ _ _ _ _ Hs). now intros [= <- <-].
  - destruct (pc_isArray pc); [discriminate|]. now intros [= <- <-].
Qed.

Lemma component_descend_defined pc target h v h' :
  nullish target = false ->
  component_descend pc target h = (Ok v, h') ->
  nullish v = false.
Proof.
  intros Hp.
  unfold component_descend, bind, get_at, get_prop, get_key, alloc, ret, throw.
  destruct (pc_isArray pc).
  - destruct (pc_index pc) as [i|].
    + destruct (read_key h target (key_of_Z i)) as [cur|e] eqn:Hr; [|discriminate].
      destruct (nullish cur) eqn:Hn.
      * destruct (set_at target i (VRef (length h)) (h ++ [empty_object]))
          as [[[]|e] h2] eqn:Hs; [|discriminate].
        rewrite (read_after_set _ _ _ _ _ Hs). now intros [= <- <-].
      * destruct (set_at target i cur h) as [[[]|e] h2] eqn:Hs; [|discriminate].
        rewrite (read_after_set _ _ _ _ _ Hs). intros [= <- <-]. exact Hn.
    + destruct (push target (VRef (length h)) (h ++ [empty_object]))
        as [[[]|e] h2] eqn:Hs; [|discriminate].
      destruct (push_then_last _ _ _ _ Hs) as (n & Hlen & Hlast).
      change (key_of_string "length") with (KName "length").
      rewrite Hlen, Hlast. now intros [= <- <-].
  - destruct (pc_key pc) as [k|]; [|now intros [= <- <-]].
    destruct (read_key h target (key_of_string k)) as [cur|e] eqn:Hr; [|discriminate].
    destruct (truthy cur) eqn:Ht; simpl.
    + rewrite Hr. intros [= <- <-]. now apply truthy_defined.
    + destruct (set_prop target k (VRef (length h)) (h ++ [empty_object]))
        as [[[]|e] h2] eqn:Hs; [|discriminate].
      rewrite (read_after_set _ _ _ _ _ Hs). now intros [= <- <-].
Qed.

Lemma resolve_component_defined path c ptr h v h' :
  nullish ptr = false ->
  resolve_component path c ptr h = (Ok v, h') ->
  nullish v = false.
Proof.
  intros Hp. unfold resolve_component, bind.
  destruct (component_target _ _ _ _ h) as [[t|e] h1] eqn:Ht; [|discriminate].
  intros Hd. eapply component_descend_defined; [|exact Hd].
  eapply component_target_defined; eauto.
Qed.

Lemma resolve_loop_defined path components :
  forall ptr h v h',
    nullish ptr = false ->
    resolve_loop path components ptr h = (Ok v, h') ->
    nullish v = false.
Proof.
  induction components as [|c rest IH]; intros ptr h v h' Hp; simpl.
  - now intros [= <- <-].
  - destruct (String.eqb c ""); [now intros [= <- <-]|].
    destruct (String.eqb c "."); [now apply IH|].
    unfold bind. destruct (resolve_component path c ptr h) as [[p1|e] h1] eqn:Hc; [|discriminate].
    apply IH. eapply resolve_component_defined; eauto.
Qed.

(* ----------------------------------------------------------------- *)
(** *** Missing nodes are created *)

Lemma oa_same {A} t (m : M heap A) : (forall h, snd (m h) = h) -> only_at t m.
Proof. intros Hm h. rewrite Hm. repeat split; eauto. Qed.

Lemma oa_ret {A} t (a : A) : only_at t (ret a).
Proof. now apply oa_same. Qed.

Lemma oa_throw {A} t e : only_at t (@throw heap A e).
Proof. now apply oa_same. Qed.

Lemma oa_get_key t v k : only_at t (get_key v k).
Proof. now apply oa_same. Qed.

Lemma oa_alloc t o : only_at t (alloc o).
Proof.
  intros h. simpl. rewrite length_app. simpl. split; [lia|]. split.
  - intros l Hl _. now apply lookup_app_l.
  - intros o0 Ho. exists o0. split; [|reflexivity].
    rewrite lookup_app_l; [exact Ho | eapply lookup_lt_Some; eauto].
Qed.

Lemma oa_write t (h : heap) o o' :
  h !! t = Some o -> is_array_cell o' = is_array_cell o ->
  length h <= length (<[t := o']> h)
  /\ (forall l, l < length h -> l <> t -> <[t := o']> h !! l = h !! l)
  /\ (forall o0, h !! t = Some o0 ->
                 exists o1, <[t := o']> h !! t = Some o1
                            /\ is_array_cell o1 = is_array_cell o0).
Proof.
  intros Ho Hk. rewrite length_insert. split; [lia|]. split.
  - intros l _ Hne. now apply list_lookup_insert_ne.
  - intros o0 Ho0. exists o'. split.
    + apply list_lookup_insert_eq. eapply lookup_lt_Some; eauto.
    + congruence.
Qed.

Lemma obj_set_kind o k x o' : obj_set o k x = Some o' -> is_array_cell o' = is_array_cell o.
Proof.
  unfold obj_set, is_array_cell. destruct (elems o) as [es|].
  - destruct (is_length k).
    + destruct x; try discriminate. destruct (_ && _); [|discriminate]. now intros [= <-].
    + destruct k; now intros [= <-].
  - now intros [= <-].
Qed.

Ltac oa_unchanged :=
  simpl; split; [lia|]; split; [reflexivity|];
  let o0 := fresh "o" in let H := fresh "H" in
  intros o0 H; exists o0; split; [first [exact H | congruence] | reflexivity].

Lemma oa_set_key t k x : only_at t (set_key (VRef t) k x).
Proof.
  intros h. unfold set_key.
  destruct (h !! t) as [o|] eqn:Ho; [|oa_unchanged].
  destruct (obj_set o k x) as [o'|] eqn:Hs; [|oa_unchanged].
  simpl. destruct (oa_write t h o o' Ho (obj_set_kind _ _ _ _ Hs)) as (H1 & H2 & H3).
  split; [exact H1|]. split; [exact H2|]. intros o0 [= <-]. now apply H3.
Qed.

Lemma oa_push t x : only_at t (push (VRef t) x).
Proof.
  intros h. unfold push.
  destruct (h !! t) as [[[es|] ps]|] eqn:Ho; try oa_unchanged.
  destruct (_ <? _)%N; [|oa_unchanged].
  simpl.
  destruct (oa_write t h _ (Obj (Some (es ++ [Some x])) ps) Ho eq_refl) as (H1 & H2 & H3).
  split; [exact H1|]. split; [exact H2|]. intros o0 [= <-]. now apply H3.
Qed.

Lemma oa_bind {A B} t (m : M heap A) (k : A -> M heap B) :
  only_at t m -> (forall a, only_at t (k a)) -> only_at t (bind m k).
Proof.
  intros Hm Hk h. unfold bind. specialize (Hm h).
  destruct (m h) as [[a|e] h1]; simpl in *; [|exact Hm].
  destruct Hm as (Hlen & Hother & Hcell).
  destruct (Hk a h1) as (Hlen' & Hother' & Hcell').
  split; [lia|]. split.
  - intros l Hl Hne. rewrite Hother' by (auto; lia). now apply Hother.
  - intros o Ho. destruct (Hcell o Ho) as (o1 & Ho1 & Hk1).
    destruct (Hcell' o1 Ho1) as (o2 & Ho2 & Hk2).
    exists o2. split; [exact Ho2 | congruence].
Qed.

Ltac only_at_tac :=
  repeat match goal with
         | |- only_at _ (bind _ _) => apply oa_bind; [|intros ?]
         | |- only_at _ (if ?b then _ else _) => destruct b
         | |- only_at _ (match ?x with _ => _ end) => destruct x
         | |- only_at _ _ =>
             first [ apply oa_ret | apply oa_throw | apply oa_alloc | apply oa_push
                   | apply oa_get_key | apply oa_set_key ]
         end.

Lemma component_descend_only_at pc t : only_at t (component_descend pc (VRef t)).
Proof. unfold component_descend. only_at_tac. Qed.

(** The first half of the loop body on an object that lacks the name: a
    new cell, empty, stored under the name and taken as [target]. *)
Lemma component_target_creates path c pc l o h v h' :
  h !! l = Some o ->
  nonempty (pc_name pc) = true ->
  truthy (obj_get o (key_of_string (pc_name pc))) = false ->
  component_target path c pc (VRef l) h = (Ok v, h') ->
  exists o1,
    obj_set o (key_of_string (pc_name pc)) (VRef (length h)) = Some o1
    /\ v = VRef (length h)
    /\ h' = <[l := o1]>
              (h ++ [if pc_isArray pc then empty_array else empty_object]).
Proof.
  intros Hl Hn Hf.
  assert (Hlt : l < length h) by (eapply lookup_lt_Some; eauto).
  unfold component_target, bind, get_prop, set_prop, get_key, set_key, read_key, alloc.
  rewrite Hn, Hl. simpl. rewrite Hf. simpl.
  destruct (pc_isArray pc); [rewrite Hl; simpl; rewrite Hf; simpl|];
    rewrite lookup_app_l by exact Hlt; rewrite Hl;
    (destruct (obj_set o (key_of_string (pc_name pc)) (VRef (length h))) as [o1|] eqn:Hs;
     [|discriminate]);
    rewrite list_lookup_insert_eq by (rewrite length_app; simpl; lia);
    rewrite (obj_get_set _ _ _ _ Hs);
    intros [= <- <-]; exists o1; auto.
Qed.

Lemma resolve_component_creates path c l o h v h' :
  h !! l = Some o ->
  nonempty (pc_name (parsePathComponent c)) = true ->
  truthy (obj_get o (key_of_string (pc_name (parsePathComponent c)))) = false ->
  resolve_component path c (VRef l) h = (Ok v, h') ->
  exists o1 o',
    h' !! l = Some o1
    /\ obj_get o1 (key_of_string (pc_name (parsePathComponent c))) = VRef (length h)
    /\ h' !! length h = Some o'
    /\ is_array_cell o' = pc_isArray (parsePathComponent c).
Proof.
  intros Hl Hn Hf. unfold resolve_component, bind.
  assert (Hlt : l < length h) by (eapply lookup_lt_Some; eauto).
  destruct (component_target path c (parsePathComponent c) (VRef l) h)
    as [[t|e] h1] eqn:Ht; [|discriminate].
  destruct (component_target_creates _ _ _ _ _ _ _ _ Hl Hn Hf Ht) as (o1 & Hs & -> & ->).
  intros Hd.
  pose proof (component_descend_only_at (parsePathComponent c) (length h)
                (<[l := o1]> (h ++ [if pc_isArray (parsePathComponent c)
                                    then empty_array else empty_object]))) as Hoa.
  rewrite Hd in Hoa. simpl in Hoa. destruct Hoa as (_ & Hother & Hcell).
  rewrite length_insert, length_app in Hother. simpl in Hother.
  exists o1.
  destruct (Hcell (if pc_isArray (parsePathComponent c) then empty_array else empty_object))
    as (o' & Ho' & Hk).
  { rewrite list_lookup_insert_ne by lia. rewrite lookup_app_r by lia.
    now rewrite Nat.sub_diag. }
  exists o'. split.
  - rewrite Hother by lia. apply list_lookup_insert_eq. rewrite length_app. simpl. lia.
  - split; [eapply obj_get_set; eauto|]. split; [exact Ho'|].
    rewrite Hk. now destruct (pc_isArray (parsePathComponent c)).
Qed.

(** Writing to an object that could be read before a cell was allocated
    leaves the new cell as it is. *)
Lemma set_key_fresh v k0 c k x o (h h2 : heap) :
  read_key h v k0 = Ok c -> (forall l, v = VRef l -> l < length h) ->
  set_key v k x (h ++ [o]) = (Ok tt, h2) ->
  h2 !! length h = Some o.
Proof.
  intros _ Hlt. unfold set_key. destruct v as [| | | | |l]; try discriminate.
  specialize (Hlt l eq_refl).
  destruct ((h ++ [o]) !! l) as [ol|]; [|discriminate].
  destruct (obj_set ol k x); [|discriminate]. intros [= <-].
  rewrite list_lookup_insert_ne by lia. rewrite lookup_app_r by lia.
  now rewrite Nat.sub_diag.
Qed.

Lemma read_key_allocated h l k c : read_key h (VRef l) k = Ok c -> l < length h.
Proof.
  simpl. destruct (h !! l) eqn:Hl; [|discriminate]. intros _.
  eapply lookup_lt_Some; eauto.
Qed.

Lemma set_key_length v k x (h h2 : heap) :
  set_key v k x h = (Ok tt, h2) -> length h2 = length h.
Proof.
  unfold set_key. destruct v as [| | | | |l]; try discriminate.
  destruct (h !! l) as [ol|]; [|discriminate].
  destruct (obj_set ol k x); [|discriminate]. intros [= <-]. apply length_insert.
Qed.

(** The first half of the loop body on an object: [target] is what the
    object holds under the name afterwards, the heap being the same when it
    held something before and one new empty cell larger when it did not;
    without a name [target] is the object itself. *)
Lemma component_target_cases path c pc l o h target h1 :
  h !! l = Some o ->
  component_target path c pc (VRef l) h = (Ok target, h1) ->
  if nonempty (pc_name pc) then
    read_prop h1 (VRef l) (pc_name pc) = Ok target
    /\ (if truthy (obj_get o (key_of_string (pc_name pc))) then h1 = h
        else target = VRef (length h)
             /\ h1 !! length h
                = Some (if pc_isArray pc then empty_array else empty_object))
  else target = VRef l /\ h1 = h.
Proof.
  intros Hl Hrun. destruct (nonempty (pc_name pc)) eqn:Hn.
  - destruct (truthy (obj_get o (key_of_string (pc_name pc)))) eqn:Ht.
    + revert Hrun.
      unfold component_target, bind, get_prop, get_key, read_prop, read_key.
      rewrite Hn, Hl. simpl. rewrite Ht. simpl. rewrite Hl.
      intros [= <- <-]. simpl. now rewrite Hl.
    + destruct (component_target_creates _ _ _ _ _ _ _ _ Hl Hn Ht Hrun)
        as (o1 & Hs & -> & ->).
      assert (Hlt : l < length h) by (eapply lookup_lt_Some; eauto).
      split; [|split; [reflexivity|]].
      * unfold read_prop, read_key.
        rewrite list_lookup_insert_eq by (rewrite length_app; simpl; lia).
        f_equal. eapply obj_get_set; eauto.
      * rewrite list_lookup_insert_ne by lia. rewrite lookup_app_r by lia.
        now rewrite Nat.sub_diag.
  - revert Hrun. unfold component_target. rewrite Hn.
    destruct (pc_isArray pc); [discriminate|]. now intros [= <- <-].
Qed.

(** The second half of the loop body: the node it returns is held by
    [target] when it returns, under the index, as the last element or under
    the key of the component; it is the value that [target] held there, or,
    when that was missing, a new empty object. *)
Lemma component_descend_links pc target h v h' :
  component_descend pc target h = (Ok v, h') ->
  if pc_isArray pc then
    match pc_index pc with
    | Some i =>
        read_at h' target i = Ok v
        /\ forall cur, read_at h target i = Ok cur ->
             if nullish cur
             then v = VRef (length h) /\ h' !! length h = Some empty_object
             else v = cur /\ length h' = length h
    | None =>
        v = VRef (length h) /\ h' !! length h = Some empty_object
        /\ exists n, read_prop h' target "length" = Ok (VNum n)
                     /\ read_at h' target (n - 1) = Ok v
    end
  else
    match pc_key pc with
    | Some k =>
        read_prop h' target k = Ok v
        /\ forall cur, read_prop h target k = Ok cur ->
             if truthy cur then v = cur /\ h' = h
             else v = VRef (length h) /\ h' !! length h = Some empty_object
    | None => v = target /\ h' = h
    end.
Proof.
  unfold component_descend, bind, get_at, get_prop, get_key, alloc, ret, throw,
    read_at, read_prop.
  destruct (pc_isArray pc).
  - destruct (pc_index pc) as [i|].
    + destruct (read_key h target (key_of_Z i)) as [cur|e] eqn:Hr; [|discriminate].
      destruct (nullish cur) eqn:Hn.
      * destruct (set_at target i (VRef (length h)) (h ++ [empty_object]))
          as [[[]|e] h2] eqn:Hs; [|discriminate].
        rewrite (read_after_set _ _ _ _ _ Hs). intros [= <- <-].
        split; [eapply read_after_set; exact Hs|].
        intros cur' [= <-]. rewrite Hn. split; [reflexivity|].
        eapply set_key_fresh; [exact Hr| |exact Hs].
        intros l ->. eapply read_key_allocated; eauto.
      * destruct (set_at target i cur h) as [[[]|e] h2] eqn:Hs; [|discriminate].
        rewrite (read_after_set _ _ _ _ _ Hs). intros [= <- <-].
        split; [eapply read_after_set; exact Hs|].
        intros cur' [= <-]. rewrite Hn. split; [reflexivity|].
        eapply set_key_length; eauto.
    + destruct (push target (VRef (length h)) (h ++ [empty_object]))
        as [[[]|e] h2] eqn:Hs; [|discriminate].
      destruct (push_then_last _ _ _ _ Hs) as (n & Hlen & Hlast).
      change (key_of_string "length") with (KName "length").
      rewrite Hlen. simpl. rewrite Hlast. intros [= <- <-].
      split; [reflexivity|]. split; [|exists n; auto].
      revert Hs. unfold push. destruct target as [| | | | |l]; try discriminate.
      destruct (decide (l = length h)) as [->|Hne].
      * rewrite lookup_app_r by lia. rewrite Nat.sub_diag. discriminate.
      * destruct ((h ++ [empty_object]) !! l) as [[[es|] ps]|]; try discriminate.
        destruct (_ <? _)%N; [|discriminate]. intros [= <-].
        rewrite list_lookup_insert_ne by exact Hne. rewrite lookup_app_r by lia.
        now rewrite Nat.sub_diag.
  - destruct (pc_key pc) as [k|]; [|now intros [= <- <-]].
    destruct (read_key h target (key_of_string k)) as [cur|e] eqn:Hr; [|discriminate].
    destruct (truthy cur) eqn:Ht; simpl.
    + rewrite Hr. intros [= <- <-]. split; [exact Hr|].
      intros cur' [= <-]. now rewrite Ht.
    + destruct (set_prop target k (VRef (length h)) (h ++ [empty_object]))
        as [[[]|e] h2] eqn:Hs; [|discriminate].
      rewrite (read_after_set _ _ _ _ _ Hs). intros [= <- <-].
      split; [eapply read_after_set; exact Hs|].
      intros cur' [= <-]. rewrite Ht. split; [reflexivity|].
      eapply set_key_fresh; [exact Hr| |exact Hs].
      intros l ->. eapply read_key_allocated; eauto.
Qed.




(* ----------------------------------------------------------------- *)
(** ** What [updateControlValue] writes, and [reset()] *)

(** *** The values of a cell under reads and writes *)

Section CellValues.
Variable P : val -> Prop.
Hypothesis P_undef : P VUndef.
Hypothesis P_num : forall n, P (VNum n).

Abbreviation holds := (holds P).

Lemma Forall_omap_id es : Forall P (omap id es) <-> Forall holds es.
Proof.
  induction es as [|[v|] es IH]; simpl.
  - split; constructor.
  - rewrite !Forall_cons. simpl. tauto.
  - rewrite Forall_cons. simpl. tauto.
Qed.

Lemma obj_vals_Forall o :
  Forall P (obj_vals o)
  <-> Forall P (map snd (props o))
      /\ match elems o with Some es => Forall holds es | None => True end.
Proof.
  unfold obj_vals. rewrite Forall_app.
  destruct (elems o); [now rewrite Forall_omap_id|].
  split; [tauto|]. intros [H _]. split; [exact H|constructor].
Qed.

Lemma rec_get_Forall k (r : Rec val) v :
  Forall P (map snd r) -> rec_get k r = Some v -> P v.
Proof.
  induction r as [|[k' v'] r IH]; simpl; [discriminate|].
  rewrite Forall_cons. intros [Hv Hr].
  destruct (String.eqb k k'); [now intros [= <-] | now apply IH].
Qed.

Lemma rec_set_Forall k x (r : Rec val) :
  Forall P (map snd r) -> P x -> Forall P (map snd (rec_set k x r)).
Proof.
  intros Hr Hx. induction r as [|[k' v'] r IH]; simpl.
  - now repeat constructor.
  - simpl in Hr. apply Forall_cons in Hr as [Hv Hr].
    destruct (String.eqb k k'); simpl; constructor; auto.
Qed.

Lemma rec_del_Forall k (r : Rec val) :
  Forall P (map snd r) -> Forall P (map snd (rec_del k r)).
Proof.
  intros Hr. induction r as [|[k' v'] r IH]; simpl; [constructor|].
  simpl in Hr. apply Forall_cons in Hr as [Hv Hr].
  destruct (String.eqb k k'); simpl; [exact Hr | constructor; auto].
Qed.

Lemma table_of_Forall (es acc : Rec val) :
  Forall P (map snd es) -> Forall P (map snd acc) ->
  Forall P (map snd (fold_left (fun r kv => rec_set (fst kv) (snd kv) r) es acc)).
Proof.
  revert acc. induction es as [|[k v] es IH]; intros acc Hes Hacc; simpl; [exact Hacc|].
  simpl in Hes. apply Forall_cons in Hes as [Hv Hes].
  apply IH; [exact Hes|]. now apply rec_set_Forall.
Qed.

Lemma obj_get_holds o k : Forall P (obj_vals o) -> P (obj_get o k).
Proof.
  rewrite obj_vals_Forall. intros [Hp He]. unfold obj_get.
  assert (Hrec : forall s, P (default VUndef (rec_get s (props o)))).
  { intros s. destruct (rec_get s (props o)) eqn:Hg; simpl; [|exact P_undef].
    eapply rec_get_Forall; eauto. }
  destruct (elems o) as [es|]; [|apply Hrec].
  destruct (is_length k); [apply P_num|].
  destruct k as [i|s]; [|apply Hrec].
  destruct (_ <? _)%N; [|exact P_undef].
  destruct (es !! N.to_nat i) as [[v|]|] eqn:Hl; try exact P_undef.
  rewrite Forall_lookup in He. exact (He _ _ Hl).
Qed.

Lemma set_elem_holds i x es : Forall holds es -> P x -> Forall holds (set_elem i x es).
Proof.
  intros He Hx. unfold set_elem. destruct (_ <? _)%nat.
  - now apply Forall_insert.
  - rewrite !Forall_app. split; [exact He|]. split.
    + now apply Forall_replicate.
    + now repeat constructor.
Qed.

Lemma obj_set_holds o k x o' :
  Forall P (obj_vals o) -> P x -> obj_set o k x = Some o' -> Forall P (obj_vals o').
Proof.
  rewrite !obj_vals_Forall. intros [Hp He] Hx. unfold obj_set.
  destruct (elems o) as [es|].
  - destruct (is_length k).
    + destruct x; try discriminate. destruct (_ && _); [|discriminate].
      intros [= <-]. simpl. split; [exact Hp|].
      apply Forall_resize; [exact I | exact He].
    + destruct k as [i|s]; intros [= <-]; simpl.
      * split; [exact Hp | now apply set_elem_holds].
      * split; [now apply rec_set_Forall | exact He].
  - intros [= <-]. simpl. split; [now apply rec_set_Forall | exact I].
Qed.

Lemma obj_delete_holds o k o' :
  Forall P (obj_vals o) -> obj_delete o k = Some o' -> Forall P (obj_vals o').
Proof.
  rewrite !obj_vals_Forall. intros [Hp He]. unfold obj_delete.
  destruct (elems o) as [es|] eqn:Hes.
  - destruct (is_length k); [discriminate|].
    destruct k as [i|s].
    + destruct (_ <? _)%N; intros [= <-]; simpl; rewrite ?Hes.
      * split; [exact Hp | now apply Forall_insert].
      * now split.
    + intros [= <-]. simpl. split; [now apply rec_del_Forall | exact He].
  - intros [= <-]. simpl. split; [now apply rec_del_Forall | exact I].
Qed.
End CellValues.

(** *** Heap computations that respect a set of cells *)

Lemma json_nested_ind (P : json -> Prop) :
  P JNull -> (forall b, P (JBool b)) -> (forall n, P (JNum n)) -> (forall s, P (JStr s)) ->
  (forall ts, Forall P ts -> P (JArr ts)) ->
  (forall ms, Forall (fun kv => P (snd kv)) ms -> P (JObj ms)) ->
  forall t, P t.
Proof.
  intros Hnull Hbool Hnum Hstr Harr Hobj. fix IH 1.
  intros [ |b|n|s|ts|ms];
    [exact Hnull | apply Hbool | apply Hnum | apply Hstr | | ].
  - apply Harr. revert ts. fix IHl 1. intros [|t ts]; constructor; [apply IH | apply IHl].
  - apply Hobj. revert ms. fix IHl 1. intros [|[k t] ms]; constructor; [apply IH | apply IHl].
Qed.

Lemma inside_mono lo hi lo' hi' v :
  inside lo hi v -> lo' <= lo -> hi <= hi' -> inside lo' hi' v.
Proof. destruct v; simpl; auto. lia. Qed.

Lemma block_closed_app lo ext1 ext2 :
  block_closed lo ext1 -> block_closed (lo + length ext1) ext2 ->
  block_closed lo (ext1 ++ ext2).
Proof.
  unfold block_closed. intros H1 H2. rewrite Forall_app, length_app. split.
  - eapply List.Forall_impl; [|exact H1]. intros o Ho.
    eapply List.Forall_impl; [|exact Ho]. intros v Hv.
    eapply inside_mono; [exact Hv|lia|lia].
  - eapply List.Forall_impl; [|exact H2]. intros o Ho.
    eapply List.Forall_impl; [|exact Ho]. intros v Hv.
    eapply inside_mono; [exact Hv|lia|lia].
Qed.

Lemma forM_allocates {A B} (pv : B -> val) (f : A -> M heap B) ts :
  Forall (fun t => allocates pv (f t)) ts ->
  forall h, exists xs ext,
    forM f ts h = (Ok xs, h ++ ext)
    /\ Forall (fun x => inside (length h) (length h + length ext) (pv x)) xs
    /\ block_closed (length h) ext.
Proof.
  induction 1 as [|t ts Ht Hts IH]; intros h; simpl.
  - exists [], []. rewrite app_nil_r. repeat split; constructor.
  - unfold bind. destruct (Ht h) as (x & ext1 & -> & Hx & Hb1).
    destruct (IH (h ++ ext1)) as (xs & ext2 & -> & Hxs & Hb2).
    exists (x :: xs), (ext1 ++ ext2). rewrite app_assoc. split; [reflexivity|].
    rewrite length_app in *. split.
    + constructor; [eapply inside_mono; [exact Hx|lia|lia]|].
      eapply List.Forall_impl; [|exact Hxs]. intros y Hy.
      eapply inside_mono; [exact Hy|lia|lia].
    + now apply block_closed_app.
Qed.

Lemma allocates_parent {B} (pv : B -> val) (xs : list B) (parent : list B -> obj) h ext :
  Forall (fun x => inside (length h) (length h + length ext) (pv x)) xs ->
  block_closed (length h) ext ->
  (forall lo hi, Forall (fun x => inside lo hi (pv x)) xs ->
                 Forall (inside lo hi) (obj_vals (parent xs))) ->
  exists v ext',
    alloc (parent xs) (h ++ ext) = (Ok v, h ++ ext')
    /\ inside (length h) (length h + length ext') v
    /\ block_closed (length h) ext'.
Proof.
  intros Hxs Hb Hp. exists (VRef (length (h ++ ext))), (ext ++ [parent xs]).
  unfold alloc. rewrite app_assoc. split; [reflexivity|].
  rewrite !length_app. simpl. split; [lia|].
  unfold block_closed in *. rewrite Forall_app, length_app. simpl. split.
  - eapply List.Forall_impl; [|exact Hb]. intros o Ho.
    eapply List.Forall_impl; [|exact Ho]. intros v Hv.
    eapply inside_mono; [exact Hv|lia|lia].
  - constructor; [|constructor].
    apply Hp. eapply List.Forall_impl; [|exact Hxs].
    intros x Hx. eapply inside_mono; [exact Hx|lia|lia].
Qed.

Lemma alloc_json_allocates t : allocates (fun v => v) (alloc_json t).
Proof.
  revert t.
  apply (json_nested_ind (fun t => allocates (fun v => v) (alloc_json t)));
    try (intros; intros h; eexists _, []; rewrite app_nil_r; simpl;
         split; [reflexivity|]; split; [exact I | constructor]).
  - intros ts IH h. simpl. unfold bind.
    destruct (forM_allocates (fun v => v) alloc_json ts IH h) as (vs & ext & -> & Hvs & Hb).
    apply (allocates_parent (fun v => v) vs (fun vs => Obj (Some (map Some vs)) [])); auto.
    intros lo hi Hin. apply obj_vals_Forall; simpl. split; [constructor|].
    rewrite List.Forall_map. exact Hin.
  - intros ms IH h.
    assert (IH' : Forall (fun kv : string * json =>
                     allocates snd (let* v := alloc_json (snd kv) in ret (fst kv, v))) ms).
    { eapply List.Forall_impl; [|exact IH]. intros [k t] Ht h0. simpl in *.
      unfold bind, ret. destruct (Ht h0) as (v & ext & -> & Hv & Hb).
      exists (k, v), ext. auto. }
    destruct (forM_allocates snd _ ms IH' h) as (es & ext & Hrun & Hes & Hb).
    change (alloc_json (JObj ms) h)
      with (bind (forM (fun kv => let* v := alloc_json (snd kv) in ret (fst kv, v)) ms)
                 (fun es => alloc (Obj None (fold_left (fun r kv => rec_set (fst kv) (snd kv) r)
                                                       es []))) h).
    unfold bind at 1. rewrite Hrun.
    apply (allocates_parent snd es
             (fun es => Obj None (fold_left (fun r kv => rec_set (fst kv) (snd kv) r) es [])));
      auto.
    intros lo hi Hin. apply obj_vals_Forall; simpl. split; [|exact I].
    apply table_of_Forall; [|constructor]. rewrite List.Forall_map. exact Hin.
Qed.

Section Frame.
Variable K : loc -> Prop.

Lemma agree_refl h : agree K h h.
Proof. intros l _. reflexivity. Qed.

Lemma agree_trans h1 h2 h3 : agree K h1 h2 -> agree K h2 h3 -> agree K h1 h3.
Proof. intros H12 H23 l Hl. rewrite H23, H12; auto. Qed.

Lemma agree_app h ext : (forall l, K l -> l < length h) -> agree K h (h ++ ext).
Proof. intros Hb l Hl. apply lookup_app_l. auto. Qed.

Lemma inside_outside lo hi v :
  (forall l, K l -> l < lo) -> inside lo hi v -> outside K v.
Proof. destruct v; simpl; auto. intros Hb Hl Hk. apply Hb in Hk. lia. Qed.

Lemma separated_app h ext :
  separated K h -> Forall (fun o => Forall (outside K) (obj_vals o)) ext ->
  separated K (h ++ ext).
Proof.
  intros [Hlen Hsep] Hext. split; [intros l Hl; rewrite length_app; apply Hlen in Hl; lia|].
  intros l o Hl Hout. destruct (decide (l < length h)) as [Hlt|Hge].
  - rewrite lookup_app_l in Hl by exact Hlt. eauto.
  - rewrite lookup_app_r in Hl by lia.
    rewrite Forall_lookup in Hext. eauto.
Qed.

Lemma separated_insert h l o' :
  separated K h -> ~ K l -> Forall (outside K) (obj_vals o') ->
  separated K (<[l := o']> h) /\ agree K h (<[l := o']> h).
Proof.
  intros [Hlen Hsep] Hl Ho'. split; [split|].
  - intros l2 Hl2. rewrite length_insert. auto.
  - intros l2 o2 Hl2 Hout. destruct (decide (l = l2)) as [<-|Hne].
    + apply lookup_lt_Some in Hl2 as Hlt. rewrite length_insert in Hlt.
      rewrite list_lookup_insert_eq in Hl2 by exact Hlt. now inversion Hl2; subst.
    + rewrite list_lookup_insert_ne in Hl2 by exact Hne. eauto.
  - intros l2 Hl2. apply list_lookup_insert_ne. congruence.
Qed.

Lemma insert_agree (h : heap) l o' :
  ~ K l -> agree K h (<[l := o']> h).
Proof. intros Hl l2 Hl2. apply list_lookup_insert_ne. congruence. Qed.

Lemma obj_get_outside o k :
  Forall (outside K) (obj_vals o) -> outside K (obj_get o k).
Proof. apply obj_get_holds; [exact I | intros n; exact I]. Qed.

Lemma safe_ret {A} (R : A -> Prop) x : R x -> safe K R (ret x).
Proof.
  intros Hx h Hs. simpl. repeat split; auto using agree_refl; try apply Hs.
  now intros y [= <-].
Qed.

Lemma safe_throw {A} (R : A -> Prop) e : safe K R (throw e).
Proof.
  intros h Hs. simpl. repeat split; auto using agree_refl; try apply Hs. discriminate.
Qed.

Lemma safe_bind {A B} (R : A -> Prop) (R' : B -> Prop) m k :
  safe K R m -> (forall x, R x -> safe K R' (k x)) -> safe K R' (bind m k).
Proof.
  intros Hm Hk h Hs. unfold bind. destruct (Hm h Hs) as (Hs1 & Ha1 & Hr1).
  destruct (m h) as [[x|e] h1]; simpl in *.
  - destruct (Hk x (Hr1 x eq_refl) h1 Hs1) as (Hs2 & Ha2 & Hr2).
    split; [exact Hs2|]. split; [eapply agree_trans; eauto | exact Hr2].
  - split; [exact Hs1|]. split; [exact Ha1 | discriminate].
Qed.

Lemma safe_read {A} (R : A -> Prop) (f : heap -> res A) :
  (forall h x, separated K h -> f h = Ok x -> R x) ->
  safe K R (fun h => (f h, h)).
Proof.
  intros Hf h Hs. simpl. split; [exact Hs|]. split; [apply agree_refl | eauto].
Qed.

Lemma safe_get_key v k : outside K v -> safe K (outside K) (get_key v k).
Proof.
  intros Hv. apply safe_read. intros h x [Hlen Hsep]. unfold read_key.
  destruct v; try (intros [= <-]; exact I); try discriminate.
  - intros [= <-]. apply obj_get_outside.
    apply obj_vals_Forall; simpl. split; [constructor|].
    clear. induction s; simpl; constructor; simpl; auto.
  - destruct (h !! l) as [o|] eqn:Hl; [|discriminate].
    intros [= <-]. apply obj_get_outside. eauto.
Qed.

Lemma safe_set_key v k x :
  outside K v -> outside K x -> safe K (fun _ => True) (set_key v k x).
Proof.
  intros Hv Hx h Hs. unfold set_key.
  destruct v; try (simpl; repeat split; auto using agree_refl; apply Hs).
  destruct (h !! l) as [o|] eqn:Hl;
    [|simpl; repeat split; auto using agree_refl; apply Hs].
  destruct (obj_set o k x) as [o'|] eqn:Ho;
    [|simpl; repeat split; auto using agree_refl; apply Hs].
  simpl. destruct (separated_insert h l o' Hs Hv) as [H1 H2]; [|auto].
  eapply obj_set_holds; eauto. destruct Hs as [_ Hsep]. eauto.
Qed.

Lemma safe_delete_key v k : outside K v -> safe K (fun _ => True) (delete_key v k).
Proof.
  intros Hv h Hs. unfold delete_key.
  destruct v; try (simpl; repeat split; auto using agree_refl; apply Hs).
  - destruct (obj_get _ k); simpl; repeat split; auto using agree_refl; apply Hs.
  - destruct (h !! l) as [o|] eqn:Hl;
      [|simpl; repeat split; auto using agree_refl; apply Hs].
    destruct (obj_delete o k) as [o'|] eqn:Ho;
      [|simpl; repeat split; auto using agree_refl; apply Hs].
    simpl. destruct (separated_insert h l o' Hs Hv) as [H1 H2]; [|auto].
    eapply obj_delete_holds; eauto. destruct Hs as [_ Hsep]. eauto.
Qed.

Lemma safe_push v x :
  outside K v -> outside K x -> safe K (fun _ => True) (push v x).
Proof.
  intros Hv Hx h Hs. unfold push.
  destruct v; try (simpl; repeat split; auto using agree_refl; apply Hs).
  destruct (h !! l) as [[[es|] ps]|] eqn:Hl;
    try (simpl; repeat split; auto using agree_refl; apply Hs).
  destruct (_ <? _)%N; [|simpl; repeat split; auto using agree_refl; apply Hs].
  simpl. destruct (separated_insert h l (Obj (Some (es ++ [Some x])) ps) Hs Hv) as [H1 H2];
    [|auto].
  destruct Hs as [_ Hsep]. specialize (Hsep _ _ Hl Hv).
  apply obj_vals_Forall in Hsep as [Hp He]. apply obj_vals_Forall. simpl in *.
  split; [exact Hp|]. apply Forall_app. split; [exact He|]. now repeat constructor.
Qed.

Lemma safe_alloc o :
  Forall (outside K) (obj_vals o) -> safe K (outside K) (alloc o).
Proof.
  intros Ho h Hs. unfold alloc. simpl. split; [|split].
  - apply separated_app; [exact Hs | now repeat constructor].
  - apply agree_app, Hs.
  - intros x [= <-]. simpl. intros Hk. apply Hs in Hk. lia.
Qed.

Lemma safe_array_filter keep arr :
  outside K arr -> safe K (outside K) (array_filter keep arr).
Proof.
  intros Hv h Hs. unfold array_filter.
  destruct arr; try (simpl; repeat split; auto using agree_refl; try apply Hs; discriminate).
  destruct (h !! l) as [[[es|] ps]|] eqn:Hl;
    try (simpl; repeat split; auto using agree_refl; try apply Hs; discriminate).
  apply safe_alloc; [|exact Hs].
  destruct Hs as [_ Hsep]. specialize (Hsep _ _ Hl Hv).
  apply obj_vals_Forall in Hsep as [_ He]. simpl in He.
  apply obj_vals_Forall; simpl. split; [constructor|].
  rewrite List.Forall_map. simpl.
  apply (proj2 (Forall_omap_id _ es)) in He.
  rewrite List.Forall_forall in *. intros v Hin. apply He.
  apply List.filter_In in Hin. tauto.
Qed.

Lemma safe_jsonClone v : safe K (outside K) (jsonClone v).
Proof.
  intros h Hs. unfold jsonClone.
  destruct (stringify (S (length h)) h v) as [[t|]|];
    try (simpl; repeat split; auto using agree_refl; try apply Hs; discriminate).
  destruct (alloc_json_allocates t h) as (x & ext & -> & Hx & Hb). simpl.
  assert (Hlen : forall l, K l -> l < length h) by apply Hs.
  split; [|split].
  - apply separated_app; [exact Hs|].
    eapply List.Forall_impl; [|exact Hb]. intros o Ho.
    eapply List.Forall_impl; [|exact Ho]. intros y Hy. eapply inside_outside; eauto.
  - now apply agree_app.
  - intros y [= <-]. eapply inside_outside; eauto.
Qed.
End Frame.

(** *** The walk and the callbacks of [updateControlValue] *)

Section Walk.
Variable K : loc -> Prop.

Ltac safe_tac :=
  repeat match goal with
         | |- safe _ _ (bind _ _) => eapply safe_bind; [|intros ? ?]
         | |- safe _ _ (if ?c then _ else _) => destruct c
         | |- safe _ _ (match ?x with _ => _ end) => destruct x
         | |- safe _ _ (ret _) => apply safe_ret; first [assumption | exact I]
         | |- safe _ _ (throw _) => apply safe_throw
         | |- safe _ _ (alloc _) => apply safe_alloc; repeat constructor
         | |- safe _ _ (push _ _) => apply safe_push; assumption
         | |- safe _ _ (array_filter _ _) => apply safe_array_filter; assumption
         | |- safe _ _ (delete_prop _ _) => apply safe_delete_key; assumption
         | |- safe _ _ (get_prop _ _) => apply safe_get_key; assumption
         | |- safe _ _ (get_at _ _) => apply safe_get_key; assumption
         | |- safe _ _ (set_prop _ _ _) => apply safe_set_key; assumption
         | |- safe _ _ (set_at _ _ _) => apply safe_set_key; assumption
         end.

Lemma safe_component_target path c pc ptr :
  outside K ptr -> safe K (outside K) (component_target path c pc ptr).
Proof. intros Hp. unfold component_target. safe_tac. Qed.

Lemma safe_component_descend pc target :
  outside K target -> safe K (outside K) (component_descend pc target).
Proof. intros Hp. unfold component_descend. safe_tac. Qed.

Lemma safe_resolve_loop path components :
  forall ptr, outside K ptr -> safe K (outside K) (resolve_loop path components ptr).
Proof.
  induction components as [|c rest IH]; intros ptr Hp; simpl.
  - now apply safe_ret.
  - destruct (String.eqb c ""); [now apply safe_ret|].
    destruct (String.eqb c "."); [now apply IH|].
    eapply safe_bind with (R := outside K); [|intros x Hx; now apply IH].
    unfold resolve_component. eapply safe_bind with (R := outside K).
    + now apply safe_component_target.
    + intros t Ht. now apply safe_component_descend.
Qed.

Lemma framed_of_safe {A} (R : A -> Prop) m : safe K R m -> framed K m.
Proof.
  intros Hm h Hs. destruct (Hm h Hs) as ([Hlen _] & Ha & _). now split.
Qed.

Lemma framed_bind {A B} (R : A -> Prop) m (k : A -> M heap B) :
  safe K R m -> (forall x, R x -> framed K (k x)) -> framed K (bind m k).
Proof.
  intros Hm Hk h Hs. unfold bind. destruct (Hm h Hs) as (Hs1 & Ha1 & Hr1).
  destruct (m h) as [[x|e] h1]; simpl in *.
  - destruct (Hk x (Hr1 x eq_refl) h1 Hs1) as (Hlen & Ha2).
    split; [exact Hlen | eapply agree_trans; eauto].
  - split; [apply Hs1 | exact Ha1].
Qed.

Lemma framed_set_key v k x : outside K v -> framed K (set_key v k x).
Proof.
  intros Hv h [Hlen Hsep]. unfold set_key.
  destruct v; try (simpl; split; [exact Hlen | apply agree_refl]).
  destruct (h !! l) as [o|]; [|simpl; split; [exact Hlen | apply agree_refl]].
  destruct (obj_set o k x); [|simpl; split; [exact Hlen | apply agree_refl]].
  simpl. split; [intros l2 Hl2; rewrite length_insert; auto | now apply insert_agree].
Qed.

Lemma framed_push v x : outside K v -> framed K (push v x).
Proof.
  intros Hv h [Hlen Hsep]. unfold push.
  destruct v; try (simpl; split; [exact Hlen | apply agree_refl]).
  destruct (h !! l) as [[[es|] ps]|]; try (simpl; split; [exact Hlen | apply agree_refl]).
  destruct (_ <? _)%N; [|simpl; split; [exact Hlen | apply agree_refl]].
  simpl. split; [intros l2 Hl2; rewrite length_insert; auto | now apply insert_agree].
Qed.

Lemma framed_update_insert args ptr :
  outside K ptr -> framed K (update_insert args ptr).
Proof.
  intros Hp. unfold update_insert. destruct (u_isArray args).
  - eapply framed_bind; [now apply safe_get_key|]. intros cur Hcur.
    eapply framed_bind with (R := fun _ => True).
    { safe_tac. }
    intros _ _. destruct (u_isArrRemove args).
    + eapply framed_of_safe with (R := fun _ => True). safe_tac.
    + eapply framed_bind; [now apply safe_get_key|]. intros arr Harr.
      now apply framed_push.
  - now apply framed_set_key.
Qed.
End Walk.

(** *** The operations of the context *)

Lemma liftH_run {A} (m : M heap A) (w : world FHContext ctx_event) :
  liftH m w = (fst (m (w_heap w)), World (snd (m (w_heap w))) (w_self w) (w_trace w)).
Proof. unfold liftH, zoom. simpl. destruct (m (w_heap w)); reflexivity. Qed.

Lemma extends_jsonClone v : extends (jsonClone v).
Proof.
  intros h. unfold jsonClone.
  destruct (stringify (S (length h)) h v) as [[t|]|];
    try (exists []; simpl; now rewrite app_nil_r).
  destruct (alloc_json_allocates t h) as (x & ext & -> & _). now exists ext.
Qed.

Section World.
Variables (K : loc -> Prop) (d dat : val).

Lemma wsafe_liftH {A} (R : A -> Prop) m :
  safe K R m -> wsafe K d dat R (liftH m).
Proof.
  intros Hm w Hs Hr. rewrite liftH_run. simpl.
  destruct (Hm _ Hs) as (H1 & H2 & H3). auto.
Qed.

Lemma wsafe_self :
  wsafe K d dat (fun c => ref_data c = d /\ fh_data c = dat) self.
Proof.
  intros w Hs Hr. simpl. split; [exact Hs|]. split; [apply agree_refl|].
  split; [exact Hr|]. now intros c [= <-].
Qed.

Lemma wframed_liftH {A} (m : M heap A) :
  framed K m -> wframed K d dat (liftH m).
Proof.
  intros Hm w Hs Hr. rewrite liftH_run. simpl. destruct (Hm _ Hs). auto.
Qed.

Lemma wframed_bind_safe {A B} (R : A -> Prop) (m : CM A) (k : A -> CM B) :
  wsafe K d dat R m -> (forall x, R x -> wframed K d dat (k x)) ->
  wframed K d dat (bind m k).
Proof.
  intros Hm Hk w Hs Hr. unfold bind. destruct (Hm w Hs Hr) as (Hs1 & Ha1 & Hr1 & HR).
  destruct (m w) as [[x|e] w1]; simpl in *.
  - destruct (Hk x (HR x eq_refl) w1 Hs1 Hr1) as (Hlen & Ha2 & Hr2).
    split; [exact Hlen|]. split; [eapply agree_trans; eauto | exact Hr2].
  - split; [apply Hs1|]. now split.
Qed.

Lemma wframed_bind_ext {A B} (m : CM A) (k : A -> CM B) :
  wframed K d dat m -> (forall x, wextends d dat (k x)) ->
  wframed K d dat (bind m k).
Proof.
  intros Hm Hk w Hs Hr. unfold bind. destruct (Hm w Hs Hr) as (Hlen & Ha1 & Hr1).
  destruct (m w) as [[x|e] w1]; simpl in *; [|auto].
  destruct (Hk x w1 Hr1) as ((ext & Hext) & Hr2). rewrite Hext.
  split; [intros l Hl; rewrite length_app; apply Hlen in Hl; lia|].
  split; [eapply agree_trans; [exact Ha1 | now apply agree_app] | exact Hr2].
Qed.

Lemma wextends_same {A} (m : CM A) :
  (forall w, w_heap (snd (m w)) = w_heap w
             /\ ref_data (w_self (snd (m w))) = ref_data (w_self w)
             /\ fh_data (w_self (snd (m w))) = fh_data (w_self w)) ->
  wextends d dat m.
Proof.
  intros Hm w [Hd Hdat]. destruct (Hm w) as (Hh & H1 & H2). split.
  - exists []. now rewrite app_nil_r.
  - split; congruence.
Qed.

Lemma wextends_ret {A} (x : A) : wextends d dat (ret x).
Proof. now apply wextends_same. Qed.

Lemma wextends_readH {A} (f : heap -> res A) : wextends d dat (readH f).
Proof. now apply wextends_same. Qed.

Lemma wextends_trace es : wextends d dat (trace es).
Proof. now apply wextends_same. Qed.

Lemma wextends_liftH {A} (m : M heap A) : extends m -> wextends d dat (liftH m).
Proof.
  intros Hm w Hr. rewrite liftH_run. simpl. split; [apply Hm | exact Hr].
Qed.

Lemma wextends_bind {A B} (m : CM A) (k : A -> CM B) :
  wextends d dat m -> (forall x, wextends d dat (k x)) -> wextends d dat (bind m k).
Proof.
  intros Hm Hk w Hr. unfold bind. destruct (Hm w Hr) as ((ext1 & He1) & Hr1).
  destruct (m w) as [[x|e] w1]; simpl in *; [|eauto].
  destruct (Hk x w1 Hr1) as ((ext2 & He2) & Hr2).
  split; [|exact Hr2]. exists (ext1 ++ ext2). now rewrite He2, He1, app_assoc.
Qed.

Lemma wextends_emit bus name args : wextends d dat (emit bus name args).
Proof.
  unfold emit. apply wextends_bind; [now apply wextends_same|].
  intros c. apply wextends_trace.
Qed.

Lemma wextends_emit_fields entries :
  forall q, wextends d dat (emit_fields entries q).
Proof.
  induction entries as [|[path valDiff] rest IH]; intros q; simpl.
  - apply wextends_ret.
  - apply wextends_bind; [apply wextends_emit | intros _; apply IH].
Qed.

Lemma wextends_forEach {A} (f : A -> CM unit) l :
  (forall x, wextends d dat (f x)) -> wextends d dat (forEach f l).
Proof.
  intros Hf. induction l as [|x l IH]; simpl.
  - apply wextends_ret.
  - apply wextends_bind; [apply Hf | intros _; exact IH].
Qed.

Lemma wextends_triggerUpdate diff : wextends d dat (triggerUpdate diff).
Proof.
  unfold triggerUpdate. destruct (negb (hasDiff diff)); [apply wextends_ret|].
  apply wextends_bind; [now apply wextends_same|]. intros c.
  apply wextends_bind; [apply wextends_liftH, extends_jsonClone|]. intros clone.
  apply wextends_bind; [now apply wextends_same|]. intros _.
  apply wextends_bind; [apply wextends_emit_fields|]. intros q.
  apply wextends_bind; [|intros _; apply wextends_emit].
  apply wextends_forEach. intros scope. apply wextends_emit.
Qed.

(** [updateControlValue] leaves the cells of [K] alone, whatever its
    arguments, when the captured document does not point into [K]. *)
Lemma wframed_updateControlValue args :
  outside K dat -> wframed K d dat (updateControlValue args).
Proof.
  intros Hdat. unfold updateControlValue.
  eapply wframed_bind_safe; [apply wsafe_self|]. intros c [Hd Hc]. rewrite Hc.
  eapply wframed_bind_safe; [apply wsafe_liftH, safe_jsonClone|]. intros odata _.
  destruct (strict_eq (u_value args) VUndef).
  - apply wframed_bind_ext.
    + unfold getDataByPath.
      eapply wframed_bind_safe;
        [apply wsafe_liftH, safe_resolve_loop; exact Hdat|]. intros ptr Hptr.
      apply wframed_bind_ext; [|intros _; apply wextends_ret].
      apply wframed_liftH. eapply framed_of_safe. now apply safe_delete_key.
    + intros _. apply wextends_bind; [apply wextends_readH|].
      intros diff. apply wextends_triggerUpdate.
  - apply wframed_bind_ext.
    + unfold getDataByPath.
      eapply wframed_bind_safe;
        [apply wsafe_liftH, safe_resolve_loop; exact Hdat|]. intros ptr Hptr.
      apply wframed_bind_ext; [|intros _; apply wextends_ret].
      apply wframed_liftH. now apply framed_update_insert.
    + intros _. apply wextends_bind; [apply wextends_readH|].
      intros diff. apply wextends_triggerUpdate.
Qed.
End World.

(** *** [reset()], then [updateControlValue] *)

Lemma jsonClone_allocates v h x h' :
  jsonClone v h = (Ok x, h') ->
  exists ext, h' = h ++ ext
              /\ inside (length h) (length h + length ext) x
              /\ block_closed (length h) ext.
Proof.
  unfold jsonClone. destruct (stringify (S (length h)) h v) as [[t|]|]; try discriminate.
  destruct (alloc_json_allocates t h) as (x' & ext & -> & Hx & Hb).
  intros [= <- <-]. eauto.
Qed.

(** After [reset()] the live document is a block of new cells, followed by
    the block of the copy passed to the listeners. *)
Lemma reset_shape w w1 :
  reset w = (Ok tt, w1) ->
  exists ext1 ext2,
    w_heap w1 = (w_heap w ++ ext1) ++ ext2
    /\ fh_data (w_self w1) = fh_data (w_self w)
    /\ inside (length (w_heap w)) (length (w_heap w) + length ext1) (ref_data (w_self w1))
    /\ block_closed (length (w_heap w)) ext1
    /\ block_closed (length (w_heap w) + length ext1) ext2.
Proof.
  unfold reset, bind, self, set_self. simpl. rewrite liftH_run.
  destruct (jsonClone (ref_initialData (w_self w)) (w_heap w)) as [[dd|e] h1] eqn:E1;
    simpl; [|discriminate].
  rewrite liftH_run. simpl.
  destruct (jsonClone dd h1) as [[copy|e] h2] eqn:E2; simpl; [|discriminate].
  intros [= <-]. simpl.
  destruct (jsonClone_allocates _ _ _ _ E1) as (ext1 & -> & Hd & Hb1).
  destruct (jsonClone_allocates _ _ _ _ E2) as (ext2 & -> & _ & Hb2).
  rewrite length_app in Hb2. exists ext1, ext2. auto.
Qed.

Lemma closed_heap_spec h l o :
  closed_heap h = true -> h !! l = Some o ->
  Forall (fun v => closed_val (length h) v = true) (obj_vals o).
Proof.
  unfold closed_heap. rewrite forallb_forall. intros Hc Hl.
  apply List.Forall_forall. apply forallb_forall. apply Hc.
  apply list_elem_of_In. eapply list_elem_of_lookup_2; eauto.
Qed.

Lemma reset_block (h ext1 ext2 : heap) l o :
  block_closed (length h) ext1 ->
  length h <= l < length h + length ext1 ->
  ((h ++ ext1) ++ ext2) !! l = Some o ->
  Forall (inside (length h) (length h + length ext1)) (obj_vals o).
Proof.
  intros Hb1 Hl Ho.
  rewrite lookup_app_l in Ho by (rewrite length_app; lia).
  rewrite lookup_app_r in Ho by lia.
  unfold block_closed in Hb1. rewrite Forall_lookup in Hb1. eauto.
Qed.

Lemma reach_inside a b h v l :
  (forall l o, a <= l < b -> h !! l = Some o -> Forall (inside a b) (obj_vals o)) ->
  reach h v l -> inside a b v -> a <= l < b.
Proof.
  intros Hblock. induction 1 as [l|l o v l' Hl Hin Hr IH]; intros Hv; [exact Hv|].
  apply IH. specialize (Hblock l o Hv Hl).
  rewrite List.Forall_forall in Hblock. now apply Hblock.
Qed.

(** The entries copied by a spread depend on the spread cell only. *)
Lemma forM_reads v ks h :
  snd (forM (fun k => let* x := get_prop v k in ret (k, x)) ks h) = h.
Proof.
  induction ks as [|k ks IH]; simpl; [reflexivity|].
  unfold bind, get_prop, get_key, ret in *.
  destruct (read_key h v (key_of_string k)); simpl; [|reflexivity].
  destruct (forM _ ks h) as [[xs|e] h'] eqn:E; simpl in *; congruence.
Qed.

Lemma forM_reads_same v ks h1 h2 :
  (forall k, read_key h1 v k = read_key h2 v k) ->
  fst (forM (fun k => let* x := get_prop v k in ret (k, x)) ks h1)
  = fst (forM (fun k => let* x := get_prop v k in ret (k, x)) ks h2).
Proof.
  intros Hr. induction ks as [|k ks IH]; simpl; [reflexivity|].
  pose proof (forM_reads v ks h1) as E1. pose proof (forM_reads v ks h2) as E2.
  unfold bind, get_prop, get_key, ret in *. rewrite Hr.
  destruct (read_key h2 v (key_of_string k)); simpl; [|reflexivity].
  destruct (forM _ ks h1) as [[xs1|e1] h1']; destruct (forM _ ks h2) as [[xs2|e2] h2'];
    simpl in *; congruence.
Qed.

Lemma spread_entries_same v (h1 h2 : heap) :
  (forall l, v = VRef l -> h1 !! l = h2 !! l) ->
  fst (spread_entries v h1) = fst (spread_entries v h2).
Proof.
  intros Hc.
  assert (Hk : read_keys h1 v = read_keys h2 v).
  { destruct v; simpl; try reflexivity. now rewrite (Hc l eq_refl). }
  assert (Hr : forall k, read_key h1 v k = read_key h2 v k).
  { intros k. destruct v; simpl; try reflexivity. now rewrite (Hc l eq_refl). }
  assert (Hgen : forall h, nullish v = false ->
            spread_entries v h
            = match read_keys h v with
              | Ok ks => forM (fun k => let* x := get_prop v k in ret (k, x)) ks h
              | Throw e => (Throw e, h)
              end).
  { intros h Hn. destruct v; try discriminate; reflexivity. }
  destruct (nullish v) eqn:Hn.
  - destruct v; try discriminate; reflexivity.
  - rewrite !Hgen by reflexivity. rewrite Hk.
    destruct (read_keys h2 v); [now apply forM_reads_same | reflexivity].
Qed.

(** What is reachable from a value that points below [n], when the cells
    below [n] point below [n]. *)
Lemma reach_below n (h : heap) v l :
  (forall l o, l < n -> h !! l = Some o ->
               Forall (fun v => closed_val n v = true) (obj_vals o)) ->
  reach h v l -> closed_val n v = true -> l < n.
Proof.
  intros Hcells. induction 1 as [l|l o v l' Hl Hin Hr IH]; simpl; intros Hv.
  - now apply Nat.ltb_lt.
  - apply IH. apply Nat.ltb_lt in Hv. specialize (Hcells l o Hv Hl).
    rewrite List.Forall_forall in Hcells. now apply Hcells.
Qed.

(** A cell held by a reachable cell is reachable. *)
Lemma reach_snoc (h : heap) v l o l' :
  reach h v l -> h !! l = Some o -> In (VRef l') (obj_vals o) -> reach h v l'.
Proof.
  induction 1 as [l|l0 o0 v l Hl0 Hin Hr IH]; intros Hl Hin'.
  - eapply reach_step; [exact Hl | exact Hin' | constructor].
  - eapply reach_step; [exact Hl0 | exact Hin | now apply IH].
Qed.

(** The cells that are not reachable from a value are separated from the
    rest of the heap. *)
Lemma unreachable_separated (h : heap) (dat : val) :
  separated (fun l => l < length h /\ ~ reach h dat l) h
  /\ outside (fun l => l < length h /\ ~ reach h dat l) dat.
Proof.
  split; [split|].
  - now intros l [Hl _].
  - intros l o Hl Hnot. apply List.Forall_forall. intros v Hin.
    destruct v as [| | | | |l']; try exact I. simpl. intros [Hl' Hun].
    apply Hnot. split; [now apply lookup_lt_Some in Hl|].
    intros Hr. apply Hun. eapply reach_snoc; eauto.
  - destruct dat as [| | | | |l0]; try exact I. simpl. intros [_ Hun].
    apply Hun. constructor.
Qed.

(** [updateControlValue] keeps [ref.data] and [data], and writes to cells
    that are reachable from [data] and to new cells only. *)
Lemma updateControlValue_writes args (w : world FHContext ctx_event) :
  ref_data (w_self (snd (updateControlValue args w))) = ref_data (w_self w)
  /\ fh_data (w_self (snd (updateControlValue args w))) = fh_data (w_self w)
  /\ forall l, l < length (w_heap w) -> ~ reach (w_heap w) (fh_data (w_self w)) l ->
               w_heap (snd (updateControlValue args w)) !! l = w_heap w !! l.
Proof.
  destruct (unreachable_separated (w_heap w) (fh_data (w_self w))) as [Hsep Hout].
  destruct (wframed_updateControlValue _ (ref_data (w_self w)) (fh_data (w_self w))
              args Hout w Hsep (conj eq_refl eq_refl)) as (_ & Hagree & Href & Hfh).
  split; [exact Href|]. split; [exact Hfh|].
  intros l Hl Hun. apply Hagree. now split.
Qed.

(** After [reset()] on a context whose heap is closed, the live document is
    allocated and shares no cell with the document captured at
    construction. *)
Lemma reset_documents_apart (w w1 : world FHContext ctx_event) :
  closed_heap (w_heap w) = true ->
  closed_val (length (w_heap w)) (fh_data (w_self w)) = true ->
  reset w = (Ok tt, w1) ->
  forall l, reach (w_heap w1) (ref_data (w_self w1)) l ->
            l < length (w_heap w1) /\ ~ reach (w_heap w1) (fh_data (w_self w1)) l.
Proof.
  intros Hclosed Hdata Hreset l Hr.
  destruct (reset_shape _ _ Hreset) as (ext1 & ext2 & Hh & Hfh & Hd & Hb1 & Hb2).
  assert (Hin : length (w_heap w) <= l < length (w_heap w) + length ext1).
  { eapply reach_inside; [|exact Hr|exact Hd].
    intros l0 o Hl0 Ho. rewrite Hh in Ho. eapply reset_block; eauto. }
  split; [rewrite Hh, !length_app; lia|].
  intros Hr'. rewrite Hfh in Hr'.
  enough (l < length (w_heap w)) by lia.
  eapply reach_below; [|exact Hr'|exact Hdata].
  intros l0 o Hl0 Ho. rewrite Hh, <- app_assoc, lookup_app_l in Ho by exact Hl0.
  eapply closed_heap_spec; eauto.
Qed.




(* ================================================================= *)
(** * Further properties of the code *)

(* ----------------------------------------------------------------- *)
(** ** Property tables *)

Section RecFacts.
Context {A : Type}.
Implicit Types (r : Rec A) (k : string) (v : A).

Lemma rec_get_set k k' v r :
  rec_get k (rec_set k' v r) = if String.eqb k k' then Some v else rec_get k r.
Proof.
  induction r as [|[k0 v0] r IH]; simpl.
  - reflexivity.
  - destruct (String.eqb_spec k' k0) as [->|Hne]; simpl.
    + destruct (String.eqb k k0); reflexivity.
    + destruct (String.eqb_spec k k0) as [->|Hne'].
      * apply not_eq_sym, String.eqb_neq in Hne. now rewrite Hne.
      * exact IH.
Qed.

Lemma rec_get_set_ne k k' v r : k <> k' -> rec_get k (rec_set k' v r) = rec_get k r.
Proof. intros H. rewrite rec_get_set. apply String.eqb_neq in H. now rewrite H. Qed.

Lemma rec_get_In k r : In k (map fst r) <-> exists v, rec_get k r = Some v.
Proof.
  induction r as [|[k0 v0] r IH]; simpl.
  - split; [tauto | intros [v Hv]; discriminate].
  - destruct (String.eqb_spec k k0) as [->|Hne].
    + split; [eauto | now left].
    + rewrite <- IH. split; [intros [H|H]; [congruence | exact H] | tauto].
Qed.

Lemma rec_get_None k r : rec_get k r = None <-> ~ In k (map fst r).
Proof.
  rewrite rec_get_In. destruct (rec_get k r) as [v|].
  - split; [discriminate | intros H; exfalso; eauto].
  - split; [intros _ [v Hv]; discriminate | reflexivity].
Qed.

Lemma rec_set_keys_In k k' v r :
  In k (map fst (rec_set k' v r)) <-> k = k' \/ In k (map fst r).
Proof.
  rewrite !rec_get_In. setoid_rewrite rec_get_set.
  destruct (String.eqb_spec k k') as [->|Hne].
  - split; [now left | eauto].
  - split; [now right | intros [H|H]; [congruence | exact H]].
Qed.

Lemma rec_set_same k v r : rec_get k r = Some v -> rec_set k v r = r.
Proof.
  induction r as [|[k0 v0] r IH]; simpl; [discriminate|].
  destruct (String.eqb_spec k k0) as [->|Hne].
  - now intros [= ->].
  - intros H. now rewrite IH.
Qed.

Lemma rec_set_NoDup k v r : List.NoDup (map fst r) -> List.NoDup (map fst (rec_set k v r)).
Proof.
  induction r as [|[k0 v0] r IH]; simpl; intros Hnd.
  - constructor; [simpl; tauto | constructor].
  - inversion Hnd as [|? ? Hn Hr]; subst.
    destruct (String.eqb_spec k k0) as [->|Hne]; simpl.
    + now constructor.
    + constructor; [|now apply IH].
      rewrite rec_set_keys_In. intros [H|H]; [congruence | contradiction].
Qed.

Lemma rec_keys_perm r : Permutation (rec_keys r) (map fst r).
Proof.
  unfold rec_keys. rewrite js_sort_perm.
  induction (map fst r) as [|k ks IH]; simpl; [constructor|].
  destruct (is_index_key k); simpl.
  - now constructor.
  - rewrite <- Permutation_middle. now constructor.
Qed.

Lemma rec_keys_In k r : In k (rec_keys r) <-> In k (map fst r).
Proof.
  split; apply Permutation_in; [|symmetry]; apply rec_keys_perm.
Qed.

Lemma rec_keys_NoDup r : List.NoDup (map fst r) -> List.NoDup (rec_keys r).
Proof. apply Permutation.Permutation_NoDup. symmetry. apply rec_keys_perm. Qed.

Lemma rec_entries_keys r : map fst (rec_entries r) = rec_keys r.
Proof.
  unfold rec_entries.
  assert (H : forall k, In k (rec_keys r) -> exists v, rec_get k r = Some v).
  { intros k Hk. now apply rec_get_In, rec_keys_In. }
  induction (rec_keys r) as [|k ks IH]; simpl; [reflexivity|].
  destruct (H k (or_introl eq_refl)) as [v Hv]. rewrite Hv. simpl.
  f_equal. apply IH. intros k' Hk'. apply H. now right.
Qed.
End RecFacts.

(** Marking a key: every key but ['__proto__'] is recorded. *)
Lemma rec_mark_keys_In k k' (r : Rec bool) :
  In k (map fst (rec_mark k' r)) <-> (k = k' /\ k <> "__proto__") \/ In k (map fst r).
Proof.
  unfold rec_mark. destruct (String.eqb_spec k' "__proto__") as [->|Hne].
  - tauto.
  - rewrite rec_set_keys_In. intuition congruence.
Qed.

Lemma rec_mark_NoDup k (r : Rec bool) :
  List.NoDup (map fst r) -> List.NoDup (map fst (rec_mark k r)).
Proof.
  unfold rec_mark. destruct (String.eqb k "__proto__"); [auto | apply rec_set_NoDup].
Qed.

Lemma rec_mark_get k k' (r : Rec bool) :
  rec_get k (rec_mark k' r)
  = if String.eqb k k' && negb (String.eqb k "__proto__") then Some true else rec_get k r.
Proof.
  unfold rec_mark. destruct (String.eqb_spec k' "__proto__") as [->|Hne].
  - destruct (String.eqb_spec k "__proto__") as [->|Hk]; [reflexivity|].
    reflexivity.
  - rewrite rec_get_set. destruct (String.eqb_spec k k') as [->|Hk]; [|reflexivity].
    apply String.eqb_neq in Hne. now rewrite Hne.
Qed.

Lemma table_keys_NoDup (l : list string) (acc : Rec bool) :
  List.NoDup (map fst acc) ->
  List.NoDup (map fst (fold_left (fun ex ele => rec_mark ele ex) l acc)).
Proof.
  revert acc. induction l as [|k l IH]; simpl; intros acc H; [exact H|].
  apply IH, rec_mark_NoDup, H.
Qed.

Lemma table_keys_In (l : list string) (acc : Rec bool) k :
  In k (map fst (fold_left (fun ex ele => rec_mark ele ex) l acc))
  <-> (In k l /\ k <> "__proto__") \/ In k (map fst acc).
Proof.
  revert acc. induction l as [|k0 l IH]; simpl; intros acc; [tauto|].
  rewrite IH, rec_mark_keys_In. intuition congruence.
Qed.

(* ----------------------------------------------------------------- *)
(** ** The event bus *)

Lemma emit_to_addListener {P} (bus : EventBus) name fn topic first (args : P) :
  emit_to (addListener name fn bus) topic first args
  = emit_to bus topic first args
    ++ (if String.eqb topic name then [Called fn first args] else []).
Proof.
  unfold emit_to, addListener. rewrite rec_get_set.
  destruct (String.eqb_spec topic name) as [->|Hne].
  - destruct (rec_get name bus) as [fns|]; simpl; [now rewrite map_app | reflexivity].
  - now rewrite app_nil_r.
Qed.

Lemma emit_to_removeListener {P} (bus : EventBus) name fn topic first (args : P) :
  emit_to (removeListener name fn bus) topic first args
  = if String.eqb topic name
    then map (fun g => Called g first args)
             (List.filter (fun g => negb (Nat.eqb g fn)) (default [] (rec_get name bus)))
    else emit_to bus topic first args.
Proof.
  unfold emit_to, removeListener. rewrite rec_get_set.
  now destruct (String.eqb topic name).
Qed.

(** X1. [addListener] and [emit] of [makeEventBus], for a name and a
    topic that are not inherited members of the listener table (for those
    the calls throw): a listener added under [name] is invoked by an
    emission on [name] after every listener that was registered under it
    before, the listeners of ['*'] come after those of the topic, and an
    emission on another topic does not reach it (unless it was added under
    ['*']). *)
Theorem addListener_invoked_last {P} (bus : EventBus) name fn topic (args : P) :
  inherited name = false -> inherited topic = false ->
  bus_emit (addListener name fn bus) topic args
  = Emitted topic args
      :: emit_to bus topic topic args
      ++ (if String.eqb topic name then [Called fn topic args] else [])
      ++ emit_to bus "*" topic args
      ++ (if String.eqb "*" name then [Called fn topic args] else []).
Proof.
  intros _ _. unfold bus_emit. rewrite !emit_to_addListener. now rewrite <- !app_assoc.
Qed.

Lemma addListener_invoked_last_witness :
  bus_emit (addListener "a" 2%nat [("a", [1%nat]); ("*", [3%nat])]) "a" tt
  = [Emitted "a" tt; Called 1%nat "a" tt; Called 2%nat "a" tt; Called 3%nat "a" tt].
Proof.
  exact (addListener_invoked_last [("a", [1%nat]); ("*", [3%nat])] "a" 2%nat "a" tt
           eq_refl eq_refl).
Defined.

(** X2. The function returned by [addListener(name, listener)], for a name
    that is not an inherited member of the listener table: it removes every
    registration of that listener under [name], also the ones made by
    earlier calls, keeps the other listeners of [name] in their order, and
    leaves the other topics alone; [topic] is any topic that an emission
    can read, hence not inherited either. *)
Theorem unsubscribe_removes_every_registration {P} (bus : EventBus) name fn topic first
    (args : P) :
  inherited name = false -> inherited topic = false ->
  emit_to (removeListener name fn (addListener name fn bus)) topic first args
  = if String.eqb topic name
    then map (fun g => Called g first args)
             (List.filter (fun g => negb (Nat.eqb g fn)) (default [] (rec_get name bus)))
    else emit_to bus topic first args.
Proof.
  intros _ _. rewrite emit_to_removeListener.
  destruct (String.eqb_spec topic name) as [->|Hne].
  - unfold addListener. rewrite rec_get_set, String.eqb_refl. simpl.
    rewrite List.filter_app. simpl. rewrite Nat.eqb_refl. simpl. now rewrite app_nil_r.
  - rewrite emit_to_addListener. apply String.eqb_neq in Hne. rewrite Hne.
    now rewrite app_nil_r.
Qed.

Lemma unsubscribe_removes_every_registration_witness :
  emit_to (removeListener "a" 2%nat
             (addListener "a" 2%nat [("a", [2%nat; 1%nat; 2%nat])])) "a" "a" tt
  = [Called 1%nat "a" tt].
Proof.
  exact (unsubscribe_removes_every_registration [("a", [2%nat; 1%nat; 2%nat])]
           "a" 2%nat "a" "a" tt eq_refl eq_refl).
Defined.

(** X3. Adding a listener that is not yet registered under [name] and then
    calling the returned function is a round trip, for a name and a topic
    that are not inherited members of the listener table: every emission
    invokes what it invoked before. *)
Theorem subscribe_unsubscribe_round_trip {P} (bus : EventBus) name fn topic (args : P) :
  inherited name = false -> inherited topic = false ->
  ~ In fn (default [] (rec_get name bus)) ->
  bus_emit (removeListener name fn (addListener name fn bus)) topic args
  = bus_emit bus topic args.
Proof.
  intros _ _ Hfresh.
  assert (Hid : forall l : list handler, ~ In fn l ->
            List.filter (fun g => negb (Nat.eqb g fn)) l = l).
  { induction l as [|g l IH]; simpl; intros Hn; [reflexivity|].
    destruct (Nat.eqb_spec g fn) as [->|Hne]; simpl.
    - exfalso. apply Hn. now left.
    - f_equal. apply IH. intros H. apply Hn. now right. }
  assert (Hone : forall t first,
            emit_to (removeListener name fn (addListener name fn bus)) t first args
            = emit_to bus t first args).
  { intros t first. rewrite emit_to_removeListener, emit_to_addListener.
    destruct (String.eqb_spec t name) as [->|Hne]; [|now rewrite app_nil_r].
    unfold addListener, emit_to. rewrite rec_get_set, String.eqb_refl.
    destruct (rec_get name bus) as [fns|]; simpl in *.
    - rewrite List.filter_app. simpl. rewrite Nat.eqb_refl. simpl.
      rewrite app_nil_r. f_equal. apply Hid, Hfresh.
    - now rewrite Nat.eqb_refl. }
  unfold bus_emit. now rewrite !Hone.
Qed.

Lemma subscribe_unsubscribe_round_trip_witness :
  bus_emit (removeListener "a" 2%nat (addListener "a" 2%nat [("a", [1%nat])])) "a" tt
  = bus_emit [("a", [1%nat])] "a" tt.
Proof.
  apply subscribe_unsubscribe_round_trip; [reflexivity..|simpl].
  intros [H|[]]. discriminate.
Defined.

(* ----------------------------------------------------------------- *)
(** ** [sortString] and [mergeArrays] *)

Lemma string_ltb_asym a b : String.ltb a b = true -> String.ltb b a = false.
Proof.
  intros H. destruct (String.ltb b a) eqn:E; [|reflexivity].
  pose proof (string_ltb_trans _ _ _ H E) as Hc.
  now rewrite string_ltb_irrefl in Hc.
Qed.

(** X4. [sortString] is a consistent comparator: it answers 0 exactly on
    equal arguments, swapping the arguments negates the answer, and the
    order it describes is transitive, with [undefined] below every
    string. *)
Theorem sortString_consistent (a b c : option string) :
  (sortString a b = 0%Z <-> a = b)
  /\ sortString a b = (- sortString b a)%Z
  /\ ((sortString a b <= 0)%Z -> (sortString b c <= 0)%Z -> (sortString a c <= 0)%Z)
  /\ (sortString None b <= 0)%Z.
Proof.
  assert (Hz : forall x y : option string, sortString x y = 0%Z <-> x = y).
  { intros [x|] [y|]; simpl; try (split; [discriminate | congruence]); [|tauto].
    destruct (String.eqb_spec x y) as [->|Hne]; [tauto|].
    destruct (String.ltb x y) eqn:Exy; [split; [discriminate | congruence]|].
    destruct (String.ltb y x) eqn:Eyx; [split; [discriminate | congruence]|].
    exfalso. apply Hne. now apply string_not_ltb_eq. }
  assert (Hle : forall x y : string,
            (sortString (Some x) (Some y) <= 0)%Z <-> x = y \/ String.ltb x y = true).
  { intros x y. simpl.
    destruct (String.eqb_spec x y) as [->|Hne]; [split; [now left | lia]|].
    destruct (String.ltb x y) eqn:Exy; [split; [now right | lia]|].
    destruct (String.ltb y x) eqn:Eyx.
    - split; [lia | intros [H|H]; congruence].
    - exfalso. apply Hne. now apply string_not_ltb_eq. }
  split; [apply Hz|]. split; [|split].
  - destruct a as [x|], b as [y|]; simpl; try reflexivity.
    destruct (String.eqb_spec x y) as [->|Hne].
    + now rewrite String.eqb_refl.
    + apply not_eq_sym in Hne. apply String.eqb_neq in Hne. rewrite Hne.
      destruct (String.ltb x y) eqn:Exy.
      * now rewrite (string_ltb_asym _ _ Exy).
      * now destruct (String.ltb y x).
  - destruct a as [x|], b as [y|], c as [z|];
      try (simpl; lia);
      try (simpl; destruct (String.eqb x z), (String.ltb x z), (String.ltb z x); lia).
    intros Hab Hbc. apply Hle. apply Hle in Hab, Hbc.
    destruct Hab as [->|Hab]; [exact Hbc|].
    destruct Hbc as [->|Hbc]; [now right|].
    right. eapply string_ltb_trans; eassumption.
  - destruct b; simpl; lia.
Qed.

(** X5. [mergeArrays] is the union of its two arguments without
    repetition, less the key ['__proto__'], which marking the table does
    not record: a key is in the result exactly when it is in one of the
    arrays and is not ['__proto__'], and no key is listed twice. *)
Theorem mergeArrays_union (arr1 arr2 : list string) :
  (forall k, In k (mergeArrays arr1 arr2)
             <-> (In k arr1 \/ In k arr2) /\ k <> "__proto__")
  /\ List.NoDup (mergeArrays arr1 arr2).
Proof.
  unfold mergeArrays. split.
  - intros k. rewrite rec_keys_In, !table_keys_In. simpl. tauto.
  - apply rec_keys_NoDup, table_keys_NoDup, table_keys_NoDup. constructor.
Qed.

(* ----------------------------------------------------------------- *)
(** ** The scope collector *)

Lemma js_join_nonempty sep x xs :
  nonempty x = true -> nonempty (js_join sep (x :: xs)) = true.
Proof.
  intros H. destruct x as [|c x]; [discriminate|].
  destruct xs; reflexivity.
Qed.

Lemma addScope_loop_path rounds name : forall parts path q,
  nonempty path = true -> fst (addScope_loop rounds name parts path q) = path.
Proof.
  induction rounds as [|n IH]; intros parts path q Hp; simpl; [reflexivity|].
  destruct parts as [|p parts]; [reflexivity|].
  rewrite Hp. simpl.
  destruct (before_bracket_suffix _); now apply IH.
Qed.

(** The keys written by the loop do not depend on the table. *)
Lemma addScope_loop_keys rounds name : forall parts path,
  exists ks, forall q,
    snd (addScope_loop rounds name parts path q)
    = fold_left (fun q k => rec_mark k q) ks q.
Proof.
  induction rounds as [|n IH]; intros parts path; simpl.
  - now exists [].
  - destruct parts as [|p parts]; [now exists []|].
    destruct (negb (nonempty path)).
    + destruct (IH (removelast (p :: parts)) (js_join "/" (p :: parts))) as [ks Hks].
      destruct (nonempty (default "" name)).
      * exists (js_join "/" (p :: parts)
                 :: (js_join "/" (removelast (p :: parts)) +:+ "/*") :: ks).
        intros q. now rewrite Hks.
      * exists (js_join "/" (p :: parts) :: ks). intros q. now rewrite Hks.
    + destruct (IH (removelast (p :: parts)) path) as [ks Hks].
      destruct (before_bracket_suffix (js_join "/" (p :: parts))) as [pre|].
      * exists (js_join "/" (p :: parts) :: (pre +:+ "/*") :: ks).
        intros q. now rewrite Hks.
      * exists (js_join "/" (p :: parts) :: ks). intros q. now rewrite Hks.
Qed.

Lemma set_all_get ks : forall (q : Rec bool) k,
  rec_get k (fold_left (fun q k => rec_mark k q) ks q)
  = if existsb (String.eqb k) ks && negb (String.eqb k "__proto__")
    then Some true else rec_get k q.
Proof.
  induction ks as [|k0 ks IH]; intros q k; simpl; [reflexivity|].
  rewrite IH, rec_mark_get.
  destruct (String.eqb k k0); simpl; [|reflexivity].
  destruct (String.eqb k "__proto__"); simpl; [|now destruct (existsb _ ks)].
  now rewrite andb_false_r.
Qed.

Lemma set_all_id ks : forall q : Rec bool,
  (forall k, In k ks -> k <> "__proto__" -> rec_get k q = Some true) ->
  fold_left (fun q k => rec_mark k q) ks q = q.
Proof.
  induction ks as [|k0 ks IH]; intros q H; simpl; [reflexivity|].
  assert (E : rec_mark k0 q = q).
  { unfold rec_mark. destruct (String.eqb_spec k0 "__proto__") as [_|Hne]; [reflexivity|].
    apply rec_set_same, H; [now left | exact Hne]. }
  rewrite E. apply IH. intros k Hk. apply H. now right.
Qed.

Lemma set_all_NoDup ks : forall q : Rec bool,
  List.NoDup (map fst q) ->
  List.NoDup (map fst (fold_left (fun q k => rec_mark k q) ks q)).
Proof.
  induction ks as [|k0 ks IH]; intros q H; simpl; [exact H|].
  apply IH, rec_mark_NoDup, H.
Qed.

Lemma addScope_keys scope name :
  exists ks, forall q,
    snd (addScope scope name q) = fold_left (fun q k => rec_mark k q) ks q.
Proof. unfold addScope. apply addScope_loop_keys. Qed.

Lemma nonroot_nonempty s : nonroot s = true -> nonempty s = true.
Proof. unfold nonroot. now intros [H _]%andb_prop. Qed.

(** X6. [addScope] returns the full path: the components of [scope] and
    [name] that are neither empty nor ['.'], joined by ['/'] (the empty
    string when there is none). *)
Theorem addScope_returns_full_path scope name q :
  fst (addScope scope name q)
  = js_join "/" (List.filter nonroot (js_split "/" (joinScopes [Some scope; name]))).
Proof.
  unfold addScope.
  destruct (List.filter nonroot _) as [|p parts] eqn:E; [reflexivity|].
  assert (Hp : nonempty p = true).
  { apply nonroot_nonempty.
    assert (Hin : In p (List.filter nonroot (js_split "/" (joinScopes [Some scope; name]))))
      by (rewrite E; now left).
    now apply List.filter_In in Hin. }
  change (List.length (p :: parts)) with (S (List.length parts)).
  cbn [addScope_loop nonempty negb].
  destruct (nonempty (default "" name));
    apply addScope_loop_path, js_join_nonempty, Hp.
Qed.

(** X7. Adding a scope a second time changes nothing: the collector keeps
    each scope once. *)
Theorem addScope_idempotent scope name q :
  snd (addScope scope name (snd (addScope scope name q))) = snd (addScope scope name q).
Proof.
  destruct (addScope_keys scope name) as [ks Hks].
  rewrite !Hks. apply set_all_id. intros k Hk Hne.
  rewrite set_all_get.
  assert (H : existsb (String.eqb k) ks = true).
  { apply existsb_exists. exists k. split; [exact Hk | apply String.eqb_refl]. }
  apply String.eqb_neq in Hne. now rewrite H, Hne.
Qed.

(** X8. [getScopes] lists no scope twice, however often it was added. *)
Theorem getScopes_no_duplicates scope name q :
  List.NoDup (map fst q) -> List.NoDup (getScopes (snd (addScope scope name q))).
Proof.
  intros H. destruct (addScope_keys scope name) as [ks Hks]. rewrite Hks.
  unfold getScopes.
  eapply Permutation.Permutation_NoDup; [symmetry; apply js_sort_perm|].
  apply rec_keys_NoDup, set_all_NoDup, H.
Qed.

Lemma getScopes_no_duplicates_witness :
  List.NoDup (getScopes (snd (addScope "a/b" None []))).
Proof. apply (getScopes_no_duplicates "a/b" None []). constructor. Defined.

Lemma js_split_lacks sep s : lacks sep s = true -> js_split sep s = [s].
Proof.
  induction s as [|x r IH]; simpl; [reflexivity|].
  intros [Hx Hr]%andb_prop. apply negb_true_iff in Hx. rewrite Hx.
  now rewrite (IH Hr).
Qed.

Lemma addScope_loop_mono rounds name parts path q k :
  rec_get k q = Some true ->
  rec_get k (snd (addScope_loop rounds name parts path q)) = Some true.
Proof.
  intros H. destruct (addScope_loop_keys rounds name parts path) as [ks ->].
  rewrite set_all_get, H. now destruct (_ && _).
Qed.

Lemma rec_mark_true k k' (q : Rec bool) :
  rec_get k q = Some true -> rec_get k (rec_mark k' q) = Some true.
Proof. intros H. rewrite rec_mark_get, H. now destruct (_ && _). Qed.

Lemma rec_mark_eq k (q : Rec bool) :
  k <> "__proto__" -> rec_get k (rec_mark k q) = Some true.
Proof.
  intros H. apply String.eqb_neq in H. now rewrite rec_mark_get, String.eqb_refl, H.
Qed.

Lemma append_cons c a b : String c a +:+ b = String c (a +:+ b).
Proof. reflexivity. Qed.

(** A wildcard key is not ['__proto__']. *)
Lemma wildcard_not_proto s : s +:+ "/*" <> "__proto__".
Proof.
  intros H.
  do 10 (destruct s as [|? s];
         [vm_compute in H; discriminate H
         |rewrite append_cons in H; try discriminate H; injection H as _ H]).
Qed.

Lemma removelast_take {A} (l : list A) : removelast l = take (List.length l - 1) l.
Proof.
  rewrite removelast_firstn_len. f_equal. lia.
Qed.

Lemma addScope_loop_ancestors name : forall rounds parts path q n,
  rounds = List.length parts -> (0 < n <= List.length parts)%nat ->
  js_join "/" (take n parts) <> "__proto__" ->
  rec_get (js_join "/" (take n parts)) (snd (addScope_loop rounds name parts path q))
  = Some true.
Proof.
  induction rounds as [|r IH]; intros parts path q n Hr Hn Hne; [lia|].
  destruct parts as [|p ps]; [discriminate|].
  assert (Hlen : r = List.length (removelast (p :: ps))).
  { rewrite removelast_take, length_take. simpl in *. lia. }
  destruct (Nat.eq_dec n (List.length (p :: ps))) as [->|Hlt].
  - rewrite firstn_all in *.
    cbn [addScope_loop].
    destruct (negb (nonempty path)).
    + destruct (nonempty (default "" name)); apply addScope_loop_mono;
        [apply rec_mark_true|]; now apply rec_mark_eq.
    + destruct (before_bracket_suffix _); apply addScope_loop_mono;
        [apply rec_mark_true|]; now apply rec_mark_eq.
  - assert (Ht : take n (p :: ps) = take n (removelast (p :: ps))).
    { rewrite removelast_take, take_take. f_equal. simpl in *. lia. }
    rewrite Ht in *.
    assert (Hn' : (0 < n <= List.length (removelast (p :: ps)))%nat)
      by (rewrite <- Hlen; simpl in *; lia).
    cbn [addScope_loop].
    destruct (negb (nonempty path)).
    + destruct (nonempty (default "" name)); now apply IH.
    + destruct (before_bracket_suffix _); now apply IH.
Qed.

Lemma addScope_loop_proto name : forall rounds parts path q,
  rec_get "__proto__" (snd (addScope_loop rounds name parts path q))
  = rec_get "__proto__" q.
Proof.
  intros rounds parts path q.
  destruct (addScope_loop_keys rounds name parts path) as [ks ->].
  rewrite set_all_get. simpl. now rewrite andb_false_r.
Qed.

(** X9. [addScope] records every ancestor of the path but ['__proto__']:
    for each non-empty prefix of the components of [scope] and [name], the
    prefix joined by ['/'] is in the collector afterwards, unless it is the
    text ['__proto__'], a key that is never added; with a [name], the
    sibling wildcard [scope/*] is in the collector too. *)
Theorem addScope_records_every_ancestor scope name q :
  let parts := List.filter nonroot (js_split "/" (joinScopes [Some scope; name])) in
  let q' := snd (addScope scope name q) in
  (forall n, (0 < n <= List.length parts)%nat ->
             js_join "/" (take n parts) <> "__proto__" ->
             rec_get (js_join "/" (take n parts)) q' = Some true)
  /\ rec_get "__proto__" q' = rec_get "__proto__" q
  /\ (nonempty (default "" name) = true -> parts <> [] ->
      rec_get (js_join "/" (removelast parts) +:+ "/*") q' = Some true).
Proof.
  intros parts q'. split; [|split].
  - intros n Hn Hne. now apply addScope_loop_ancestors.
  - apply addScope_loop_proto.
  - intros Hname Hparts. subst q'. unfold addScope. fold parts.
    destruct parts as [|p ps]; [contradiction|].
    change (List.length (p :: ps)) with (S (List.length ps)).
    cbn [addScope_loop nonempty negb]. rewrite Hname.
    apply addScope_loop_mono, rec_mark_eq, wildcard_not_proto.
Qed.

Lemma addScope_records_every_ancestor_witness :
  rec_get "a/b" (snd (addScope "a/b" (Some "c") [])) = Some true
  /\ rec_get "a/b/*" (snd (addScope "a/b" (Some "c") [])) = Some true.
Proof.
  split.
  - apply (proj1 (addScope_records_every_ancestor "a/b" (Some "c") []) 2%nat).
    + simpl. lia.
    + discriminate.
  - apply (proj2 (proj2 (addScope_records_every_ancestor "a/b" (Some "c") []))).
    + reflexivity.
    + discriminate.
Defined.

(** X10. For a field of the root (no scope, a one-component name other
    than ['__proto__']) the collector holds the field and, as its sibling
    wildcard, the key ['/*']: the scope part in front of the slash is
    empty.  For the name ['__proto__'] it holds the wildcard only. *)
Theorem addScope_root_field name :
  (nonroot name = true -> lacks "/" name = true -> name <> "__proto__" ->
   addScope "." (Some name) [] = (name, [(name, true); ("/*", true)]))
  /\ addScope "." (Some "__proto__") [] = ("__proto__", [("/*", true)]).
Proof.
  split; [|reflexivity].
  intros Hn Hl Hp. unfold addScope, joinScopes. simpl omap.
  fold (nonroot name). rewrite Hn. simpl js_join.
  rewrite (js_split_lacks _ _ Hl). simpl List.filter. rewrite Hn.
  cbn [List.length addScope_loop js_join removelast nonempty negb default id].
  rewrite (nonroot_nonempty _ Hn).
  unfold rec_mark. apply String.eqb_neq in Hp. rewrite Hp.
  cbn [rec_set]. change ("" +:+ "/*") with "/*".
  destruct (String.eqb_spec "/*" name) as [<-|Hne]; [discriminate|].
  reflexivity.
Qed.

Lemma addScope_root_field_witness :
  addScope "." (Some "email") [] = ("email", [("email", true); ("/*", true)]).
Proof. apply (proj1 (addScope_root_field "email")); [reflexivity..|discriminate]. Defined.

(* ----------------------------------------------------------------- *)
(** ** [blur] *)

Lemma emissions_app {P} (t t' : list (bus_event P)) :
  emissions (t ++ t') = emissions t ++ emissions t'.
Proof. apply omap_app. Qed.

Lemma emissions_emit_to {P} bus name first (args : P) :
  emissions (emit_to bus name first args) = [].
Proof.
  unfold emit_to. destruct (rec_get name bus) as [fns|]; [|reflexivity].
  induction fns; simpl; auto.
Qed.

Lemma emissions_bus_emit {P} bus name (args : P) :
  emissions (bus_emit bus name args) = [name].
Proof.
  unfold bus_emit. change (emissions (Emitted name args :: ?t)) with (name :: emissions t).
  now rewrite emissions_app, !emissions_emit_to.
Qed.

Section BlurFacts.
Variable stops : handler -> string -> bool.

Lemma blur_loop_cons bus path s qs evt :
  blur_loop stops bus evt (s :: qs) path
  = if default false evt then ([], evt)
    else
      let calls := bus_emit bus s (BlurArgs (bool_decide (is_Some evt)) path) in
      let r := blur_loop stops bus
                 (option_map (fun stopped => stopped || stops_any stops calls) evt) qs path in
      (calls ++ fst r, snd r).
Proof.
  cbn [blur_loop]. destruct (default false evt); [reflexivity|].
  unfold blur_emit. cbv zeta. now destruct (blur_loop stops bus _ qs path).
Qed.

(** The loop emits a prefix of the scopes; it stops short only on a stopped
    event, and without an event it never stops. *)
Lemma blur_loop_spec bus path : forall qscopes evt,
  exists done rest,
    qscopes = done ++ rest
    /\ emissions (fst (blur_loop stops bus evt qscopes path)) = done
    /\ (rest <> [] -> default false (snd (blur_loop stops bus evt qscopes path)) = true)
    /\ (evt = None -> snd (blur_loop stops bus evt qscopes path) = None)
    /\ (default false evt = true -> done = [] /\ fst (blur_loop stops bus evt qscopes path) = []
        /\ snd (blur_loop stops bus evt qscopes path) = evt).
Proof.
  induction qscopes as [|s qs IH]; intros evt.
  - exists [], []. simpl. repeat split; congruence.
  - rewrite blur_loop_cons. destruct (default false evt) eqn:Est.
    + exists [], (s :: qs). simpl. repeat split; congruence.
    + cbv zeta.
      destruct (IH (option_map (fun stopped => stopped || stops_any stops
                      (bus_emit bus s (BlurArgs (bool_decide (is_Some evt)) path))) evt))
        as (done & rest & Hq & He & Hr & Hn & _).
      exists (s :: done), rest. cbn [fst snd].
      split; [now rewrite Hq|]. split.
      { rewrite emissions_app, emissions_bus_emit, He. reflexivity. }
      split; [exact Hr|]. split.
      { intros ->. now apply Hn. }
      discriminate.
Qed.

Lemma blur_loop_unstopped bus path : forall qscopes evt,
  (evt = None \/ (evt = Some false /\ forall fn topic, stops fn topic = false)) ->
  emissions (fst (blur_loop stops bus evt qscopes path)) = qscopes
  /\ snd (blur_loop stops bus evt qscopes path) = evt.
Proof.
  assert (Hnone : forall calls, (forall fn topic, stops fn topic = false) ->
            stops_any stops calls = false).
  { intros calls H. unfold stops_any. induction calls as [|[|] calls IH]; simpl; auto.
    now rewrite H. }
  induction qscopes as [|s qs IH]; intros evt Hevt; [now split|].
  rewrite blur_loop_cons.
  assert (Hst : default false evt = false) by (destruct Hevt as [->|[-> _]]; reflexivity).
  rewrite Hst. cbv zeta.
  assert (Hsame : option_map (fun stopped => stopped || stops_any stops
                    (bus_emit bus s (BlurArgs (bool_decide (is_Some evt)) path))) evt = evt).
  { destruct Hevt as [->|[-> H]]; [reflexivity|]. simpl. now rewrite Hnone. }
  rewrite Hsame. destruct (IH evt Hevt) as [He Hs]. cbn [fst snd].
  split; [|exact Hs].
  now rewrite emissions_app, emissions_bus_emit, He.
Qed.

(** X11. [blur] goes from the most specific scope outwards and ends with
    the global topic ['*']: what it emits is always a beginning of
    [getScopes()] followed by ['*'], and an event that arrives with its
    propagation already stopped is emitted to nobody, not even to ['*']. *)
Theorem blur_emits_a_prefix (c : FHContext) scope name optEvt :
  let all := getScopes (snd (addScope scope (Some name) [])) ++ ["*"] in
  (exists rest, all = emissions (blur stops c scope (BlurName name) optEvt) ++ rest)
  /\ (optEvt = Some true -> blur stops c scope (BlurName name) optEvt = []).
Proof.
  intros all. subst all. unfold blur.
  destruct (addScope scope (Some name) []) as [path q]. cbn [snd].
  destruct (blur_loop_spec (scopedBlurBus c) path (getScopes q) optEvt)
    as (done & rest & Hq & He & Hr & _ & Hstop).
  destruct (blur_loop stops (scopedBlurBus c) optEvt (getScopes q) path) as [t evt].
  cbn [fst snd] in *. split.
  - destruct (default false evt) eqn:Est.
    + exists (rest ++ ["*"]). now rewrite He, Hq, app_assoc.
    + exists []. rewrite emissions_app. unfold blur_emit. cbn [fst].
      rewrite emissions_bus_emit, He, app_nil_r, Hq.
      destruct rest as [|r rest]; [now rewrite app_nil_r|].
      assert (Hne : r :: rest <> []) by discriminate.
      apply Hr in Hne. congruence.
  - intros ->. destruct (Hstop eq_refl) as (_ & -> & ->). reflexivity.
Qed.

(** X12. Without an event, or with an event that no listener stops, and
    when no collected scope is an inherited member of the listener table
    (emitting on such a scope throws), [blur] emits every collected scope,
    longest first, and then ['*']. *)
Theorem blur_reaches_every_scope (c : FHContext) scope name optEvt :
  forallb (fun s => negb (inherited s)) (getScopes (snd (addScope scope (Some name) [])))
  = true ->
  (optEvt = None \/ (optEvt = Some false /\ forall fn topic, stops fn topic = false)) ->
  emissions (blur stops c scope (BlurName name) optEvt)
  = getScopes (snd (addScope scope (Some name) [])) ++ ["*"].
Proof.
  intros _ Hevt. unfold blur.
  destruct (addScope scope (Some name) []) as [path q]. cbn [snd].
  destruct (blur_loop_unstopped (scopedBlurBus c) path (getScopes q) optEvt Hevt)
    as [He Hs].
  destruct (blur_loop stops (scopedBlurBus c) optEvt (getScopes q) path) as [t evt].
  cbn [fst snd] in *. subst evt.
  assert (Hst : default false optEvt = false) by (destruct Hevt as [->|[-> _]]; reflexivity).
  rewrite Hst, emissions_app. unfold blur_emit. cbn [fst].
  now rewrite emissions_bus_emit, He.
Qed.

(** X13. A listener that stops the propagation ends the walk: when one of
    the listeners invoked for the first scope (those bound to it and those
    bound to ['*'] on the bus) calls [stopPropagation()], the other
    listeners of that emission are still invoked, and nothing else is
    emitted, neither a wider scope nor the global ['*'].  The first scope
    is not an inherited member of the listener table: emitting on such a
    scope throws before any listener is invoked. *)
Theorem blur_stops_after_first_scope (c : FHContext) scope name s rest fn :
  inherited s = false ->
  getScopes (snd (addScope scope (Some name) [])) = s :: rest ->
  In fn (default [] (rec_get s (scopedBlurBus c))
         ++ default [] (rec_get "*" (scopedBlurBus c))) ->
  stops fn s = true ->
  blur stops c scope (BlurName name) (Some false)
  = bus_emit (scopedBlurBus c) s
      (BlurArgs true (fst (addScope scope (Some name) []))).
Proof.
  intros _ Hq Hin Hfn. unfold blur.
  destruct (addScope scope (Some name) []) as [path q]. cbn [fst snd] in *.
  rewrite Hq, blur_loop_cons. cbn [default]. cbv zeta.
  set (calls := bus_emit (scopedBlurBus c) s (BlurArgs _ path)).
  assert (Hany : stops_any stops calls = true).
  { unfold stops_any. apply existsb_exists.
    exists (Called fn s (BlurArgs true path)). split; [|exact Hfn].
    subst calls. unfold bus_emit, emit_to. right.
    apply in_app_iff in Hin. apply in_app_iff.
    destruct Hin as [Hin|Hin]; [left|right].
    - destruct (rec_get s (scopedBlurBus c)); [|destruct Hin].
      apply in_map_iff. now exists fn.
    - destruct (rec_get "*" (scopedBlurBus c)); [|destruct Hin].
      apply in_map_iff. now exists fn. }
  cbn [option_map orb]. rewrite Hany.
  destruct (blur_loop_spec (scopedBlurBus c) path rest (Some true))
    as (done' & rest' & _ & _ & _ & _ & Hstop).
  destruct (Hstop eq_refl) as (_ & Ht & Hs).
  rewrite Hs, Ht. cbn [fst snd default]. now rewrite app_nil_r.
Qed.
End BlurFacts.

Lemma blur_reaches_every_scope_witness :
  emissions (blur (fun _ _ => true)
               {| fh_data := VUndef; ref_data := VUndef; ref_initialData := VUndef;
                  ref_changelog := []; fh_events := []; scopedUpdateBus := [];
                  scopedBlurBus := [("a/bc", [1%nat])] |}
               "a" (BlurName "bc") None)
  = ["a/bc"; "a/*"; "a"; "*"].
Proof.
  exact (blur_reaches_every_scope (fun _ _ => true) _ "a" "bc" None eq_refl
           (or_introl eq_refl)).
Defined.

Lemma blur_stops_after_first_scope_witness :
  emissions (blur (fun fn _ => Nat.eqb fn 1)
               {| fh_data := VUndef; ref_data := VUndef; ref_initialData := VUndef;
                  ref_changelog := []; fh_events := []; scopedUpdateBus := [];
                  scopedBlurBus := [("a/bc", [1%nat; 2%nat]); ("a", [3%nat])] |}
               "a" (BlurName "bc") (Some false))
  = ["a/bc"].
Proof.
  rewrite (blur_stops_after_first_scope (fun fn _ => Nat.eqb fn 1) _ "a" "bc"
             "a/bc" ["a/*"; "a"] 1%nat).
  - reflexivity.
  - reflexivity.
  - reflexivity.
  - simpl. now left.
  - reflexivity.
Defined.

(* ----------------------------------------------------------------- *)
(** ** The three phases of [triggerUpdate] *)

Lemma emit_run b name args (w : world FHContext ctx_event) :
  emit b name args w
  = (Ok tt, World (w_heap w) (w_self w)
              (w_trace w ++ map (pair b) (bus_emit (bus_of b (w_self w)) name args))).
Proof. reflexivity. Qed.

Lemma emissions_tagged {P} (b : bus_id) (t : list (bus_event P)) :
  emissions (map snd (map (pair b) t)) = emissions t.
Proof. rewrite map_map. simpl. now rewrite map_id. Qed.

Lemma tagged_Forall {P} (b : bus_id) (t : list (bus_event P)) :
  Forall (fun e => fst e = b) (map (pair b) t).
Proof. apply Forall_map. simpl. now apply Forall_true. Qed.

Lemma addScope_unnamed_parts scope :
  nonroot scope = true ->
  List.filter nonroot (js_split "/" (joinScopes [Some scope; None]))
  = List.filter nonroot (js_split "/" scope).
Proof.
  intros H. unfold joinScopes. simpl omap. fold (nonroot scope). now rewrite H.
Qed.

Lemma filter_nonroot_root scope :
  nonroot scope = false -> List.filter nonroot (js_split "/" scope) = [].
Proof.
  intros H.
  assert (Hr : scope = "" \/ scope = ".").
  { unfold nonroot in H. destruct scope as [|c r]; [now left|]. right.
    cbn [nonempty andb] in H. now apply negb_false_iff, String.eqb_eq in H. }
  destruct Hr as [->| ->]; reflexivity.
Qed.

Lemma addScope_mono scope name q k :
  rec_get k q = Some true -> rec_get k (snd (addScope scope name q)) = Some true.
Proof. apply addScope_loop_mono. Qed.

Lemma addScope_NoDup scope name q :
  List.NoDup (map fst q) -> List.NoDup (map fst (snd (addScope scope name q))).
Proof.
  intros H. destruct (addScope_keys scope name) as [ks ->]. now apply set_all_NoDup.
Qed.

Lemma addScope_records_path scope q :
  let parts := List.filter nonroot (js_split "/" scope) in
  parts <> [] -> js_join "/" parts <> "__proto__" ->
  rec_get (js_join "/" parts) (snd (addScope scope None q)) = Some true.
Proof.
  intros parts Hne Hproto.
  assert (Hnr : nonroot scope = true).
  { destruct (nonroot scope) eqn:E; [reflexivity|].
    subst parts. now rewrite filter_nonroot_root in Hne. }
  unfold addScope. rewrite (addScope_unnamed_parts _ Hnr). fold parts.
  rewrite <- (firstn_all parts) at 1.
  apply addScope_loop_ancestors; [reflexivity| |now rewrite firstn_all].
  destruct parts; [contradiction | simpl; lia].
Qed.

Lemma emit_fields_run : forall entries q (w : world FHContext ctx_event),
  exists q' t,
    emit_fields entries q w = (Ok q', World (w_heap w) (w_self w) (w_trace w ++ t))
    /\ emissions (map snd t) = map fst entries
    /\ Forall (fun e => fst e = ScopedUpdateBus) t
    /\ (forall k, rec_get k q = Some true -> rec_get k q' = Some true)
    /\ (List.NoDup (map fst q) -> List.NoDup (map fst q'))
    /\ (forall p, In p (map fst entries) -> parent_parts p <> [] ->
                  js_join "/" (parent_parts p) <> "__proto__" ->
                  rec_get (js_join "/" (parent_parts p)) q' = Some true).
Proof.
  induction entries as [|[path vd] rest IH]; intros q w.
  - exists q, []. simpl. rewrite app_nil_r. destruct w.
    repeat split; auto. intros p [].
  - cbn [emit_fields]. unfold bind at 1. rewrite emit_run.
    set (scope := js_join "/" (removelast (js_split "/" path))).
    set (q1 := if negb (String.eqb scope "") && negb (String.eqb scope ".")
               then snd (addScope scope None q) else q).
    set (t1 := map (pair ScopedUpdateBus) _).
    destruct (IH q1 (World (w_heap w) (w_self w) (w_trace w ++ t1)))
      as (q' & t & Hrun & Hem & Hbus & Hmono & Hnd & Hrec).
    assert (Hmono1 : forall k, rec_get k q = Some true -> rec_get k q1 = Some true).
    { intros k Hk. subst q1. destruct (_ && _); [now apply addScope_mono | exact Hk]. }
    exists q', (t1 ++ t). cbn [w_heap w_self w_trace] in Hrun.
    rewrite Hrun, app_assoc. split; [reflexivity|].
    split; [|split; [|split; [|split]]].
    + rewrite map_app, emissions_app, Hem. subst t1.
      now rewrite emissions_tagged, emissions_bus_emit.
    + apply Forall_app. split; [apply tagged_Forall | exact Hbus].
    + intros k Hk. now apply Hmono, Hmono1.
    + intros H. apply Hnd. subst q1.
      destruct (_ && _); [now apply addScope_NoDup | exact H].
    + intros p [Hp|Hin] Hne Hproto; [|now apply Hrec].
      cbn [fst] in Hp. subst p.
      apply Hmono. subst q1. unfold parent_parts in *. fold scope in Hne |- *.
      assert (Hnr : negb (String.eqb scope "") && negb (String.eqb scope ".") = true).
      { destruct (String.eqb_spec scope "") as [E|_]; [now rewrite E in Hne|].
        destruct (String.eqb_spec scope ".") as [E|_]; [now rewrite E in Hne|].
        reflexivity. }
      rewrite Hnr. now apply addScope_records_path.
Qed.

Lemma forEach_emit_scopes diff : forall scopes (w : world FHContext ctx_event),
  exists t,
    forEach (fun scope => emit ScopedUpdateBus scope (ScopeUpdate scope diff)) scopes w
    = (Ok tt, World (w_heap w) (w_self w) (w_trace w ++ t))
    /\ emissions (map snd t) = scopes
    /\ Forall (fun e => fst e = ScopedUpdateBus) t.
Proof.
  induction scopes as [|s scopes IH]; intros w.
  - exists []. simpl. rewrite app_nil_r. destruct w. repeat split; auto.
  - cbn [forEach]. unfold bind at 1. rewrite emit_run.
    set (t1 := map (pair ScopedUpdateBus) _).
    destruct (IH (World (w_heap w) (w_self w) (w_trace w ++ t1))) as (t & Hrun & Hem & Hbus).
    exists (t1 ++ t). cbn [w_heap w_self w_trace] in Hrun.
    rewrite Hrun, app_assoc. split; [reflexivity|]. split.
    + rewrite map_app, emissions_app, Hem. subst t1.
      now rewrite emissions_tagged, emissions_bus_emit.
    + apply Forall_app. split; [apply tagged_Forall | exact Hbus].
Qed.



(* ----------------------------------------------------------------- *)
(** ** [computeDiff]: a reported difference has an entry *)

Lemma rfold_inv {A B} (f : B -> A -> res B) (P : B -> Prop) : forall l acc r,
  (forall acc x acc', P acc -> In x l -> f acc x = Ok acc' -> P acc') ->
  P acc -> rfold f l acc = Ok r -> P r.
Proof.
  induction l as [|x l IH]; simpl; intros acc r Hstep Hacc Hr.
  - now inversion Hr; subst.
  - destruct (f acc x) as [acc'|e] eqn:E; simpl in Hr; [|discriminate].
    apply (IH acc' r); [|eapply Hstep; eauto|exact Hr].
    intros a y a' Ha Hy. apply Hstep; [exact Ha | now right].
Qed.

Lemma rec_set_nonempty {A} k (v : A) r : rec_set k v r <> [].
Proof. destruct r as [|[k' v'] r]; simpl; [|destruct (String.eqb k k')]; discriminate. Qed.

Lemma fold_set_nonempty {A B} (key : B -> string) (value : B -> A) l : forall acc,
  l <> [] \/ acc <> [] ->
  fold_left (fun ds ie => rec_set (key ie) (value ie) ds) l acc <> [].
Proof.
  induction l as [|x l IH]; simpl; intros acc H.
  - now destruct H.
  - apply IH. right. apply rec_set_nonempty.
Qed.

Lemma rec_entries_nonempty {A} (r : Rec A) : r <> [] -> rec_entries r <> [].
Proof.
  intros Hr He. apply Hr.
  assert (Hk : rec_keys r = []) by (rewrite <- rec_entries_keys, He; reflexivity).
  pose proof (rec_keys_perm r) as Hp. rewrite Hk in Hp.
  apply Permutation_nil in Hp. now destruct r.
Qed.

Lemma computeArrayDiff_with_entry cd h oval nval a :
  computeArrayDiff_with cd h oval nval = Ok a -> hasDiff a = true -> diffs a <> [].
Proof.
  unfold computeArrayDiff_with.
  destruct (read_prop h oval "length") as [olen|]; simpl; [|discriminate].
  destruct (read_prop h nval "length") as [nlen|]; simpl; [|discriminate].
  destruct olen; try discriminate. destruct nlen; try discriminate.
  destruct (rfold _ _ _) as [r|] eqn:E; simpl; [|discriminate].
  intros [= <-]. simpl. revert E.
  apply (rfold_inv _ (fun acc => negb (Nat.eqb (snd acc) 0) = true -> fst acc <> []));
    [|discriminate].
  intros acc i acc' Hacc _. unfold array_diff_step.
  destruct (read_at h oval _) as [oi|]; simpl; [|discriminate].
  destruct (read_at h nval _) as [ni|]; simpl; [|discriminate].
  destruct (truthy oi && typeof_object oi && truthy ni && typeof_object ni).
  - destruct (cd oi ni) as [d|]; simpl; [|discriminate].
    destruct (hasDiff d); intros [= <-]; [intros _; apply rec_set_nonempty | exact Hacc].
  - destruct (negb (strict_eq oi ni)); intros [= <-];
      [intros _; apply rec_set_nonempty | exact Hacc].
Qed.

Lemma computeDiff_rec_entry : forall fuel h oval nval curpath diff r,
  computeDiff_rec fuel h oval nval curpath diff = Ok r ->
  (hasDiff (default no_diff diff) = true -> diffs (default no_diff diff) <> []) ->
  hasDiff r = true -> diffs r <> [].
Proof.
  induction fuel as [|f IH]; intros h oval nval curpath diff r; [discriminate|].
  cbn [computeDiff_rec]. intros Hr Hacc.
  destruct (strict_eq oval VNull && strict_eq nval VNull).
  { now inversion Hr; subst. }
  destruct (strict_eq oval VNull || strict_eq nval VNull).
  { inversion Hr; subst. simpl. intros _. apply rec_set_nonempty. }
  destruct (read_keys h oval) as [okeys|]; simpl in Hr; [|discriminate].
  destruct (read_keys h nval) as [nkeys|]; simpl in Hr; [|discriminate].
  revert Hr. apply (rfold_inv _ (fun d => hasDiff d = true -> diffs d <> []));
    [|exact Hacc].
  intros acc okey acc' Ha _.
  destruct (read_prop h oval okey) as [ov|]; simpl; [|discriminate].
  destruct (read_prop h nval okey) as [nv|]; simpl; [|discriminate].
  destruct (is_array h ov && is_array h nv).
  - destruct (computeArrayDiff_with _ h ov nv) as [a|] eqn:Ea; simpl; [|discriminate].
    destruct (hasDiff a) eqn:Hd; intros [= <-]; [|exact Ha].
    intros _. simpl. apply fold_set_nonempty. left.
    apply rec_entries_nonempty. eapply computeArrayDiff_with_entry; eauto.
  - destruct (typeof_object ov && typeof_object nv).
    + intros Hrec. eapply IH; [exact Hrec | exact Ha].
    + destruct (negb (strict_eq ov nv)); intros [= <-]; [|exact Ha].
      intros _. apply rec_set_nonempty.
Qed.

(** X15. When [computeDiff] answers [hasDiff], it lists at least one path:
    started without an accumulator, or with one that has an entry whenever
    its flag is set, the result has its flag set only together with a
    non-empty [diffs].  The same holds for [computeArrayDiff]. *)
Theorem computeDiff_flag_has_entry h oval nval curpath diff r :
  (computeDiff h oval nval curpath diff = Ok r \/ computeArrayDiff h oval nval = Ok r) ->
  (hasDiff (default no_diff diff) = true -> diffs (default no_diff diff) <> []) ->
  hasDiff r = true -> diffs r <> [].
Proof.
  intros [H|H] Hacc.
  - eapply computeDiff_rec_entry; eauto.
  - intros Hd. eapply computeArrayDiff_with_entry; eauto.
Qed.

Lemma computeDiff_flag_has_entry_witness :
  diffs {| hasDiff := true; diffs := [("a", (VNum 1, VNum 2))] |} <> [].
Proof.
  apply (computeDiff_flag_has_entry
           [Obj None [("a", VNum 1)]; Obj None [("a", VNum 2)]]
           (VRef 0) (VRef 1) "" None).
  - left. reflexivity.
  - discriminate.
  - reflexivity.
Defined.

(* ----------------------------------------------------------------- *)
(** ** [computeDiff]: documents that look the same have no diff *)

Lemma rfold_const {A B} (f : B -> A -> res B) acc : forall l,
  (forall x, In x l -> f acc x = Ok acc) -> rfold f l acc = Ok acc.
Proof.
  induction l as [|x l IH]; simpl; intros H; [reflexivity|].
  rewrite H by now left. simpl. apply IH. intros y Hy. apply H. now right.
Qed.

Lemma string_chars_lookup s i x :
  string_chars s !! i = Some (Some x) -> exists c, x = VStr c.
Proof.
  revert i. induction s as [|c r IH]; intros [|i]; simpl; try discriminate.
  - intros [= <-]. eauto.
  - apply IH.
Qed.

(** What is read from a string is a primitive that is not [null]. *)
Lemma string_read_prim s k :
  let x := obj_get (Obj (Some (string_chars s)) []) k in
  typeof_object x = false /\ forall h, is_array h x = false.
Proof.
  unfold obj_get. simpl elems. destruct (is_length k); [now split|].
  destruct k as [i|name]; simpl.
  - destruct (_ <? _)%N; [|now split].
    destruct (string_chars s !! N.to_nat i) as [[x|]|] eqn:E; try now split.
    apply string_chars_lookup in E as [c ->]. now split.
  - now split.
Qed.

Lemma deep_equal_num h n a b : deep_equal h n (VNum a) (VNum b) -> a = b.
Proof. now inversion 1. Qed.

Section EqualDocuments.
Variable h : heap.
Variable f : nat.
Hypothesis IH : forall n oval nval,
  deep_equal h n oval nval -> (n < f)%nat -> oval <> VUndef ->
  forall curpath diff,
    computeDiff_rec f h oval nval curpath diff = Ok (default no_diff diff).

Lemma array_equal_no_diff n l1 l2 o1 o2 :
  h !! l1 = Some o1 -> h !! l2 = Some o2 ->
  is_array_cell o1 = true -> is_array_cell o2 = true ->
  (forall k, deep_equal h n (obj_get o1 k) (obj_get o2 k)) ->
  (n < f)%nat ->
  computeArrayDiff_with (fun o n => computeDiff_rec f h o n "" None) h (VRef l1) (VRef l2)
  = Ok no_diff.
Proof.
  intros H1 H2 Ha1 Ha2 Hk Hn. unfold computeArrayDiff_with, read_prop, read_key.
  rewrite H1, H2. simpl rbind.
  change (key_of_string "length") with (KName "length").
  pose proof (Hk (KName "length")) as Hlen.
  unfold is_array_cell in Ha1, Ha2. unfold obj_get in Hlen |- *.
  destruct (elems o1) as [es1|] eqn:E1; [|discriminate].
  destruct (elems o2) as [es2|] eqn:E2; [|discriminate].
  simpl is_length in *. cbv iota in *.
  apply deep_equal_num in Hlen.
  set (max := if (_ >? _)%Z then _ else _).
  rewrite (rfold_const _ ([], 0%nat)); [reflexivity|].
  intros i _. unfold array_diff_step, read_at, read_key. rewrite H1, H2. simpl rbind.
  pose proof (Hk (key_of_Z (Z.of_nat i))) as Hi.
  set (x := obj_get o1 _) in *. set (y := obj_get o2 _) in *. clearbody x y.
  destruct (truthy x && typeof_object x && truthy y && typeof_object y) eqn:Et.
  - rewrite (IH n _ _ Hi Hn); [reflexivity|].
    intros E. rewrite E in Et. discriminate.
  - destruct Hi as [m v Hv|m a b oa ob Hoa Hob _ _].
    + now rewrite strict_eq_refl.
    + discriminate.
Qed.

Lemma step_equal_no_diff n ov nv prefix okey acc :
  deep_equal h n ov nv -> (n < f)%nat -> (0 < f)%nat ->
  (if is_array h ov && is_array h nv then
     let+ arrdiff :=
       computeArrayDiff_with (fun o n => computeDiff_rec f h o n "" None) h ov nv in
     if hasDiff arrdiff then
       Ok {| hasDiff := true;
             diffs := fold_left
                        (fun ds ie => rec_set (prefix +:+ okey +:+ fst ie) (snd ie) ds)
                        (rec_entries (diffs arrdiff)) (diffs acc) |}
     else Ok acc
   else if typeof_object ov && typeof_object nv then
     computeDiff_rec f h ov nv (prefix +:+ okey) (Some acc)
   else if negb (strict_eq ov nv) then
     Ok {| hasDiff := true; diffs := rec_set (prefix +:+ okey) (ov, nv) (diffs acc) |}
   else Ok acc) = Ok acc.
Proof.
  intros He Hn Hf.
  destruct He as [m v Hv|m a b oa ob Hoa Hob Harr Hk].
  - assert (Hna : is_array h v = false).
    { destruct v; try reflexivity. now destruct (Hv l). }
    rewrite Hna. cbn [andb].
    destruct (typeof_object v) eqn:Et; cbn [andb].
    + destruct v; try discriminate; [|now destruct (Hv l)].
      destruct f as [|f']; [lia|]. reflexivity.
    + now rewrite strict_eq_refl.
  - unfold is_array. rewrite Hoa, Hob.
    unfold is_array_cell in Harr.
    destruct (elems oa) as [ea|] eqn:Ea, (elems ob) as [eb|] eqn:Eb; try discriminate;
      cbn [andb typeof_object].
    + erewrite (array_equal_no_diff m a b oa ob); eauto; try lia;
        unfold is_array_cell; now (rewrite Ea || rewrite Eb).
    + apply (IH (S m)); [|exact Hn | discriminate].
      eapply deep_equal_ref; eauto. unfold is_array_cell. now rewrite Ea, Eb.
Qed.
End EqualDocuments.

Lemma computeDiff_rec_equal : forall fuel h n oval nval,
  deep_equal h n oval nval -> (n < fuel)%nat -> oval <> VUndef ->
  forall curpath diff,
    computeDiff_rec fuel h oval nval curpath diff = Ok (default no_diff diff).
Proof.
  induction fuel as [|f IH]; intros h n oval nval He Hn Hu curpath diff; [lia|].
  cbn [computeDiff_rec].
  destruct He as [m v Hv|m a b oa ob Hoa Hob Harr Hk].
  - destruct v; try (now destruct Hu); try reflexivity.
    + (* a string *)
      cbn [strict_eq andb orb read_keys rbind].
      apply rfold_const. intros okey _. unfold read_prop, read_key. cbn [rbind].
      destruct (string_read_prim s (key_of_string okey)) as [Ht Ha].
      rewrite Ha, Ht. cbn [andb]. now rewrite strict_eq_refl.
    + now destruct (Hv l).
  - cbn [strict_eq andb orb read_keys]. rewrite Hoa, Hob. cbn [rbind].
    apply rfold_const. intros okey _. unfold read_prop, read_key.
    rewrite Hoa, Hob. cbn [rbind].
    destruct f as [|f']; [lia|].
    apply (step_equal_no_diff h (S f') (IH h) m); [apply Hk | lia | lia].
Qed.



(* ----------------------------------------------------------------- *)
(** ** [getDataByPath] on paths without array components *)

Lemma key_text_of_string s : key_text (key_of_string s) = s.
Proof.
  unfold key_of_string, array_index. destruct s as [|c r]; [reflexivity|].
  destruct (all_digits (String c r) 0) as [n|]; [|reflexivity].
  destruct (String.eqb_spec (string_of_N n) (String c r)) as [E|_]; [|reflexivity].
  destruct (n <? 4294967295)%N; [exact E | reflexivity].
Qed.

Lemma key_of_string_inj s s' : key_of_string s = key_of_string s' -> s = s'.
Proof. intros H. rewrite <- (key_text_of_string s), H. apply key_text_of_string. Qed.

Lemma ensure_child_cases p k h v h' :
  ensure_child p k h = (Ok v, h') ->
  (h' = h /\ read_prop h p k = Ok v /\ truthy v = true)
  \/ (exists l ob o' x,
        p = VRef l /\ h !! l = Some ob /\ obj_get ob (key_of_string k) = x
        /\ truthy x = false
        /\ obj_set ob (key_of_string k) (VRef (List.length h)) = Some o'
        /\ h' = <[l := o']> (h ++ [empty_object]) /\ v = VRef (List.length h)).
Proof.
  unfold ensure_child, bind, get_prop, get_key, read_prop.
  destruct (read_key h p (key_of_string k)) as [cur|] eqn:Hr; [|discriminate].
  destruct (truthy cur) eqn:Ht; simpl.
  - rewrite Hr. intros [= <- <-]. now left.
  - unfold set_prop. destruct p as [| | | | |l]; try discriminate.
    unfold set_key. simpl in Hr.
    destruct (h !! l) as [ob|] eqn:Hl; [|discriminate].
    rewrite (lookup_app_l_Some _ _ _ _ Hl).
    destruct (obj_set ob (key_of_string k) (VRef (List.length h))) as [o'|] eqn:Hs;
      [|discriminate].
    intros H. right. exists l, ob, o', cur.
    assert (Hg : read_key (<[l := o']> (h ++ [empty_object])) (VRef l) (key_of_string k)
                 = Ok (VRef (List.length h))).
    { simpl. rewrite list_lookup_insert_eq
        by (rewrite length_app; apply lookup_lt_Some in Hl; lia).
      f_equal. eapply obj_get_set; eauto. }
    rewrite Hg in H. inversion H; subst. inversion Hr; subst. repeat split; auto.
Qed.

Lemma ensure_child_idem p k h v :
  read_prop h p k = Ok v -> truthy v = true -> ensure_child p k h = (Ok v, h).
Proof.
  intros Hr Ht. unfold ensure_child, bind, get_prop, get_key. unfold read_prop in Hr.
  now rewrite Hr, Ht; simpl; rewrite Hr.
Qed.

(** Writing a reference under one key leaves the reference under another
    key in place. *)
Lemma obj_set_other o s n o' s' x :
  obj_set o (key_of_string s) (VRef n) = Some o' -> s <> s' ->
  obj_get o (key_of_string s') = VRef x ->
  obj_get o' (key_of_string s') = VRef x.
Proof.
  intros Hs Hne Hg.
  assert (Hk : key_of_string s <> key_of_string s')
    by (intros E; now apply Hne, key_of_string_inj).
  assert (Ht : key_text (key_of_string s') <> key_text (key_of_string s))
    by (rewrite !key_text_of_string; congruence).
  set (ks := key_of_string s) in *. set (ks' := key_of_string s') in *.
  clearbody ks ks'. clear Hne.
  unfold obj_set in Hs. unfold obj_get in *.
  destruct (elems o) as [es|] eqn:He.
  - destruct (is_length ks) eqn:Hl; [discriminate|].
    destruct (is_length ks') eqn:Hl'; [discriminate|].
    destruct ks as [i|a]; injection Hs as <-; cbn [elems props].
    + destruct ks' as [j|b]; [|exact Hg].
      assert (Hij : N.to_nat j <> N.to_nat i) by (intros E; apply Hk; f_equal; lia).
      destruct (N.ltb_spec j (N.of_nat (length es))) as [Hj|Hj]; [|discriminate].
      unfold set_elem. destruct (Nat.ltb_spec (N.to_nat i) (length es)).
      * rewrite length_insert, list_lookup_insert_ne by congruence.
        destruct (N.ltb_spec j (N.of_nat (length es))); [exact Hg | lia].
      * rewrite lookup_app_l by lia.
        destruct (N.ltb_spec j (N.of_nat (length (es ++ replicate (N.to_nat i - length es) None
                                                      ++ [Some (VRef n)]))))
          as [_|Hn]; [exact Hg|].
        rewrite length_app in Hn. lia.
    + destruct ks' as [j|b]; [exact Hg|].
      simpl in Ht. now rewrite rec_get_set_ne by congruence.
  - injection Hs as <-. cbn [elems props]. now rewrite rec_get_set_ne.
Qed.

(** A slot that holds a reference keeps it: the walk only writes where it
    found nothing. *)
Lemma ensure_child_stable q j x p k h v h' :
  read_prop h q j = Ok (VRef x) ->
  ensure_child p k h = (Ok v, h') ->
  read_prop h' q j = Ok (VRef x).
Proof.
  intros Hq He.
  destruct (ensure_child_cases _ _ _ _ _ He)
    as [(-> & _)|(l & ob & o' & cur & -> & Hl & Hcur & Ht & Hs & -> & ->)]; [exact Hq|].
  unfold read_prop, read_key in *.
  destruct q as [| | | |s|lq]; try exact Hq.
  destruct (h !! lq) as [oq|] eqn:Hlq; [|discriminate].
  destruct (Nat.eq_dec lq l) as [->|Hne].
  - rewrite list_lookup_insert_eq
      by (rewrite length_app; apply lookup_lt_Some in Hl; lia).
    assert (oq = ob) by congruence. subst oq. injection Hq as Hq.
    f_equal. eapply obj_set_other; eauto.
    intros ->. rewrite Hq in Hcur. subst cur. discriminate.
  - rewrite list_lookup_insert_ne by congruence.
    now rewrite (lookup_app_l_Some _ _ _ _ Hlq).
Qed.

Lemma ensure_child_prim p k h v h' :
  (forall l, p <> VRef l) -> ensure_child p k h = (Ok v, h') ->
  h' = h /\ forall l, v <> VRef l.
Proof.
  intros Hp He.
  destruct (ensure_child_cases _ _ _ _ _ He)
    as [(-> & Hr & _)|(l & ob & o' & cur & -> & _)]; [|now destruct (Hp l)].
  split; [reflexivity|]. intros l ->.
  unfold read_prop, read_key in Hr. destruct p; try discriminate.
  - destruct (string_read_prim s (key_of_string k)) as [Ht _].
    injection Hr as Hr. rewrite Hr in Ht. discriminate.
  - now destruct (Hp l0).
Qed.

Lemma walk_prim ks : forall p h v h',
  (forall l, p <> VRef l) -> walk ks p h = (Ok v, h') -> h' = h.
Proof.
  induction ks as [|k ks IH]; simpl; intros p h v h' Hp Hw.
  - now inversion Hw.
  - unfold bind in Hw. destruct (ensure_child p k h) as [[x|e] h1] eqn:He; [|discriminate].
    destruct (ensure_child_prim _ _ _ _ _ Hp He) as [-> Hx]. eapply IH; eauto.
Qed.

Lemma walk_stable q j x ks : forall p h v h',
  read_prop h q j = Ok (VRef x) -> walk ks p h = (Ok v, h') ->
  read_prop h' q j = Ok (VRef x).
Proof.
  induction ks as [|k ks IH]; simpl; intros p h v h' Hq Hw.
  - now inversion Hw; subst.
  - unfold bind in Hw. destruct (ensure_child p k h) as [[y|e] h1] eqn:He; [|discriminate].
    eapply IH; [|exact Hw]. eapply ensure_child_stable; eauto.
Qed.

Lemma walk_idempotent ks : forall p h v h',
  walk ks p h = (Ok v, h') -> walk ks p h' = (Ok v, h').
Proof.
  induction ks as [|k ks IH]; simpl; intros p h v h' Hw.
  - now inversion Hw; subst.
  - unfold bind in Hw |- *.
    destruct (ensure_child p k h) as [[x|e] h1] eqn:He; [|discriminate].
    assert (Hx : read_prop h1 p k = Ok x /\ truthy x = true).
    { destruct (ensure_child_cases _ _ _ _ _ He)
        as [(-> & Hr & Ht)|(l & ob & o' & cur & -> & Hl & _ & _ & Hs & -> & ->)];
        [now split|]. split; [|reflexivity].
      unfold read_prop. simpl.
      rewrite list_lookup_insert_eq
        by (rewrite length_app; apply lookup_lt_Some in Hl; lia).
      f_equal. eapply obj_get_set; eauto. }
    destruct Hx as [Hr Ht].
    assert (Hr' : read_prop h' p k = Ok x).
    { destruct x as [| | | | |lx];
        try (assert (Hh : h' = h1) by (eapply walk_prim; [|exact Hw]; discriminate);
             rewrite Hh; exact Hr).
      eapply walk_stable; eauto. }
    rewrite (ensure_child_idem _ _ _ _ Hr' Ht). eapply IH; eauto.
Qed.

Lemma walk_app ks1 ks2 p h :
  walk (ks1 ++ ks2) p h = (let* x := walk ks1 p in walk ks2 x) h.
Proof.
  revert p h. induction ks1 as [|k ks1 IH]; simpl; intros p h; [reflexivity|].
  unfold bind. destruct (ensure_child p k h) as [[x|e] h1]; [|reflexivity].
  rewrite IH. reflexivity.
Qed.

Lemma component_target_walk path c pc ptr h :
  pc_isArray pc = false ->
  component_target path c pc ptr h
  = walk (if nonempty (pc_name pc) then [pc_name pc] else []) ptr h.
Proof.
  intros Ha. unfold component_target. rewrite Ha.
  destruct (nonempty (pc_name pc)); [|reflexivity].
  simpl. unfold ensure_child, bind, get_prop, get_key.
  destruct (read_key h ptr _) as [cur|]; [|reflexivity].
  destruct (truthy cur); simpl.
  - now destruct (read_key h ptr _).
  - destruct (set_prop ptr (pc_name pc) _ _) as [[[]|] h2]; [|reflexivity].
    now destruct (read_key h2 ptr _).
Qed.

Lemma component_descend_walk pc target h :
  pc_isArray pc = false ->
  component_descend pc target h
  = walk (match pc_key pc with Some k => [k] | None => [] end) target h.
Proof.
  intros Ha. unfold component_descend. rewrite Ha.
  destruct (pc_key pc) as [k|]; [|reflexivity].
  simpl. unfold ensure_child, bind, get_prop, get_key.
  destruct (read_key h target _) as [cur|]; [|reflexivity].
  destruct (truthy cur); simpl.
  - now destruct (read_key h target _).
  - destruct (set_prop target k _ _) as [[[]|] h2]; [|reflexivity].
    now destruct (read_key h2 target _).
Qed.

Lemma resolve_component_walk path c ptr h :
  pc_isArray (parsePathComponent c) = false ->
  resolve_component path c ptr h = walk (component_keys c) ptr h.
Proof.
  intros Ha. unfold resolve_component, component_keys.
  rewrite walk_app. unfold bind.
  rewrite (component_target_walk _ _ _ _ _ Ha).
  destruct (walk _ ptr h) as [[target|e] h1]; [|reflexivity].
  now apply component_descend_walk.
Qed.

Lemma resolve_loop_walk path : forall components ptr h,
  forallb (fun c => negb (pc_isArray (parsePathComponent c))) components = true ->
  resolve_loop path components ptr h = walk (path_keys components) ptr h.
Proof.
  induction components as [|c rest IH]; simpl; intros ptr h Hall; [reflexivity|].
  apply andb_prop in Hall as [Hc Hrest]. apply negb_true_iff in Hc.
  destruct (String.eqb c ""); [reflexivity|].
  destruct (String.eqb c "."); [now apply IH|].
  rewrite walk_app. unfold bind. rewrite (resolve_component_walk _ _ _ _ Hc).
  destruct (walk (component_keys c) ptr h) as [[x|e] h1]; [|reflexivity].
  now apply IH.
Qed.

(** X17. [getDataByPath] is idempotent on a path without array components:
    once it has returned a node, resolving the same path again returns the
    same node and writes nothing. *)
Theorem getDataByPath_idempotent data path (h : heap) v (h' : heap) :
  no_array_component path = true ->
  getDataByPath data path None h = (Ok v, h') ->
  getDataByPath data path None h' = (Ok v, h').
Proof.
  intros Hna. rewrite !getDataByPath_heap, !resolve_loop_walk by exact Hna.
  apply walk_idempotent.
Qed.

Lemma getDataByPath_idempotent_witness :
  getDataByPath (VRef 0) "a/b[k]" None
    [Obj None [("a", VRef 1)]; Obj None [("b", VRef 2)]; Obj None [("k", VRef 3)];
     Obj None []]
  = (Ok (VRef 3),
     [Obj None [("a", VRef 1)]; Obj None [("b", VRef 2)]; Obj None [("k", VRef 3)];
      Obj None []]).
Proof.
  apply (getDataByPath_idempotent (VRef 0) "a/b[k]" [Obj None []]); reflexivity.
Defined.

(* ----------------------------------------------------------------- *)
(** ** The action store: [cascadeEmit] *)

Lemma js_split_nonempty sep s : js_split sep s <> [].
Proof.
  destruct s as [|c r]; simpl; [discriminate|].
  destruct (Ascii.eqb c sep); [discriminate|]. destruct (js_split sep r); discriminate.
Qed.

Lemma js_join_split sep s : js_join (String sep "") (js_split sep s) = s.
Proof.
  induction s as [|c r IH]; [reflexivity|]. simpl js_split.
  destruct (Ascii.eqb_spec c sep) as [->|Hne].
  - destruct (js_split sep r) as [|x xs] eqn:E; [now apply js_split_nonempty in E|].
    change (js_join (String sep "") ("" :: x :: xs))
      with (String sep (js_join (String sep "") (x :: xs))).
    now rewrite IH.
  - destruct (js_split sep r) as [|x xs] eqn:E; [now apply js_split_nonempty in E|].
    rewrite <- IH. destruct xs; reflexivity.
Qed.

Lemma store_emit_run name args (w : world ActionStoreImpl (bus_event store_payload)) :
  store_emit name args w
  = (Ok tt, World (w_heap w) (w_self w)
              (w_trace w ++ bus_emit (st_events (w_self w)) name args)).
Proof. reflexivity. Qed.

Lemma cascade_loop_run args : forall rounds levels
    (w : world ActionStoreImpl (bus_event store_payload)),
  rounds = List.length levels ->
  exists t,
    cascade_loop rounds levels args w
    = (Ok tt, World (w_heap w) (w_self w) (w_trace w ++ t))
    /\ emissions t
       = map (fun k => js_join ":" (take k levels)) (rev (seq 1 (List.length levels))).
Proof.
  induction rounds as [|r IH]; intros levels w Hr.
  - exists []. destruct levels; [|discriminate]. simpl. rewrite app_nil_r.
    now destruct w.
  - destruct levels as [|x xs]; [discriminate|].
    cbn [cascade_loop]. unfold bind. rewrite store_emit_run.
    assert (Hlen : r = List.length (removelast (x :: xs))).
    { rewrite removelast_take, length_take. simpl in *. lia. }
    destruct (IH (removelast (x :: xs))
                 (World (w_heap w) (w_self w)
                    (w_trace w ++ bus_emit (st_events (w_self w))
                                           (js_join ":" (x :: xs)) args)) Hlen)
      as (t & Hrun & Hem).
    cbn [w_heap w_self w_trace] in Hrun. rewrite Hrun, <- app_assoc.
    eexists. split; [reflexivity|].
    rewrite emissions_app, emissions_bus_emit, Hem, <- Hlen.
    replace (List.length (x :: xs)) with (S r) by (simpl in *; lia).
    rewrite seq_S, rev_app_distr. simpl rev. cbn [app map].
    f_equal; [f_equal; symmetry; apply firstn_all2; simpl in *; lia|].
    apply map_ext_in. intros k Hk.
    apply in_rev, in_seq in Hk.
    rewrite removelast_take, take_take. do 2 f_equal. simpl in *. lia.
Qed.

Lemma cascadeEmit_run event args
    (w : world ActionStoreImpl (bus_event store_payload)) :
  exists t,
    cascadeEmit event args w = (Ok tt, World (w_heap w) (w_self w) (w_trace w ++ t))
    /\ emissions t = map (fun k => js_join ":" (take k (js_split ":" event)))
                         (rev (seq 1 (List.length (js_split ":" event)))).
Proof. unfold cascadeEmit. now apply cascade_loop_run. Qed.

(** X18. [cascadeEmit] emits the event and then each shorter prefix of its
    [:]-separated levels, longest first, down to the first level alone: one
    emission per level, the first of them the event as given.  Neither the
    heap nor the store is written. *)
Theorem cascadeEmit_longest_first event args
    (w : world ActionStoreImpl (bus_event store_payload)) :
  let levels := js_split ":" event in
  exists t,
    cascadeEmit event args w = (Ok tt, World (w_heap w) (w_self w) (w_trace w ++ t))
    /\ emissions t = map (fun k => js_join ":" (take k levels))
                         (rev (seq 1 (List.length levels)))
    /\ hd_error (emissions t) = Some event.
Proof.
  intros levels. unfold cascadeEmit. fold levels.
  destruct (cascade_loop_run args (List.length levels) levels w eq_refl) as (t & Hrun & Hem).
  exists t. split; [exact Hrun|]. split; [exact Hem|].
  rewrite Hem. subst levels.
  destruct (js_split ":" event) as [|x xs] eqn:E; [now apply js_split_nonempty in E|].
  change (List.length (x :: xs)) with (S (List.length xs)).
  rewrite seq_S, rev_app_distr. simpl rev. cbn [app map hd_error].
  rewrite firstn_all2 by (simpl; lia).
  rewrite <- E. f_equal. apply js_join_split.
Qed.

(* ----------------------------------------------------------------- *)
(** ** Object spread: [getData], [getState], [updateState] *)

Lemma rec_get_app {A} k (l1 l2 : Rec A) :
  rec_get k (l1 ++ l2)
  = match rec_get k l1 with Some v => Some v | None => rec_get k l2 end.
Proof.
  induction l1 as [|[k0 v0] l1 IH]; simpl; [reflexivity|].
  now destruct (String.eqb k k0).
Qed.

(** Later entries win. *)
Lemma table_fold_get k : forall (es acc : Rec val),
  rec_get k (fold_left (fun r kv => rec_set (fst kv) (snd kv) r) es acc)
  = match rec_get k (rev es) with Some v => Some v | None => rec_get k acc end.
Proof.
  induction es as [|[k0 v0] es IH]; intros acc; simpl; [reflexivity|].
  rewrite IH, rec_get_app, rec_get_set. simpl.
  destruct (rec_get k (rev es)); [reflexivity|].
  now destruct (String.eqb k k0).
Qed.

Lemma rec_get_map_keys {A} (f : string -> A) k ks :
  rec_get k (map (fun k => (k, f k)) ks)
  = if existsb (String.eqb k) ks then Some (f k) else None.
Proof.
  induction ks as [|k0 ks IH]; simpl; [reflexivity|].
  destruct (String.eqb_spec k k0) as [->|_]; [reflexivity | exact IH].
Qed.

Lemma existsb_eqb_In k ks : existsb (String.eqb k) ks = true <-> In k ks.
Proof.
  rewrite existsb_exists. split.
  - intros (x & Hx & E). apply String.eqb_eq in E. now subst.
  - intros H. exists k. split; [exact H | apply String.eqb_refl].
Qed.

Lemma plain_get ps k :
  obj_get (Obj None ps) (key_of_string k) = default VUndef (rec_get k ps).
Proof. unfold obj_get. simpl. now rewrite key_text_of_string. Qed.

Lemma forM_get_plain l ps (h : heap) :
  h !! l = Some (Obj None ps) ->
  forall ks,
    forM (fun k => let* x := get_prop (VRef l) k in ret (k, x)) ks h
    = (Ok (map (fun k => (k, default VUndef (rec_get k ps))) ks), h).
Proof.
  intros Hl. induction ks as [|k ks IH]; simpl; [reflexivity|].
  unfold bind, get_prop, get_key, ret, read_key in *.
  rewrite Hl, plain_get, IH. reflexivity.
Qed.

Lemma spread_entries_plain l ps (h : heap) :
  h !! l = Some (Obj None ps) ->
  spread_entries (VRef l) h
  = (Ok (map (fun k => (k, default VUndef (rec_get k ps))) (rec_keys ps)), h).
Proof.
  intros Hl. unfold spread_entries, bind, own_keys. simpl read_keys. rewrite Hl.
  now apply forM_get_plain.
Qed.

(** The table of the entries of a plain object holds what the object
    holds. *)
Lemma table_of_entries_get (ps : Rec val) k :
  rec_get k (table_of (map (fun k => (k, default VUndef (rec_get k ps))) (rec_keys ps)))
  = rec_get k ps.
Proof.
  unfold table_of. rewrite table_fold_get, <- map_rev, rec_get_map_keys. simpl.
  destruct (existsb (String.eqb k) (rev (rec_keys ps))) eqn:E.
  - apply existsb_eqb_In, in_rev, rec_keys_In, rec_get_In in E as [v Hv].
    now rewrite Hv.
  - destruct (rec_get k ps) as [v|] eqn:Hv; [|reflexivity].
    assert (Hin : In k (rev (rec_keys ps))).
    { apply -> in_rev. apply rec_keys_In, rec_get_In. eauto. }
    apply existsb_eqb_In in Hin. congruence.
Qed.

Lemma spread_plain l ps (h : heap) :
  h !! l = Some (Obj None ps) ->
  exists ps',
    spread (VRef l) h = (Ok (VRef (List.length h)), h ++ [Obj None ps'])
    /\ forall k, rec_get k ps' = rec_get k ps.
Proof.
  intros Hl. unfold spread, bind. rewrite (spread_entries_plain _ _ _ Hl).
  eexists. split; [reflexivity|]. apply table_of_entries_get.
Qed.

(** X19. [getData()] and [getState()] hand out a new top-level object: it
    is a cell that did not exist before, so writing a property of it cannot
    reach the live document or the store's state, and it holds exactly the
    entries of the original (a nested object is the same reference, shared
    with the original).  Nothing else changes. *)
Theorem getData_getState_fresh_copy :
  (forall (w : world FHContext ctx_event) l ps,
     ref_data (w_self w) = VRef l -> w_heap w !! l = Some (Obj None ps) ->
     exists ps',
       getData w = (Ok (VRef (List.length (w_heap w))),
                    World (w_heap w ++ [Obj None ps']) (w_self w) (w_trace w))
       /\ forall k, rec_get k ps' = rec_get k ps)
  /\ (forall (w : world ActionStoreImpl (bus_event store_payload)) l ps,
     st_state (w_self w) = VRef l -> w_heap w !! l = Some (Obj None ps) ->
     exists ps',
       getState w = (Ok (VRef (List.length (w_heap w))),
                     World (w_heap w ++ [Obj None ps']) (w_self w) (w_trace w))
       /\ forall k, rec_get k ps' = rec_get k ps).
Proof.
  split; intros w l ps Hs Hl; destruct (spread_plain _ _ _ Hl) as (ps' & Hsp & Hget);
    exists ps'; (split; [|exact Hget]).
  - unfold getData, bind, self, liftH, zoom. cbn [the_heap with_heap world_has_heap].
    now rewrite Hs, Hsp.
  - unfold getState, bind, self, liftH, zoom. cbn [the_heap with_heap world_has_heap].
    now rewrite Hs, Hsp.
Qed.

Lemma liftH_world {X E A} (m : M heap A) (w : world X E) :
  liftH m w = (fst (m (w_heap w)), World (snd (m (w_heap w))) (w_self w) (w_trace w)).
Proof. unfold liftH, zoom. simpl. destruct (m (w_heap w)); reflexivity. Qed.

Lemma applyReducers_ignored action : forall reducers nstate (h : heap),
  (forall r, In r reducers -> forall s h0, r action s h0 = (Ok VUndef, h0)) ->
  applyReducers reducers action nstate h = (Ok nstate, h).
Proof.
  induction reducers as [|r rest IH]; intros nstate h Hign; simpl; [reflexivity|].
  unfold bind. rewrite (Hign r (or_introl eq_refl)). simpl.
  apply IH. intros r' Hr'. apply Hign. now right.
Qed.

(** X20. [updateState(p)] merges [p] over the state: when the reducers
    ignore the ['state-reset'] action (as [standardOpsReducer] does), the
    new state is a new object in which a key of [p] has the value [p] gives
    it and every other key keeps the value of the old state; the new state
    is returned and announced by one ['state-reset'] emission. *)
Theorem updateState_merges (w : world ActionStoreImpl (bus_event store_payload))
    l ps lp pp :
  (forall r, In r (st_reducers (w_self w)) ->
             forall s h, r (plain_action "state-reset") s h = (Ok VUndef, h)) ->
  st_state (w_self w) = VRef l -> w_heap w !! l = Some (Obj None ps) ->
  w_heap w !! lp = Some (Obj None pp) ->
  exists ps' w',
    updateState (VRef lp) w = (Ok (VRef (List.length (w_heap w))), w')
    /\ st_state (w_self w') = VRef (List.length (w_heap w))
    /\ w_heap w' = w_heap w ++ [Obj None ps']
    /\ (forall k, rec_get k ps'
                  = match rec_get k pp with Some v => Some v | None => rec_get k ps end)
    /\ emissions (drop (List.length (w_trace w)) (w_trace w')) = ["state-reset"].
Proof.
  intros Hign Hs Hl Hlp.
  assert (Hmerge :
    (let* es := spread_entries (VRef l) in
     let* ps := spread_entries (VRef lp) in
     alloc (Obj None (table_of (es ++ ps)))) (w_heap w)
    = (Ok (VRef (List.length (w_heap w))),
       w_heap w ++ [Obj None (table_of
          (map (fun k => (k, default VUndef (rec_get k ps))) (rec_keys ps)
           ++ map (fun k => (k, default VUndef (rec_get k pp))) (rec_keys pp)))])).
  { unfold bind. rewrite (spread_entries_plain _ _ _ Hl), (spread_entries_plain _ _ _ Hlp).
    reflexivity. }
  unfold updateState. unfold bind at 1. unfold self at 1.
  unfold bind at 1. rewrite liftH_world, Hs, Hmerge. cbn [fst snd].
  unfold bind at 1. rewrite liftH_world. cbn [w_heap w_self w_trace].
  rewrite (applyReducers_ignored _ _ _ _ Hign). cbn [fst snd].
  unfold bind at 1. unfold set_state, set_self at 1. cbn [w_heap w_self w_trace].
  unfold bind at 1. rewrite store_emit_run. cbn [w_heap w_self w_trace ret].
  eexists. eexists. split; [reflexivity|]. cbn [w_heap w_self w_trace st_state].
  split; [reflexivity|]. split; [reflexivity|]. split.
  - intros k. unfold table_of. rewrite fold_left_app, table_fold_get.
    rewrite <- map_rev, rec_get_map_keys.
    change (fold_left _ _ []) with
      (table_of (map (fun k => (k, default VUndef (rec_get k ps))) (rec_keys ps))).
    rewrite table_of_entries_get. simpl.
    destruct (existsb (String.eqb k) (rev (rec_keys pp))) eqn:E.
    + apply existsb_eqb_In, in_rev, rec_keys_In, rec_get_In in E as [v Hv].
      now rewrite Hv.
    + destruct (rec_get k pp) as [v|] eqn:Hv; [|reflexivity].
      assert (Hin : In k (rev (rec_keys pp))).
      { apply -> in_rev. apply rec_keys_In, rec_get_In. eauto. }
      apply existsb_eqb_In in Hin. congruence.
  - rewrite drop_app_length. apply emissions_bus_emit.
Qed.

Lemma updateState_merges_witness :
  exists ps' w',
    updateState (VRef 1)
      (World [Obj None [("a", VNum 1); ("b", VNum 2)]; Obj None [("b", VNum 3)]]
         {| st_events := []; st_state := VRef 0; st_reducers := [standardOpsReducer] |} [])
    = (Ok (VRef 2), w')
    /\ st_state (w_self w') = VRef 2
    /\ w_heap w' = [Obj None [("a", VNum 1); ("b", VNum 2)]; Obj None [("b", VNum 3)]]
                   ++ [Obj None ps']
    /\ (forall k, rec_get k ps'
                  = match rec_get k [("b", VNum 3)] with
                    | Some v => Some v
                    | None => rec_get k [("a", VNum 1); ("b", VNum 2)]
                    end)
    /\ emissions (drop 0 (w_trace w')) = ["state-reset"].
Proof.
  apply (updateState_merges
           (World [Obj None [("a", VNum 1); ("b", VNum 2)]; Obj None [("b", VNum 3)]]
              {| st_events := []; st_state := VRef 0;
                 st_reducers := [standardOpsReducer] |} [])
           0%nat [("a", VNum 1); ("b", VNum 2)] 1%nat [("b", VNum 3)]).
  - intros r [<-|[]] s h. reflexivity.
  - reflexivity.
  - reflexivity.
  - reflexivity.
Defined.

(* ----------------------------------------------------------------- *)
(** ** [standardOpsReducer]: [increment] *)

Lemma op_increment_newKeys inc ks : forall s,
  snd (fst (fold_left (op_increment inc) ks s)) = snd (fst s).
Proof.
  induction ks as [|k ks IH]; intros [[cv nk] ch]; simpl; [reflexivity|].
  rewrite IH. unfold op_increment. now destruct (lookup_val k cv).
Qed.

Lemma getDataByPath_root_heap v (h : heap) :
  getDataByPath v "." None h = (Ok v, h).
Proof. reflexivity. Qed.

Lemma with_locals_root {L} (init : L) (nstate : val)
    (f : val -> M (heap * L) unit) (h : heap) :
  with_locals init (getDataByPath nstate "." (Some f)) h
  = with_locals init (let* _ := f nstate in ret nstate) h.
Proof. reflexivity. Qed.

(** X21. An action that only has [increment] is never applied: the reducer
    counts the incremented keys as changes but does not list them in
    [newKeys], so the loop that writes the new values has nothing to write.
    At the root path the reducer answers [undefined], or a new state whose
    own entries are those of the old state, value for value, with an empty
    [__changedKeys]; the old cells are as they were. *)
Theorem increment_alone_is_not_applied inc ls ps (h : heap) v h' :
  h !! ls = Some (Obj None ps) ->
  standardOpsReducer (increment_action inc) (VRef ls) h = (Ok v, h') ->
  v = VUndef
  \/ exists n ps' c ext,
       v = VRef n /\ h' = h ++ ext /\ h' !! n = Some (Obj None ps')
       /\ (forall k, k <> "__innerEvents" -> k <> "__changedKeys" ->
                     rec_get k ps' = rec_get k ps)
       /\ rec_get "__changedKeys" ps' = Some (VRef c)
       /\ h' !! c = Some empty_array.
Proof.
  intros Hl. unfold standardOpsReducer, increment_action.
  cbn [a_type a_path a_customOp a_remove a_append a_set a_increment].
  rewrite String.eqb_refl. cbn [negb default].
  unfold bind at 1. rewrite getDataByPath_root_heap.
  unfold bind at 1. rewrite (spread_entries_plain _ _ _ Hl).
  pose proof (op_increment_newKeys inc (rec_keys inc)
                (table_of (map (fun k => (k, default VUndef (rec_get k ps))) (rec_keys ps)),
                 [], 0%nat)) as Hnk.
  destruct (fold_left (op_increment inc) (rec_keys inc) _) as [[cv nk] ch].
  cbn [fst snd] in Hnk. subst nk.
  destruct (Nat.eqb ch 0); [intros [= <- <-]; now left|].
  change (rec_keys (@nil (string * bool))) with (@nil string).
  unfold bind at 1.
  destruct (spread_plain _ _ _ Hl) as (ps1 & -> & Hps1).
  unfold bind at 1. rewrite with_locals_root.
  cbn [forEach]. unfold with_locals, bind at 1. cbn [ret snd app].
  unfold bind at 1.
  assert (Hl1 : (h ++ [Obj None ps1]) !! List.length h = Some (Obj None ps1))
    by (rewrite lookup_app_r by lia; now rewrite Nat.sub_diag).
  rewrite (spread_entries_plain _ _ _ Hl1).
  unfold bind, alloc_strings, alloc. cbn [map].
  intros [= <- <-]. right.
  eexists. eexists. eexists. eexists.
  split; [reflexivity|]. split; [rewrite <- !app_assoc; reflexivity|].
  rewrite !length_app. cbn [List.length].
  split; [rewrite lookup_app_r by (rewrite !length_app; simpl; lia);
          rewrite !length_app; cbn [List.length];
          replace (_ - _)%nat with 0%nat by lia; reflexivity|].
  split; [|split].
  - intros k Hk1 Hk2. unfold table_of. rewrite fold_left_app. cbn [fold_left fst snd].
    rewrite !rec_get_set_ne by congruence.
    change (fold_left _ _ []) with
      (table_of (map (fun k => (k, default VUndef (rec_get k ps1))) (rec_keys ps1))).
    now rewrite table_of_entries_get.
  - unfold table_of. rewrite fold_left_app. cbn [fold_left fst snd].
    apply rec_get_set_eq.
  - rewrite <- !app_assoc. rewrite lookup_app_r by lia.
    replace (_ - _)%nat with 2%nat by lia. reflexivity.
Qed.

Lemma increment_alone_is_not_applied_witness :
  exists n ps',
    snd (standardOpsReducer (increment_action [("c", 1%Z)]) (VRef 0)
           [Obj None [("c", VNum 3)]]) !! n = Some (Obj None ps')
    /\ rec_get "c" ps' = Some (VNum 3).
Proof.
  destruct (increment_alone_is_not_applied [("c", 1%Z)] 0%nat [("c", VNum 3)]
              [Obj None [("c", VNum 3)]] (VRef 4)
              (snd (standardOpsReducer (increment_action [("c", 1%Z)]) (VRef 0)
                      [Obj None [("c", VNum 3)]])) eq_refl eq_refl)
    as [H|(n & ps' & c & ext & Hv & Hh & Hn & Hk & _)]; [discriminate|].
  exists n, ps'. split; [exact Hn|].
  rewrite Hk by discriminate. reflexivity.
Defined.

(* ----------------------------------------------------------------- *)
(** ** [parsePathComponent] and the root paths of [getDataByPath] *)

Lemma js_split_hd_lacks sep s : lacks sep (hd "" (js_split sep s)) = true.
Proof.
  induction s as [|c r IH]; simpl; [reflexivity|].
  destruct (Ascii.eqb c sep) eqn:E; [reflexivity|].
  destruct (js_split sep r) as [|x xs]; simpl in *; rewrite E; [reflexivity | exact IH].
Qed.

(** X22. A parsed component has one of four shapes: a plain name; a name
    with a key ([name[key]], never array-marked, the key not empty); an
    array without index ([name[]]); an array with index ([name[3]]).  The
    name never contains a bracket, and a component without a bracket is its
    own name. *)
Theorem parsePathComponent_shapes component :
  let pc := parsePathComponent component in
  lacks "[" (pc_name pc) = true
  /\ (pc_key pc = None \/ (pc_isArray pc = false /\ pc_index pc = None
                           /\ pc_key pc <> Some ""))
  /\ (pc_index pc = None \/ pc_isArray pc = true)
  /\ (lacks "[" component = true ->
      pc = {| pc_name := component; pc_isArray := false;
              pc_index := None; pc_key := None |}).
Proof.
  intros pc. subst pc. unfold parsePathComponent.
  pose proof (js_split_hd_lacks "[" component) as Hname.
  split; [|split; [|split]].
  - destruct (js_split "[" component !! 1%nat) as [r|]; [|exact Hname].
    destruct (nonempty r); [|exact Hname].
    destruct (nonempty (hd "" (js_split "]" r))); [|exact Hname].
    destruct (parseInt _); exact Hname.
  - destruct (js_split "[" component !! 1%nat) as [r|]; [|now left].
    destruct (nonempty r); [|now left].
    destruct (nonempty (hd "" (js_split "]" r))) eqn:E; [|now left].
    destruct (parseInt _); [now left|]. right. simpl. repeat split.
    intros [= H]. rewrite H in E. discriminate.
  - destruct (js_split "[" component !! 1%nat) as [r|]; [|now left].
    destruct (nonempty r); [|now left].
    destruct (nonempty (hd "" (js_split "]" r))); [|now left].
    destruct (parseInt _); [now right | now left].
  - intros Hl. now rewrite (js_split_lacks _ _ Hl).
Qed.

(** X23. A path that is empty, that is ['.'], or that starts with a slash
    resolves to the document itself: the walk ends at the first empty
    component, so nothing of an "absolute" path is looked at, nothing is
    created and nothing is thrown; the callback gets the root. *)
Theorem getDataByPath_root_paths data path (insertFn : option (val -> M heap unit))
    (h : heap) :
  path = "" \/ path = "." \/ (exists rest, path = String "/" rest) ->
  getDataByPath data path insertFn h
  = (let* _ := match insertFn with Some f => f data | None => ret tt end in
     ret data) h.
Proof.
  intros [->|[->|[rest ->]]]; reflexivity.
Qed.

Lemma getDataByPath_root_paths_witness :
  getDataByPath (VRef 0) "/a/b[]" None [Obj None []] = (Ok (VRef 0), [Obj None []]).
Proof.
  apply (getDataByPath_root_paths (VRef 0) "/a/b[]" None [Obj None []]).
  right. right. now exists "a/b[]".
Defined.

(* ----------------------------------------------------------------- *)
(** ** [reset] *)

(** X24. After [reset()] the live document is made of new cells only:
    every cell reachable from [ref.data] was allocated by the call, so the
    live document shares nothing with the initial snapshot or with the
    document captured at construction.  The cells that existed are
    untouched, the snapshot, the changelog and the captured document stay,
    and the only emission is ['reset'] on [events]. *)
Theorem reset_gives_fresh_document (w w1 : world FHContext ctx_event) :
  reset w = (Ok tt, w1) ->
  (forall l, reach (w_heap w1) (ref_data (w_self w1)) l -> List.length (w_heap w) <= l)
  /\ (exists ext, w_heap w1 = w_heap w ++ ext)
  /\ ref_initialData (w_self w1) = ref_initialData (w_self w)
  /\ ref_changelog (w_self w1) = ref_changelog (w_self w)
  /\ fh_data (w_self w1) = fh_data (w_self w)
  /\ exists t, w_trace w1 = w_trace w ++ map (pair Events) t /\ emissions t = ["reset"].
Proof.
  intros Hr. destruct (reset_shape _ _ Hr) as (ext1 & ext2 & Hh & _ & Hin & Hb1 & _).
  split; [|split].
  - intros l Hl. rewrite Hh in Hl.
    eapply (reach_inside (List.length (w_heap w))
              (List.length (w_heap w) + List.length ext1)) in Hl; [lia| |exact Hin].
    intros l0 o Hl0 Ho. eapply reset_block; eauto.
  - exists (ext1 ++ ext2). now rewrite Hh, app_assoc.
  - revert Hr. unfold reset, bind, self, set_self. simpl. rewrite liftH_run.
    destruct (jsonClone (ref_initialData (w_self w)) (w_heap w)) as [[dd|e] h1];
      simpl; [|discriminate].
    rewrite liftH_run. simpl.
    destruct (jsonClone dd h1) as [[copy|e] h2]; simpl; [|discriminate].
    intros [= <-]. simpl. repeat split.
    exists (bus_emit (fh_events (w_self w)) "reset" (Reset copy)).
    split; [reflexivity|]. apply emissions_bus_emit.
Qed.

Lemma reset_gives_fresh_document_witness :
  ref_changelog
    (w_self (snd (reset (World [Obj None [("a", VNum 1)]]
                           {| fh_data := VRef 0; ref_data := VRef 0;
                              ref_initialData := VRef 0; ref_changelog := [];
                              fh_events := []; scopedUpdateBus := [];
                              scopedBlurBus := [] |} []))))
  = [].
Proof.
  apply (reset_gives_fresh_document
           (World [Obj None [("a", VNum 1)]]
              {| fh_data := VRef 0; ref_data := VRef 0;
                 ref_initialData := VRef 0; ref_changelog := [];
                 fh_events := []; scopedUpdateBus := [];
                 scopedBlurBus := [] |} [])).
  reflexivity.
Defined.

(* ----------------------------------------------------------------- *)
(** ** [computeDiff]: every reported path lies under the starting path *)

Lemma append_assoc_str (a b c : string) : (a +:+ b) +:+ c = a +:+ (b +:+ c).
Proof.
  induction a as [|x a IH]; [reflexivity|].
  rewrite !append_cons. f_equal. exact IH.
Qed.

Lemma under_extend p cur rest :
  under p cur ->
  under p ((if nonempty cur then cur +:+ "/" else "") +:+ rest).
Proof.
  intros [->|[->|[s ->]]]; [now left| |].
  - destruct p as [|c p]; [now left|]. right. right. exists rest.
    change (nonempty (String c p)) with true. cbv iota.
    now rewrite append_assoc_str.
  - destruct p as [|c p]; [now left|]. right. right.
    exists (s +:+ "/" +:+ rest).
    change (nonempty (String c p +:+ "/" +:+ s)) with true. cbv iota.
    now rewrite !append_assoc_str.
Qed.

Lemma fold_set_keys_In {A B} (key : B -> string) (value : B -> A) k l : forall acc,
  In k (map fst (fold_left (fun ds ie => rec_set (key ie) (value ie) ds) l acc)) ->
  In k (map key l) \/ In k (map fst acc).
Proof.
  induction l as [|x l IH]; simpl; intros acc H; [now right|].
  apply IH in H as [H|H]; [now left; right|].
  apply rec_set_keys_In in H as [->|H]; [now left; left | now right].
Qed.

Lemma computeDiff_rec_under p : forall fuel h oval nval curpath diff r,
  computeDiff_rec fuel h oval nval curpath diff = Ok r ->
  under p curpath ->
  (forall k, In k (map fst (diffs (default no_diff diff))) -> under p k) ->
  forall k, In k (map fst (diffs r)) -> under p k.
Proof.
  induction fuel as [|f IH]; intros h oval nval curpath diff r; [discriminate|].
  cbn [computeDiff_rec]. intros Hr Hcur Hacc.
  destruct (strict_eq oval VNull && strict_eq nval VNull).
  { now inversion Hr; subst. }
  destruct (strict_eq oval VNull || strict_eq nval VNull).
  { inversion Hr; subst. simpl. intros k Hk.
    apply rec_set_keys_In in Hk as [->|Hk]; [exact Hcur | now apply Hacc]. }
  destruct (read_keys h oval) as [okeys|]; simpl in Hr; [|discriminate].
  destruct (read_keys h nval) as [nkeys|]; simpl in Hr; [|discriminate].
  revert Hr.
  apply (rfold_inv _ (fun d => forall k, In k (map fst (diffs d)) -> under p k));
    [|exact Hacc].
  intros acc okey acc' Ha _.
  destruct (read_prop h oval okey) as [ov|]; simpl; [|discriminate].
  destruct (read_prop h nval okey) as [nv|]; simpl; [|discriminate].
  destruct (is_array h ov && is_array h nv).
  - destruct (computeArrayDiff_with _ h ov nv) as [a|]; simpl; [|discriminate].
    destruct (hasDiff a); intros [= <-]; [|exact Ha].
    simpl. intros k Hk. apply fold_set_keys_In in Hk as [Hk|Hk]; [|now apply Ha].
    apply in_map_iff in Hk as (ie & <- & _).
    now apply under_extend.
  - destruct (typeof_object ov && typeof_object nv).
    + intros Hrec. eapply IH; [exact Hrec| |exact Ha].
      now apply under_extend.
    + destruct (negb (strict_eq ov nv)); intros [= <-]; [|exact Ha].
      simpl. intros k Hk.
      apply rec_set_keys_In in Hk as [->|Hk]; [now apply under_extend | now apply Ha].
Qed.

(** X25. Every path that [computeDiff] reports lies under the path it was
    started with: it is [curpath] itself or [curpath/...].  So a diff taken
    with a scope as [curpath], as [setControlValue] and [setData] take it,
    has every key prefixed by that scope; with the default scope ['.'] the
    keys read ['./name']. *)
Theorem computeDiff_paths_under_curpath h oval nval curpath diff r :
  computeDiff h oval nval curpath diff = Ok r ->
  (forall k, In k (map fst (diffs (default no_diff diff))) -> under curpath k) ->
  forall k, In k (map fst (diffs r)) -> under curpath k.
Proof.
  intros Hr Hacc. eapply computeDiff_rec_under; eauto. right. now left.
Qed.

Lemma computeDiff_paths_under_curpath_witness :
  under "." "./a".
Proof.
  apply (computeDiff_paths_under_curpath
           [Obj None [("a", VNum 1)]; Obj None [("a", VNum 2)]]
           (VRef 0) (VRef 1) "." None
           {| hasDiff := true; diffs := [("./a", (VNum 1, VNum 2))] |}).
  - reflexivity.
  - intros k [].
  - now left.
Defined.

(* ----------------------------------------------------------------- *)
(** ** The phases of [dispatch] *)

Lemma bind_Ok {S A B} (m : M S A) (k : A -> M S B) s b s' :
  bind m k s = (Ok b, s') ->
  exists a s1, m s = (Ok a, s1) /\ k a s1 = (Ok b, s').
Proof.
  unfold bind. destruct (m s) as [[a|e] s1]; [eauto | discriminate].
Qed.

Lemma liftH_Ok {X E A} (m : M heap A) (w w1 : world X E) a :
  liftH m w = (Ok a, w1) ->
  exists h1, m (w_heap w) = (Ok a, h1) /\ w1 = World h1 (w_self w) (w_trace w).
Proof.
  rewrite liftH_world. destruct (m (w_heap w)) as [r h1]. simpl.
  intros [= -> <-]. eauto.
Qed.

Lemma spread_entries_reads v (h : heap) : snd (spread_entries v h) = h.
Proof.
  assert (Hgen :
            snd ((let* ks := own_keys v in
                  forM (fun k => let* x := get_prop v k in ret (k, x)) ks) h) = h).
  { unfold bind, own_keys.
    destruct (read_keys h v) as [ks|]; [apply forM_reads | reflexivity]. }
  destruct v; try reflexivity; exact Hgen.
Qed.

Lemma spread_Ok v (h : heap) x h' :
  spread v h = (Ok x, h') -> exists o, x = VRef (List.length h) /\ h' = h ++ [o].
Proof.
  unfold spread. intros H. apply bind_Ok in H as (es & h1 & Hes & Ha).
  assert (h1 = h) as ->.
  { pose proof (spread_entries_reads v h) as Hs. now rewrite Hes in Hs. }
  unfold alloc in Ha. inversion Ha; subst. eauto.
Qed.

Lemma first_mentions_spec texts : forall seen,
  List.NoDup (first_mentions seen texts)
  /\ forall n, In n (first_mentions seen texts)
               <-> In n texts /\ inherited n = false /\ ~ In n seen.
Proof.
  induction texts as [|t rest IH]; intros seen; simpl.
  - split; [constructor | intros n; tauto].
  - destruct (inherited t) eqn:Hi; simpl.
    + destruct (IH seen) as [Hnd Hin]. split; [exact Hnd|].
      intros n. rewrite Hin. split; [tauto|].
      intros [[<-|H] [H1 H2]]; [congruence | tauto].
    + destruct (existsb (String.eqb t) seen) eqn:Hs.
      * destruct (IH seen) as [Hnd Hin]. split; [exact Hnd|].
        intros n. rewrite Hin. split; [tauto|].
        intros [[<-|H] [H1 H2]]; [|tauto].
        exfalso. apply H2. apply existsb_exists in Hs as (x & Hx & ->%String.eqb_eq).
        exact Hx.
      * destruct (IH (t :: seen)) as [Hnd Hin].
        assert (Hns : ~ In t seen).
        { intros Hx. apply Bool.not_true_iff_false in Hs. apply Hs.
          apply existsb_exists. exists t. split; [exact Hx | apply String.eqb_refl]. }
        split.
        -- constructor; [|exact Hnd]. rewrite Hin. simpl. tauto.
        -- intros n. simpl. rewrite Hin. simpl. split.
           ++ intros [<-|(H1 & H2 & H3)]; [tauto|]. tauto.
           ++ intros [[<-|H1] [H2 H3]]; [now left|].
              destruct (String.eqb_spec t n) as [->|Hne]; [now left|]. right. tauto.
Qed.

Lemma emit_inner_Ok args : forall ievts sent seen
    (w w' : world ActionStoreImpl (bus_event store_payload)),
  (forall k, rec_marked k sent = inherited k || existsb (String.eqb k) seen) ->
  emit_inner ievts sent args w = (Ok tt, w') ->
  exists texts t,
    Forall2 (fun v s => text_of v = Ok s) ievts texts
    /\ w' = World (w_heap w) (w_self w) (w_trace w ++ t)
    /\ emissions t = map (append "action:") (first_mentions seen texts).
Proof.
  induction ievts as [|ievt rest IH]; intros sent seen w w' Hsent H.
  - exists [], []. assert (w' = w) as -> by (cbn [emit_inner] in H; unfold ret in H; congruence).
    rewrite app_nil_r. destruct w. repeat split. constructor.
  - cbn [emit_inner] in H. apply bind_Ok in H as (t0 & w1 & Ht & H).
    unfold readH in Ht. destruct (text_of ievt) as [txt|] eqn:Etxt; inversion Ht; subst.
    destruct (rec_marked t0 sent) eqn:Esent.
    + apply (IH _ seen) in H as (texts & t & Hf & -> & Hem); [|exact Hsent].
      exists (t0 :: texts), t. split; [now constructor|]. split; [reflexivity|].
      cbn [first_mentions]. now rewrite <- Hsent, Esent.
    + apply bind_Ok in H as ([] & w2 & He & H). rewrite store_emit_run in He.
      inversion He; subst.
      apply (IH _ (t0 :: seen)) in H as (texts & t & Hf & -> & Hem).
      * cbn [w_heap w_self w_trace].
        exists (t0 :: texts),
               (bus_emit (st_events (w_self w1)) ("action:" +:+ t0) args ++ t).
        split; [now constructor|]. split; [now rewrite app_assoc|].
        cbn [first_mentions]. rewrite <- Hsent, Esent.
        rewrite emissions_app, emissions_bus_emit, Hem. reflexivity.
      * intros k. unfold rec_marked. rewrite rec_mark_get. cbn [existsb].
        pose proof (Hsent k) as Hk. unfold rec_marked in Hk.
        destruct (String.eqb_spec k t0) as [->|Hne]; cbn [andb].
        -- pose proof (Hsent t0) as H0. rewrite Esent in H0.
           apply eq_sym, orb_false_iff in H0 as [Hi _].
           assert (Hp : String.eqb t0 "__proto__" = false).
           { destruct (String.eqb_spec t0 "__proto__") as [->|]; [discriminate Hi|reflexivity]. }
           rewrite Hp, Hi. reflexivity.
        -- exact Hk.
Qed.

(** X26. A [dispatch] that returns has copied the state and run the
    reducers on the copy.  If they handed the copy back, nothing else
    happens: store and trace stay as they were.  Otherwise it commits in
    this order: the items of [nstate.__innerEvents] (of a new empty array
    when there is none), each text emitted as [action:<text>] at its first
    mention and a text that names an inherited member of the [sent] table
    not at all; then the cascade of [action:<type>], longest first; then
    the state is replaced by a new top-level object, the last cell
    allocated.  The listeners and the reducers of the store are never
    changed. *)
Theorem dispatch_phases action (w w' : world ActionStoreImpl (bus_event store_payload)) :
  dispatch action w = (Ok tt, w') ->
  exists ostate h1 nstate h2,
    jsonClone (st_state (w_self w)) (w_heap w) = (Ok ostate, h1)
    /\ applyReducers (st_reducers (w_self w)) action ostate h1 = (Ok nstate, h2)
    /\ if strict_eq nstate ostate
       then w' = World h2 (w_self w) (w_trace w)
       else exists ie ievts texts t cell h9,
              read_prop h2 nstate "__innerEvents" = Ok ie
              /\ fst (array_items (if nullish ie then VRef (List.length h2) else ie) h9)
                 = Ok ievts
              /\ Forall2 (fun v s => text_of v = Ok s) ievts texts
              /\ w_trace w' = w_trace w ++ t
              /\ emissions t
                 = map (append "action:") (first_mentions [] texts)
                   ++ map (fun k => js_join ":"
                                      (take k (js_split ":" ("action:" +:+ a_type action))))
                          (rev (seq 1 (List.length
                                         (js_split ":" ("action:" +:+ a_type action)))))
              /\ List.NoDup (first_mentions [] texts)
              /\ (forall n, In n (first_mentions [] texts)
                            <-> In n texts /\ inherited n = false)
              /\ w_heap w' = h9 ++ [cell]
              /\ st_state (w_self w') = VRef (List.length h9)
              /\ st_events (w_self w') = st_events (w_self w)
              /\ st_reducers (w_self w') = st_reducers (w_self w).
Proof.
  unfold dispatch. intros H.
  apply bind_Ok in H as (st & w0 & Hst & H). unfold self in Hst. inversion Hst; subst.
  apply bind_Ok in H as (ostate & w1 & Ho & H). apply liftH_Ok in Ho as (h1 & Ho & ->).
  apply bind_Ok in H as (nstate & w2 & Hn & H). apply liftH_Ok in Hn as (h2 & Hn & ->).
  cbn [w_heap w_self w_trace] in *.
  exists ostate, h1, nstate, h2. split; [exact Ho|]. split; [exact Hn|].
  destruct (strict_eq nstate ostate); cbn [negb] in H; [now inversion H|].
  apply bind_Ok in H as (ie & w3 & H3 & H). apply liftH_Ok in H3 as (h3 & H3 & ->).
  unfold get_prop, get_key in H3. injection H3 as Hie <-.
  apply bind_Ok in H as (innerEvents & w4 & H4 & H).
  assert (exists h4, w4 = World h4 (w_self w0) (w_trace w0)
                     /\ innerEvents = if nullish ie then VRef (List.length h2) else ie)
    as (h4 & -> & Hinner).
  { destruct (nullish ie).
    - apply liftH_Ok in H4 as (h4 & Ha & ->). unfold alloc in Ha.
      injection Ha as <- <-. eauto.
    - inversion H4; subst. destruct w0; eauto. }
  apply bind_Ok in H as (ck & w5 & H5 & H). apply liftH_Ok in H5 as (h5 & _ & ->).
  apply bind_Ok in H as (changedKeys & w6 & H6 & H).
  assert (exists h6, w6 = World h6 (w_self w0) (w_trace w0)) as [h6 ->].
  { destruct (nullish ck); [apply liftH_Ok in H6 as (h6 & _ & ->) | inversion H6]; eauto. }
  apply bind_Ok in H as ([] & w7 & H7 & H). apply liftH_Ok in H7 as (h7 & _ & ->).
  apply bind_Ok in H as ([] & w8 & H8 & H). apply liftH_Ok in H8 as (h8 & _ & ->).
  apply bind_Ok in H as (ievts & w9 & H9 & H). apply liftH_Ok in H9 as (h9 & Hitems & ->).
  cbn [w_heap w_self w_trace] in *.
  assert (h9 = h8) as ->.
  { revert Hitems. unfold array_items. destruct innerEvents; try discriminate.
    destruct (h8 !! l) as [[[es|] ps]|]; try discriminate. now intros [= _ <-]. }
  apply bind_Ok in H as ([] & w10 & H10 & H).
  apply (emit_inner_Ok _ _ _ []) in H10 as (texts & t1 & Htexts & -> & Hem1);
    [|intros k; unfold rec_marked; simpl; reflexivity].
  apply bind_Ok in H as ([] & w11 & H11 & H).
  cbn [w_heap w_self w_trace] in H11.
  destruct (cascadeEmit_run ("action:" +:+ a_type action)
              (ActionEvent action nstate innerEvents changedKeys)
              (World h8 (w_self w0) (w_trace w0 ++ t1))) as (t2 & Hrun & Hem2).
  rewrite Hrun in H11. inversion H11; subst w11. clear H11.
  apply bind_Ok in H as (copy & w12 & H12 & H). apply liftH_Ok in H12 as (h12 & Hsp & ->).
  cbn [w_heap w_self w_trace] in *.
  apply spread_Ok in Hsp as (cell & -> & ->).
  unfold set_state, set_self in H. inversion H; subst w'. cbn [w_heap w_self w_trace].
  exists ie, ievts, texts, (t1 ++ t2), cell, h8.
  split; [exact Hie|]. split; [rewrite <- Hinner, Hitems; reflexivity|].
  split; [exact Htexts|]. split; [now rewrite app_assoc|].
  split; [now rewrite emissions_app, Hem1, Hem2|].
  destruct (first_mentions_spec texts []) as [Hnd Hin].
  split; [exact Hnd|]. split; [|repeat split].
  intros n. rewrite Hin. simpl. tauto.
Qed.

(** The store [{a:'one'}] and the action that appends [a] and [e]: the inner
    events of the reducer, then the cascade. *)
Lemma dispatch_phases_witness :
  exists t,
    w_trace (snd (dispatch append_action one_key_store)) = w_trace one_key_store ++ t
    /\ emissions t
       = ["action:std-ops:change:.:e"; "action:std-ops:change:."; "action:std-ops:change";
          "action:std-ops"; "action"].
Proof.
  destruct (dispatch_phases append_action one_key_store
              (snd (dispatch append_action one_key_store)) eq_refl)
    as (ostate & h1 & nstate & h2 & Ho & Hn & Hrest).
  vm_compute in Ho. injection Ho as <- <-.
  vm_compute in Hn. injection Hn as <- <-.
  change (strict_eq (VRef 2) (VRef 1)) with false in Hrest.
  destruct Hrest as (ie & ievts & texts & t & cell & h9 & Hie & Hitems & Htexts & Htr & Hem
                     & _ & _ & Hheap & _).
  vm_compute in Hie. injection Hie as <-.
  vm_compute in Hheap.
  apply (app_inj_tail
           [Obj None [("a", VStr "one")]; Obj None [("a", VStr "one")];
            Obj None [("a", VStr "one"); ("e", VStr "five")];
            Obj (Some [Some (VStr "std-ops:change:.:e"); Some (VStr "std-ops:change:.");
                       Some (VStr "std-ops:change")]) [];
            Obj (Some [Some (VStr "e")]) [];
            Obj None [("a", VStr "one"); ("e", VStr "five")]] h9) in Hheap as [<- _].
  vm_compute in Hitems. injection Hitems as <-.
  inversion Htexts as [|? s1 ? l1 H1 Hr1]; subst.
  inversion Hr1 as [|? s2 ? l2 H2 Hr2]; subst.
  inversion Hr2 as [|? s3 ? l3 H3 Hr3]; subst.
  inversion Hr3; subst.
  injection H1 as <-. injection H2 as <-. injection H3 as <-.
  exists t. split; [exact Htr | exact Hem].
Defined.

(* ----------------------------------------------------------------- *)
(** ** [resetControl] *)

Lemma read_key_app (h ext : heap) v k x :
  read_key h v k = Ok x -> read_key (h ++ ext) v k = Ok x.
Proof.
  destruct v; simpl; auto.
  destruct (h !! l) as [o|] eqn:Hl; [|discriminate].
  now rewrite (lookup_app_l_Some _ _ _ _ Hl).
Qed.

Lemma read_key_set_same ptr k v (h h' : heap) q :
  set_key ptr k v h = (Ok tt, h') ->
  read_key h q k = Ok v ->
  read_key h' q k = Ok v.
Proof.
  intros Hs Hq. pose proof (read_after_set _ _ _ _ _ Hs) as Hp.
  unfold set_key in Hs. destruct ptr as [| | | | |lp]; try discriminate.
  destruct (h !! lp) as [o|] eqn:Hl; [|discriminate].
  destruct (obj_set o k v) as [o'|]; [|discriminate]. injection Hs as <-.
  destruct q as [| | | | |lq]; try exact Hq.
  destruct (Nat.eq_dec lq lp) as [->|Hne]; [exact Hp|].
  simpl in *. now rewrite list_lookup_insert_ne by congruence.
Qed.

Lemma getDataByPath_root_world {X E} data (f : option (val -> M (world X E) unit))
    (w : world X E) :
  getDataByPath data "." f w
  = (let* _ := match f with Some g => g data | None => ret tt end in ret data) w.
Proof. destruct w. reflexivity. Qed.

Lemma triggerUpdate_Ok diff (w w' : world FHContext ctx_event) :
  triggerUpdate diff w = (Ok tt, w') ->
  (exists ext, w_heap w' = w_heap w ++ ext)
  /\ ref_data (w_self w') = ref_data (w_self w)
  /\ ref_initialData (w_self w') = ref_initialData (w_self w).
Proof.
  unfold triggerUpdate. destruct (negb (hasDiff diff)).
  - intros [= <-]. split; [exists []; now rewrite app_nil_r | now split].
  - intros H. apply bind_Ok in H as (c & w0 & Hc & H). unfold self in Hc.
    inversion Hc; subst. clear Hc.
    apply bind_Ok in H as (clone & w1 & Hcl & H). apply liftH_Ok in Hcl as (h1 & Hcl & ->).
    destruct (jsonClone_allocates _ _ _ _ Hcl) as (ext & -> & _).
    apply bind_Ok in H as ([] & w2 & Hs & H). unfold set_self in Hs.
    inversion Hs; subst. clear Hs. cbn [w_heap w_self w_trace] in H.
    apply bind_Ok in H as (q & w3 & Hf & H).
    match type of Hf with
    | emit_fields ?e ?q0 ?w0 = _ =>
        destruct (emit_fields_run e q0 w0) as (q' & t1 & Hrun & _)
    end.
    rewrite Hrun in Hf. inversion Hf; subst. clear Hf Hrun.
    cbn [w_heap w_self w_trace] in H.
    apply bind_Ok in H as ([] & w4 & He & H).
    match type of He with
    | forEach _ ?l ?w0 = _ =>
        destruct (forEach_emit_scopes diff l w0) as (t2 & Hrun & _)
    end.
    rewrite Hrun in He. inversion He; subst. clear He Hrun.
    rewrite emit_run in H. inversion H; subst. cbn [w_heap w_self w_trace].
    split; [now exists ext | now split].
Qed.

(** X27. [resetControl(name)] at the root restores the field by reference:
    afterwards the live document and the initial snapshot both hold, under
    [name], the value that the snapshot held before the call.  For an
    object or an array that is one shared object, so a later edit inside
    the field through the live document is an edit of the snapshot as well.
    The two documents stay the objects they were.  The snapshot is an
    object that does not inherit [name]. *)
Theorem resetControl_restores_by_reference name (w w' : world FHContext ctx_event) li v0 :
  ref_initialData (w_self w) = VRef li ->
  inherits (w_heap w) (VRef li) name = false ->
  read_prop (w_heap w) (VRef li) name = Ok v0 ->
  resetControl name None w = (Ok tt, w') ->
  ref_data (w_self w') = ref_data (w_self w)
  /\ ref_initialData (w_self w') = ref_initialData (w_self w)
  /\ read_prop (w_heap w') (ref_data (w_self w)) name = Ok v0
  /\ read_prop (w_heap w') (ref_initialData (w_self w)) name = Ok v0.
Proof.
  intros Hli _ Hbefore. unfold resetControl. cbn [default]. intros H.
  apply bind_Ok in H as (c & w0 & Hc & H). unfold self in Hc. inversion Hc; subst. clear Hc.
  apply bind_Ok in H as (r & w1 & H & Hret). unfold ret in Hret. inversion Hret; subst.
  clear Hret. rewrite getDataByPath_root_world in H.
  apply bind_Ok in H as ([] & w1 & H & Hret). unfold ret in Hret. inversion Hret; subst.
  clear Hret.
  apply bind_Ok in H as (odata & w2 & Ho & H). apply liftH_Ok in Ho as (h1 & Ho & ->).
  destruct (jsonClone_allocates _ _ _ _ Ho) as (ext & -> & _).
  apply bind_Ok in H as (init & w3 & Hi & H). rewrite getDataByPath_root_world in Hi.
  unfold bind, ret in Hi. inversion Hi; subst. clear Hi.
  apply bind_Ok in H as (v & w4 & Hv & H). apply liftH_Ok in Hv as (h4 & Hv & ->).
  unfold get_prop, get_key in Hv. cbn [w_heap w_self w_trace] in Hv.
  inversion Hv as [[Hread Hh]]. subst h4. clear Hv.
  assert (v = v0) as ->.
  { rewrite Hli in Hread. unfold read_prop in Hbefore.
    rewrite (read_key_app _ ext _ _ _ Hbefore) in Hread. congruence. }
  apply bind_Ok in H as ([] & w5 & Hs & H). apply liftH_Ok in Hs as (h5 & Hs & ->).
  cbn [w_heap w_self w_trace] in Hs, H. unfold set_prop in Hs.
  apply bind_Ok in H as (diff & w6 & Hd & H). unfold readH in Hd.
  cbn [the_heap world_has_heap w_heap] in Hd.
  destruct (computeDiff h5 odata (fh_data (w_self w0)) "" None) as [d|]; [|discriminate].
  inversion Hd; subst. clear Hd.
  apply triggerUpdate_Ok in H as ((ext' & Hh) & Hrd & Hri).
  cbn [w_heap w_self w_trace] in *.
  split; [exact Hrd|]. split; [exact Hri|].
  rewrite Hh. unfold read_prop. split; apply read_key_app.
  - eapply read_after_set; eauto.
  - eapply read_key_set_same; eauto.
Qed.

(** The context [two_document_context], whose snapshot holds 0 under ['a']
    and whose live document holds 1. *)
Lemma resetControl_restores_by_reference_witness :
  read_prop (w_heap (snd (resetControl "a" None two_document_context))) (VRef 0) "a"
  = Ok (VNum 0)
  /\ read_prop (w_heap (snd (resetControl "a" None two_document_context))) (VRef 1) "a"
     = Ok (VNum 0).
Proof.
  apply (resetControl_restores_by_reference "a" two_document_context
           (snd (resetControl "a" None two_document_context)) 1%nat (VNum 0));
    reflexivity.
Defined.

(* ----------------------------------------------------------------- *)
(** ** [setData] *)

Lemma assign_plain lp : forall (es : Rec val) ps (h : heap),
  h !! lp = Some (Obj None ps) ->
  forEach (fun kv => set_prop (VRef lp) (fst kv) (snd kv)) es h
  = (Ok tt, <[lp := Obj None (fold_left (fun r kv => rec_set (fst kv) (snd kv) r) es ps)]> h).
Proof.
  induction es as [|[k x] es IH]; intros ps h Hl.
  - simpl. unfold ret. now rewrite list_insert_id.
  - cbn [forEach fold_left fst snd]. unfold bind, set_prop, set_key.
    rewrite Hl. unfold obj_set. cbn [elems props]. rewrite key_text_of_string.
    rewrite (IH (rec_set k x ps)).
    + now rewrite list_insert_insert_eq.
    + apply list_lookup_insert_eq. eapply lookup_lt_Some; eauto.
Qed.

(** X28. [setData(newData, scope)] is [Object.assign] on the node the scope
    resolves to: afterwards the node has every own property of [newData]
    with the value [newData] gives it, and it keeps its other properties.
    The node and [newData] are plain objects here, [newData] has no own
    property ['__proto__'] (assigning it would set the prototype of the
    node), and the properties read are not inherited ones. *)
Theorem setData_assigns_newData scope (w w' : world FHContext ctx_event)
    lp ps ln pp h1 :
  getDataByPath (ref_data (w_self w)) scope None (w_heap w) = (Ok (VRef lp), h1) ->
  h1 !! lp = Some (Obj None ps) ->
  h1 !! ln = Some (Obj None pp) ->
  rec_get "__proto__" pp = None ->
  setData (VRef ln) (Some scope) w = (Ok tt, w') ->
  forall k,
    inherited k = false ->
    read_prop (w_heap w') (VRef lp) k
    = Ok (default VUndef (match rec_get k pp with
                          | Some v => Some v
                          | None => rec_get k ps
                          end)).
Proof.
  intros Hres Hlp Hln _ H k _. rewrite getDataByPath_heap in Hres.
  unfold setData in H. change (default "." (Some scope)) with scope in H.
  apply bind_Ok in H as (c & w0 & Hc & H). unfold self in Hc. inversion Hc; subst. clear Hc.
  apply bind_Ok in H as (r & w1 & H & Hret). unfold ret in Hret. inversion Hret; subst.
  clear Hret. unfold getDataByPath in H.
  apply bind_Ok in H as (ptr & w2 & Hp & H). apply liftH_Ok in Hp as (h2 & Hp & ->).
  rewrite Hres in Hp. inversion Hp; subst. clear Hp.
  apply bind_Ok in H as ([] & w3 & H & Hret). unfold ret in Hret. inversion Hret; subst.
  clear Hret.
  apply bind_Ok in H as (optr & w4 & Ho & H). apply liftH_Ok in Ho as (h4 & Ho & ->).
  cbn [w_heap w_self w_trace] in Ho, H.
  destruct (jsonClone_allocates _ _ _ _ Ho) as (ext & -> & _).
  apply bind_Ok in H as ([] & w5 & Ha & H). apply liftH_Ok in Ha as (h5 & Ha & ->).
  cbn [w_heap w_self w_trace] in Ha, H.
  unfold object_assign in Ha.
  apply bind_Ok in Ha as (es & h6 & Hes & Ha).
  rewrite (spread_entries_plain ln pp) in Hes by (now apply lookup_app_l_Some).
  inversion Hes; subst. clear Hes.
  rewrite (assign_plain lp _ ps) in Ha by (now apply lookup_app_l_Some).
  inversion Ha; subst. clear Ha.
  apply bind_Ok in H as (diff & w6 & Hd & H). unfold readH in Hd.
  destruct (computeDiff _ optr (VRef lp) scope None) as [d|]; [|discriminate].
  inversion Hd; subst. clear Hd.
  apply triggerUpdate_Ok in H as ((ext' & Hh) & _).
  cbn [w_heap w_self w_trace] in Hh. rewrite Hh.
  unfold read_prop. apply read_key_app. simpl.
  rewrite list_lookup_insert_eq
    by (rewrite length_app; apply lookup_lt_Some in Hlp; lia).
  rewrite plain_get, table_fold_get, <- map_rev, rec_get_map_keys. do 2 f_equal.
  destruct (existsb (String.eqb k) (rev (rec_keys pp))) eqn:E.
  - apply existsb_eqb_In, in_rev, rec_keys_In, rec_get_In in E as [v Hv].
    now rewrite Hv.
  - destruct (rec_get k pp) as [v|] eqn:Hv; [|reflexivity].
    assert (Hin : In k (rev (rec_keys pp))).
    { apply -> in_rev. apply rec_keys_In, rec_get_In. eauto. }
    apply existsb_eqb_In in Hin. congruence.
Qed.

Lemma setData_assigns_newData_witness :
  read_prop
    (w_heap (snd (setData (VRef 1) (Some ".") two_document_context))) (VRef 0) "a"
  = Ok (VNum 0).
Proof.
  apply (setData_assigns_newData "." two_document_context
           (snd (setData (VRef 1) (Some ".") two_document_context))
           0%nat [("a", VNum 1)] 1%nat [("a", VNum 0)]
           [Obj None [("a", VNum 1)]; Obj None [("a", VNum 0)]]);
    reflexivity.
Defined.

(* ----------------------------------------------------------------- *)
(** ** The constructors copy their arguments *)

Lemma clone_reach (h ext rest : heap) v l :
  inside (List.length h) (List.length h + List.length ext) v ->
  block_closed (List.length h) ext ->
  reach ((h ++ ext) ++ rest) v l ->
  List.length h <= l < List.length h + List.length ext.
Proof.
  intros Hin Hb Hr.
  eapply reach_inside; [|exact Hr|exact Hin].
  intros l0 o Hl0 Ho. eapply reset_block; eauto.
Qed.

(** X29. The constructors work on copies.  [makeFHContext] returns a
    context whose live document is the captured document, whose two
    documents consist of cells allocated by the call (nothing of an
    argument is shared), and whose live document and initial snapshot share
    no cell with each other; the changelog and the three buses start
    empty and the existing cells are not written.  [new ActionStoreImpl]
    likewise holds a state made of new cells, with the reducers given and no
    listener. *)
Theorem constructors_copy_their_arguments :
  (forall p_data p_initialData (h : heap) c h',
     makeFHContext p_data p_initialData h = (Ok c, h') ->
     fh_data c = ref_data c
     /\ ref_changelog c = []
     /\ (fh_events c = [] /\ scopedUpdateBus c = [] /\ scopedBlurBus c = [])
     /\ (exists ext, h' = h ++ ext)
     /\ (forall l, reach h' (ref_data c) l -> List.length h <= l)
     /\ (forall l, reach h' (ref_initialData c) l -> List.length h <= l)
     /\ (forall l, reach h' (ref_data c) l -> reach h' (ref_initialData c) l -> False))
  /\ (forall state reducers (h : heap) st h',
     newActionStore state reducers h = (Ok st, h') ->
     st_events st = [] /\ st_reducers st = reducers
     /\ (exists ext, h' = h ++ ext)
     /\ (forall l, reach h' (st_state st) l -> List.length h <= l)).
Proof.
  split.
  - intros p_data p_init h c h' H. unfold makeFHContext in H.
    apply bind_Ok in H as (d & h0 & Hd & H).
    assert (Hh0 : exists e0, h0 = h ++ e0).
    { destruct (nullish p_data); inversion Hd; subst;
        [now exists [empty_object] | exists []; now rewrite app_nil_r]. }
    destruct Hh0 as [e0 ->].
    apply bind_Ok in H as (data & h1 & Hc1 & H).
    destruct (jsonClone_allocates _ _ _ _ Hc1) as (ext1 & -> & Hin1 & Hb1).
    apply bind_Ok in H as (init & h2 & Hc2 & H).
    destruct (jsonClone_allocates _ _ _ _ Hc2) as (ext2 & -> & Hin2 & Hb2).
    unfold ret in H. inversion H; subst. clear H. cbn [fh_data ref_data ref_initialData
      ref_changelog fh_events scopedUpdateBus scopedBlurBus].
    assert (R1 : forall l, reach (((h ++ e0) ++ ext1) ++ ext2) data l ->
                 List.length (h ++ e0) <= l < List.length (h ++ e0) + List.length ext1).
    { intros l. now apply clone_reach. }
    assert (R2 : forall l, reach (((h ++ e0) ++ ext1) ++ ext2) init l ->
                 List.length ((h ++ e0) ++ ext1) <= l).
    { intros l Hl. rewrite <- (app_nil_r (_ ++ ext2)) in Hl.
      apply clone_reach in Hl; [lia | exact Hin2 | exact Hb2]. }
    repeat split.
    + exists (e0 ++ ext1 ++ ext2). now rewrite !app_assoc.
    + intros l Hl. apply R1 in Hl. rewrite length_app in Hl. lia.
    + intros l Hl. apply R2 in Hl. rewrite !length_app in Hl. lia.
    + intros l Hl1 Hl2. apply R1 in Hl1. apply R2 in Hl2.
      rewrite !length_app in *. lia.
  - intros state reducers h st h' H. unfold newActionStore in H.
    apply bind_Ok in H as (s & h1 & Hc & H).
    destruct (jsonClone_allocates _ _ _ _ Hc) as (ext & -> & Hin & Hb).
    unfold ret in H. inversion H; subst. cbn [st_events st_reducers st_state].
    repeat split; [now exists ext|].
    intros l Hl. rewrite <- (app_nil_r (h ++ ext)) in Hl.
    apply clone_reach in Hl; [lia | exact Hin | exact Hb].
Qed.

(* ----------------------------------------------------------------- *)
(** ** [getScopeAndName] *)

Lemma collect_scopes_boundary form outer : forall inner acc,
  is_boundary form = true ->
  collect_scopes (inner ++ form :: outer) acc = collect_scopes inner acc.
Proof.
  induction inner as [|e inner IH]; intros acc Hb; simpl.
  - now rewrite Hb.
  - destruct (is_boundary e); [reflexivity|]. now apply IH.
Qed.

Lemma collect_scopes_open : forall chain acc,
  forallb (fun e => negb (is_boundary e)) chain = true ->
  collect_scopes chain acc
  = acc ++ List.filter nonempty
             (map (fun e => default "" (rec_get DS_KEY_SCOPE (e_dataset e))) chain).
Proof.
  induction chain as [|e chain IH]; intros acc Hall; simpl.
  - now rewrite app_nil_r.
  - apply andb_prop in Hall as [He Hall]. apply negb_true_iff in He. rewrite He.
    rewrite IH by exact Hall.
    destruct (nonempty (default "" (rec_get DS_KEY_SCOPE (e_dataset e))));
      [now rewrite <- app_assoc | reflexivity].
Qed.

(** X30. [getScopeAndName] builds the scope from the element up to the
    enclosing form or partition and no further: the boundary element and
    everything above it contribute nothing.  Below the boundary, for a
    name without a slash, the scope is the non-empty [data-fhscope] values
    of the element and its ancestors, outermost first, joined by ['/'], and
    the name is the element's name. *)
Theorem getScopeAndName_stops_at_boundary e inner form outer :
  is_boundary form = true ->
  getScopeAndName ((e :: inner) ++ form :: outer) = getScopeAndName (e :: inner)
  /\ (forallb (fun x => negb (is_boundary x)) (e :: inner) = true ->
      lacks "/" (e_name e) = true ->
      getScopeAndName ((e :: inner) ++ form :: outer)
      = {| sn_scope :=
             js_join "/"
               (rev (List.filter nonempty
                       (map (fun x => default "" (rec_get DS_KEY_SCOPE (e_dataset x)))
                            (e :: inner))));
           sn_name := e_name e |}).
Proof.
  intros Hb.
  assert (Heq : getScopeAndName ((e :: inner) ++ form :: outer)
                = getScopeAndName (e :: inner)).
  { unfold getScopeAndName. cbn [app].
    change (e :: inner ++ form :: outer) with ((e :: inner) ++ form :: outer).
    now rewrite collect_scopes_boundary. }
  split; [exact Heq|]. intros Hopen Hl. rewrite Heq.
  unfold getScopeAndName. rewrite (js_split_lacks _ _ Hl).
  cbn [List.length Nat.ltb Nat.leb nonempty].
  rewrite collect_scopes_open by exact Hopen. cbn [app].
  f_equal. f_equal.
  set (l := List.filter nonempty _).
  assert (Hf : forall l0, Forall (fun s => nonempty s = true) l0 ->
                          List.filter nonempty l0 = l0).
  { induction l0 as [|s l0 IH]; intros H; [reflexivity|].
    inversion H; subst. simpl. rewrite H2. f_equal. now apply IH. }
  apply Hf. apply Forall_rev. subst l. apply List.Forall_forall.
  intros s Hs. now apply List.filter_In in Hs.
Qed.

Lemma getScopeAndName_stops_at_boundary_witness :
  getScopeAndName
    ([{| e_name := "city"; e_tagName := "INPUT"; e_dataset := [] |};
      {| e_name := ""; e_tagName := "DIV"; e_dataset := [("fhscope", "address")] |};
      {| e_name := ""; e_tagName := "DIV"; e_dataset := [("fhscope", "user")] |}]
     ++ {| e_name := ""; e_tagName := "FORM"; e_dataset := [("fhscope", "outer")] |}
        :: [{| e_name := ""; e_tagName := "DIV"; e_dataset := [("fhscope", "page")] |}])
  = {| sn_scope := "user/address"; sn_name := "city" |}.
Proof.
  apply (getScopeAndName_stops_at_boundary
           {| e_name := "city"; e_tagName := "INPUT"; e_dataset := [] |}
           [{| e_name := ""; e_tagName := "DIV"; e_dataset := [("fhscope", "address")] |};
            {| e_name := ""; e_tagName := "DIV"; e_dataset := [("fhscope", "user")] |}]
           {| e_name := ""; e_tagName := "FORM"; e_dataset := [("fhscope", "outer")] |});
    reflexivity.
Defined.

(* ----------------------------------------------------------------- *)
(** ** Instances *)

Lemma blur_emits_a_prefix_witness :
  blur (fun _ _ => false)
    {| fh_data := VUndef; ref_data := VUndef; ref_initialData := VUndef;
       ref_changelog := []; fh_events := []; scopedUpdateBus := [];
       scopedBlurBus := [("a/bc", [1%nat]); ("*", [2%nat])] |}
    "a" (BlurName "bc") (Some true)
  = [].
Proof.
  apply (blur_emits_a_prefix (fun _ _ => false)). reflexivity.
Defined.

Lemma getData_getState_fresh_copy_witness :
  exists ps',
    getData two_document_context
    = (Ok (VRef 2),
       World (w_heap two_document_context ++ [Obj None ps'])
             (w_self two_document_context) (w_trace two_document_context))
    /\ forall k, rec_get k ps' = rec_get k [("a", VNum 1)].
Proof.
  apply (proj1 getData_getState_fresh_copy two_document_context 0%nat); reflexivity.
Defined.

Lemma parsePathComponent_shapes_witness :
  parsePathComponent "items"
  = {| pc_name := "items"; pc_isArray := false; pc_index := None; pc_key := None |}.
Proof.
  apply (parsePathComponent_shapes "items"). reflexivity.
Defined.

Lemma constructors_copy_their_arguments_witness :
  exists ext,
    [Obj None [("a", VNum 1)]; Obj None [("a", VNum 0)];
     Obj None [("a", VNum 1)]; Obj None [("a", VNum 0)]]
    = [Obj None [("a", VNum 1)]; Obj None [("a", VNum 0)]] ++ ext.
Proof.
  destruct (proj1 constructors_copy_their_arguments
              (VRef 0) (VRef 1)
              [Obj None [("a", VNum 1)]; Obj None [("a", VNum 0)]]
              {| fh_data := VRef 2; ref_data := VRef 2; ref_initialData := VRef 3;
                 ref_changelog := []; fh_events := []; scopedUpdateBus := [];
                 scopedBlurBus := [] |}
              [Obj None [("a", VNum 1)]; Obj None [("a", VNum 0)];
               Obj None [("a", VNum 1)]; Obj None [("a", VNum 0)]] eq_refl)
    as (_ & _ & _ & H & _).
  exact H.
Defined.
